(** * GCEm.sampler: implausibility, constraint rule, batch evaluation and
      rejection sampling

    A shallow embedding of [GCEm/sampler.py].  Tensors of [float64] are lists
    of binary64 floats (Rocq's primitive floats, whose operations are the
    IEEE 754 ones), NumPy and TensorFlow broadcasting is written out together
    with the shape errors it raises, the emulator is a record holding what
    the sampler reads from the [model] object, and the draws of the prior
    distribution are an explicit stream threaded through the sampling loops. *)

From Stdlib Require Import ZArith List Bool Lia Floats Uint63 PeanoNat Permutation.
Import ListNotations.

(** ** Tensors, shapes and errors *)

Abbreviation vec := (list float) (only parsing).

(** A rank-2 tensor: the number of columns is kept next to the rows, as a
    tensor with no row still has a shape [(0, O)]. *)
Record matrix := Mat { ncols : nat; rows : list vec }.

Definition nrows (M : matrix) : nat := length (rows M).
Definition shape (M : matrix) : list nat := [nrows M; ncols M].

Definition well_shaped (M : matrix) : Prop :=
  Forall (fun r => length r = ncols M) (rows M).

Inductive error :=
| BroadcastError (s1 s2 : list nat)
| ReshapeError (size : nat) (target : list nat)
| ConcatError (s1 s2 : list nat)
| IndexError (index size : nat)
| InvalidArgument (batch_size : nat).

Inductive result (A : Type) :=
| Ok (a : A)
| Raise (e : error).
Arguments Ok {A} a.
Arguments Raise {A} e.

Definition bind {A B} (c : result A) (k : A -> result B) : result B :=
  match c with
  | Ok a => k a
  | Raise e => Raise e
  end.

Declare Scope result_scope.
Delimit Scope result_scope with result.
Notation "x <- c ;; k" := (bind c (fun x => k))
  (at level 61, c at next level, right associativity) : result_scope.
Open Scope result_scope.

Fixpoint foldM {A B} (f : A -> B -> result A) (l : list B) (a : A) : result A :=
  match l with
  | [] => Ok a
  | b :: l' => a' <- f a b ;; foldM f l' a'
  end.

(** ** Elementwise operations and broadcasting *)

Fixpoint zip_with {A B C} (f : A -> B -> C) (l1 : list A) (l2 : list B) : list C :=
  match l1, l2 with
  | a :: l1', b :: l2' => f a b :: zip_with f l1' l2'
  | _, _ => []
  end.

(** The broadcast of two dimensions: equal, or one of them is 1. *)
Definition bdim (a b : nat) : option nat :=
  if a =? b then Some a
  else if a =? 1 then Some b
  else if b =? 1 then Some a
  else None.

(** A dimension of size 1 is repeated up to the broadcast size. *)
Definition stretch {A} (n : nat) (l : list A) : list A :=
  match l with
  | [x] => repeat x n
  | _ => l
  end.

Definition broadcast1 (op : float -> float -> float) (a b : vec) : result vec :=
  match bdim (length a) (length b) with
  | Some n => Ok (zip_with op (stretch n a) (stretch n b))
  | None => Raise (BroadcastError [length a] [length b])
  end.

Definition broadcast2 (op : float -> float -> float) (A B : matrix) : result matrix :=
  match bdim (nrows A) (nrows B), bdim (ncols A) (ncols B) with
  | Some r, Some c =>
      Ok (Mat c (zip_with (fun u v => zip_with op (stretch c u) (stretch c v))
                          (stretch r (rows A)) (stretch r (rows B))))
  | _, _ => Raise (BroadcastError (shape A) (shape B))
  end.

Definition map_matrix (f : float -> float) (M : matrix) : matrix :=
  Mat (ncols M) (map (map f) (rows M)).

(** A rank-1 tensor of length [O] met by a rank-2 one broadcasts as [(1, O)]. *)
Definition as_row (v : vec) : matrix := Mat (length v) [v].

(** [np.reshape(v, (1, n))] *)
Definition reshape_row (v : vec) (n : nat) : result matrix :=
  if length v =? n then Ok (Mat n [v])
  else Raise (ReshapeError (length v) [1; n]).

(** [tf.concat([A, B], axis=0)] *)
Definition concat0 (A B : matrix) : result matrix :=
  if ncols A =? ncols B then Ok (Mat (ncols A) (rows A ++ rows B))
  else Raise (ConcatError (shape A) (shape B)).

(** [tf.cast] of a dimension (an integer) to [float64]. *)
Definition of_nat (n : nat) : float := of_uint63 (Uint63.of_Z (Z.of_nat n)).

(** ** [Sampler.__init__]: the total variance *)

(** An uncertainty is a Python float or a NumPy vector. *)
Inductive uncertainty :=
| Scalar (u : float)
| Vector (u : vec).

(** [obs.data * unc] *)
Definition np_multiply (obs : vec) (unc : uncertainty) : result vec :=
  match unc with
  | Scalar u => Ok (map (fun o => o * u)%float obs)
  | Vector u => broadcast1 PrimFloat.mul obs u
  end.

Definition np_square (v : vec) : vec := map (fun x => x * x)%float v.

(** [np.reshape(np.square(obs.data * unc), (1, obs.shape[0]))] *)
Definition source_var (obs : vec) (unc : uncertainty) : result matrix :=
  p <- np_multiply obs unc ;;
  reshape_row (np_square p) (length obs).

(** Python's [sum] of a list of arrays: it starts from the integer 0. *)
Definition py_sum (l : list matrix) : result matrix :=
  match l with
  | [] => Ok (Mat 0 [])
  | M :: l' => foldM (broadcast2 PrimFloat.add) l' (map_matrix (fun x => 0 + x)%float M)
  end.

Definition total_var (obs : vec)
    (obs_uncertainty interann_uncertainty repres_uncertainty struct_uncertainty : uncertainty)
  : result matrix :=
  observational_var <- source_var obs obs_uncertainty ;;
  respres_var <- source_var obs repres_uncertainty ;;
  interann_var <- source_var obs interann_uncertainty ;;
  struct_var <- source_var obs struct_uncertainty ;;
  py_sum [observational_var; respres_var; interann_var; struct_var].

(** ** [constrain] and [_calc_implausibility] *)

(** [tf.greater] *)
Definition greater (x y : float) : bool := (y <? x)%float.

(** [tf.cast] of a boolean to the tensor's float type. *)
Definition cast_bool (b : bool) : float := if b then 1%float else 0%float.

(** [tf.reduce_sum] along a row.  The summands met below are 0 and 1, whose
    partial sums are exact, so the order of the additions plays no part. *)
Definition reduce_sum (v : vec) : float := fold_left PrimFloat.add v 0%float.

Definition constrain (implausibility : matrix) (tolerance threshold : float) : list bool :=
  map (fun row =>
         (reduce_sum (map (fun x => cast_bool (greater x threshold)) row)
          <=? tolerance * of_nat (ncols implausibility))%float)
      (rows implausibility).

Definition _calc_implausibility (emulator_mean : matrix) (obs : vec) (tot_sd : matrix)
  : result matrix :=
  d <- broadcast2 PrimFloat.sub emulator_mean (as_row obs) ;;
  broadcast2 PrimFloat.div (map_matrix abs d) tot_sd.

(** ** The emulator *)

(** What the sampler reads from its [model]: the number of free parameters
    and the prediction of a batch, a pair (mean, variance) of [N x O]
    tensors for [N x P] sample points. *)
Record Model := {
  n_params : nat;
  _tf_predict : matrix -> matrix * matrix
}.

(** [tf.sqrt(tf.add(emulator_var, total_variance))] followed by
    [_calc_implausibility]: the body shared by the batch loops and by
    [is_valid_sample]. *)
Definition batch_implausibility (model : Model) (obs : vec) (data total_variance : matrix)
  : result matrix :=
  let (emulator_mean, emulator_var) := _tf_predict model data in
  s <- broadcast2 PrimFloat.add emulator_var total_variance ;;
  let tot_sd := map_matrix PrimFloat.sqrt s in
  _calc_implausibility emulator_mean obs tot_sd.

(** ** Batch evaluation *)

(** [Dataset.from_tensor_slices(sample_points).batch(batch_size)]: the rows
    are streamed into consecutive batches of [b] rows, the last one being
    shorter when [b] does not divide their number.  [cur] holds the rows of
    the batch being filled, last first, and [k] is their number. *)
Fixpoint batch_from (b : nat) (cur : list vec) (k : nat) (l : list vec) : list (list vec) :=
  match l with
  | [] => match cur with [] => [] | _ => [rev cur] end
  | x :: l' =>
      if S k =? b then rev (x :: cur) :: batch_from b [] 0 l'
      else batch_from b (x :: cur) (S k) l'
  end.

Definition batch (batch_size : nat) (sample_points : matrix) : result (list matrix) :=
  match batch_size with
  | 0 => Raise (InvalidArgument 0)
  | _ => Ok (map (Mat (ncols sample_points)) (batch_from batch_size [] 0 (rows sample_points)))
  end.

(** Modelled from the spec: the progress bar [tf_tqdm] of GCEm.utils, which
    is not among the sources, observes the batches it yields without
    altering them. *)
Definition pbar (dataset : list matrix) : list matrix := dataset.

Definition _tf_constrain (model : Model) (obs : vec) (sample_points total_variance : matrix)
    (tolerance threshold : float) (batch_size : nat) : result (list bool) :=
  dataset <- batch batch_size sample_points ;;
  foldM (fun all_valid data =>
           implausibility <- batch_implausibility model obs data total_variance ;;
           let valid_samples := constrain implausibility tolerance threshold in
           Ok (all_valid ++ valid_samples))
        (pbar dataset) [].

Definition _tf_implausibility (model : Model) (obs : vec) (sample_points total_variance : matrix)
    (batch_size : nat) : result matrix :=
  dataset <- batch batch_size sample_points ;;
  foldM (fun all_implausibility data =>
           implausibility <- batch_implausibility model obs data total_variance ;;
           concat0 all_implausibility implausibility)
        (pbar dataset) (Mat (length obs) []).

(** ** Rejection sampling *)

(** The prior: [tfd.Uniform(low, high)] or a distribution of the caller. *)
Inductive distribution :=
| Uniform (low high : vec)
| Custom (name : nat).

(** [ABCSampler.sample] falls back on the unit hypercube. *)
Definition default_prior (model : Model) : distribution :=
  Uniform (repeat 0%float (n_params model)) (repeat 1%float (n_params model)).

(** Where a draw of the distribution may fall. *)
Definition in_support (d : distribution) (x : vec) : Prop :=
  match d with
  | Uniform low high =>
      length x = length low /\
      forall i, (i < length low)%nat ->
        (nth i low 0 <=? nth i x 0)%float = true /\ (nth i x 0 <? nth i high 0)%float = true
  | Custom _ => True
  end.

(** The outcome of a sampling loop: a value together with the number of
    draws consumed so far, an error, or no more fuel. *)
Inductive run (A : Type) :=
| Return (a : A) (next : nat)
| Raised (e : error)
| OutOfFuel.
Arguments Return {A} a next.
Arguments Raised {A} e.
Arguments OutOfFuel {A}.

Section Sampling.

Variable model : Model.
Variable obs : vec.
(** The successive results of [dist.sample()]. *)
Variable draws : nat -> vec.
Variables threshold tolerance : float.
Variable total_variance : matrix.

Definition is_valid_sample (sample : vec) : result bool :=
  implausibility <- batch_implausibility model obs (as_row sample) total_variance ;;
  match constrain implausibility tolerance threshold with
  | valid :: _ => Ok valid
  | [] => Raise (IndexError 0 0)
  end.

(** [tf.while_loop] around [dist.sample()]: [next] is the index of the
    draw under test, and each iteration of the loop takes one unit of fuel. *)
Fixpoint get_valid_sample (fuel next : nat) : run matrix :=
  match is_valid_sample (draws next) with
  | Raise e => Raised e
  | Ok true => Return (as_row (draws next)) (S next)
  | Ok false =>
      match fuel with
      | 0 => OutOfFuel
      | S fuel' => get_valid_sample fuel' (S next)
      end
  end.

(** The outer [tf.while_loop]: [n] more slots to fill, [m] the samples
    gathered so far. *)
Fixpoint sample_loop (fuel n : nat) (m : matrix) (next : nat) : run matrix :=
  match n with
  | 0 => Return m next
  | S n' =>
      match get_valid_sample fuel next with
      | Return v next' =>
          match concat0 m v with
          | Ok m' => sample_loop fuel n' m' next'
          | Raise e => Raised e
          end
      | Raised e => Raised e
      | OutOfFuel => OutOfFuel
      end
  end.

Definition _tf_sample (fuel : nat) (n_sample_points : nat) (next : nat) : run matrix :=
  let samples := Mat 2 [] in
  sample_loop fuel n_sample_points samples next.

End Sampling.

(** The prior that [ABCSampler.sample] hands to [_tf_sample]. *)
Definition prior_in_use (model : Model) (prior_x : option distribution) : distribution :=
  match prior_x with
  | None => default_prior model
  | Some d => d
  end.

(** [ABCSampler.sample].  The random generator [rng] gives, for each
    distribution, the stream of the results of its [sample()]. *)
Definition sample (model : Model) (obs : vec) (total_variance : matrix)
    (rng : distribution -> nat -> vec) (prior_x : option distribution)
    (n_samples : nat) (tolerance threshold : float) (fuel : nat) : run matrix :=
  let prior_x := prior_in_use model prior_x in
  _tf_sample model obs (rng prior_x) threshold tolerance total_variance fuel n_samples 0.

(** * Vocabulary of the statements

    Binary64 values are read through their specification [SpecFloat]: a
    float is a signed integer multiple of [2^-1074], and rounding is a
    function on these integers. *)

Module B64.

Local Open Scope Z_scope.

(** [X / 2^T] rounded to the nearest integer, ties to even. *)
Definition RN (X T : Z) : Z :=
  let q := X / 2 ^ T in
  let r := X mod 2 ^ T in
  if (2 ^ T <? 2 * r) || ((2 ^ T =? 2 * r) && Z.odd q) then q + 1 else q.

(** The number of low bits that rounding to 53 bits drops from [X], with
    at least [s] of them dropped. *)
Definition Tshift (s X : Z) : Z := Z.max (Z.log2 X + 1 - 53) s.

(** [X] rounded to 53 significant bits, in units of [2^s]. *)
Definition G (s X : Z) : Z := RN X (Tshift s X) * 2 ^ (Tshift s X - s).

(** After [k] steps on [m]: quotient, round bit and sticky bit. *)
Definition shr_inv (m k : Z) (mrs : shr_record) : Prop :=
  0 <= shr_m mrs /\
  exists w, 0 <= w < 2 ^ k /\ shr_s mrs = negb (w =? 0) /\
    2 * m = shr_m mrs * 2 ^ (k + 1) + (if shr_r mrs then 2 ^ k else 0) + w.

(** The magnitude given to the infinities, just above the largest finite
    value. *)
Definition INF : Z := 2 ^ 2098.

(** The magnitude of a value, in units of [2^-1074]. *)
Definition K (x : spec_float) : Z :=
  match x with
  | S754_finite _ m e => Zpos m * 2 ^ (e + 1074)
  | S754_infinity _ => INF
  | _ => 0
  end.

(** Neither NaN nor a value with the sign bit set. *)
Definition sign_false (x : spec_float) : Prop :=
  match x with
  | S754_zero s | S754_infinity s | S754_finite s _ _ => s = false
  | S754_nan => False
  end.

(** The last step of [binary_round_aux]: zero, a finite value or overflow. *)
Definition finish (sx : bool) (m2 e2 : Z) : spec_float :=
  match m2 with
  | Z0 => S754_zero sx
  | Zpos p => if e2 <=? 971 then S754_finite sx p e2 else S754_infinity sx
  | Zneg _ => S754_nan
  end.

Definition sign_of (x : spec_float) : bool :=
  match x with
  | S754_zero s | S754_infinity s | S754_finite s _ _ => s
  | S754_nan => false
  end.

(** The signed magnitude: its order is the order of the non-NaN values. *)
Definition Ks (x : spec_float) : Z := if sign_of x then - K x else K x.

Definition is_nan_sf (x : spec_float) : bool :=
  match x with S754_nan => true | _ => false end.

Definition SF (x : float) : spec_float := Prim2SF x.

(** NaN, or a value with the sign bit clear. *)
Definition not_neg (x : spec_float) : Prop := is_nan_sf x = true \/ sign_false x.

End B64.

(** ** The constraint rule *)

(** The number of entries of a row that exceed the threshold. *)
Definition count_over (threshold : float) (row : vec) : nat :=
  length (filter (fun x => greater x threshold) row).

(** Rows as wide as the tensor says, and no wider than the integers a
    [float64] counts exactly. *)
Definition countable (M : matrix) : Prop :=
  well_shaped M /\ (Z.of_nat (ncols M) <= 2 ^ 53)%Z.

(** The implausibility matrix of [test_constrain]. *)
Definition test_implausibility : matrix :=
  Mat 5 [[0; 0; 0; 0; 0]; [0; 1; 1; 1; 0]; [0; 0; 1; 0; 0]]%float.

(** ** Implausibility and total variance *)

(** The entry in row [i] and column [j]. *)
Definition entry (M : matrix) (i j : nat) : option float :=
  match nth_error (rows M) i with
  | Some r => nth_error r j
  | None => None
  end.

(** The shapes the contract of the implausibility asks for: [N x O], [O]
    and [N x O]. *)
Definition matching_shapes (emulator_mean : matrix) (obs : vec) (tot_sd : matrix) : Prop :=
  well_shaped emulator_mean /\ well_shaped tot_sd /\
  ncols emulator_mean = length obs /\ ncols tot_sd = length obs /\
  nrows tot_sd = nrows emulator_mean.


(** A scalar, or a vector with one entry per observation. *)
Definition per_observation (O : nat) (unc : uncertainty) : Prop :=
  match unc with
  | Scalar _ => True
  | Vector u => length u = O
  end.

(** An uncertainty that is zero for every observation. *)
Definition zero_uncertainty (unc : uncertainty) : Prop :=
  match unc with
  | Scalar u => (u =? 0)%float = true
  | Vector u => Forall (fun x => (x =? 0)%float = true) u
  end.

Definition square (x : float) : float := (x * x)%float.

(** The variance of one source, observation by observation. *)
Definition variance (obs : vec) (unc : uncertainty) : vec :=
  match unc with
  | Scalar u => map (fun o => square (o * u)) obs
  | Vector u => zip_with (fun o x => square (o * x)) obs u
  end.

(** The uncertainties that NumPy accepts for [O] observations: a scalar, a
    vector of length [O], or a vector of length 1, which is broadcast. *)
Definition broadcastable (O : nat) (unc : uncertainty) : Prop :=
  match unc with
  | Scalar _ => True
  | Vector u => length u = O \/ length u = 1
  end.

(** A vector of length 1 read as the scalar it holds. *)
Definition as_scalar (unc : uncertainty) : uncertainty :=
  match unc with
  | Vector [x] => Scalar x
  | _ => unc
  end.

(** ** Batches and samples *)

(** Modelled from the spec: the emulator behind [model._tf_predict]
    (GCEm.gp_model, which is not among the sources) predicts a mean and a
    variance for any parameter vector; for a batch this is a prediction made
    row by row, [O'] outputs per sample. *)
Definition rowwise (model : Model) (O' : nat) (mean var : vec -> vec) : Prop :=
  forall data,
    _tf_predict model data = (Mat O' (map mean (rows data)), Mat O' (map var (rows data))).

(** The implausibility of one sample under a row-wise model, for the
    broadcast widths [c1] (variances), [c2] (differences) and [c3] (ratio). *)
Definition row_implausibility (mean var : vec -> vec) (obs w : vec) (c1 c2 c3 : nat)
    (x : vec) : vec :=
  zip_with PrimFloat.div
    (stretch c3 (map abs (zip_with PrimFloat.sub (stretch c2 (mean x)) (stretch c2 obs))))
    (stretch c3 (map PrimFloat.sqrt
                   (zip_with PrimFloat.add (stretch c1 (var x)) (stretch c1 w)))).

(** The widths along the pipeline, when the columns broadcast. *)
Definition widths (O' Ct O : nat) : option (nat * nat * nat) :=
  match bdim O' Ct with
  | Some c1 =>
      match bdim O' O with
      | Some c2 =>
          match bdim c2 c1 with
          | Some c3 => Some (c1, c2, c3)
          | None => None
          end
      | None => None
      end
  | None => None
  end.

(** Two evaluations agree when they return the same value or both raise. *)
Definition same_outcome {A} (r1 r2 : result A) : Prop :=
  match r1, r2 with
  | Ok a, Ok b => a = b
  | Raise _, Raise _ => True
  | _, _ => False
  end.

(** The emulator of the examples: two parameters, the mean is the sample
    itself and the variance is zero. *)
Definition identity_model : Model :=
  {| n_params := 2;
     _tf_predict := fun data =>
       (Mat 2 (map (fun x => x) (rows data)),
        Mat 2 (map (fun _ => [0; 0]%float) (rows data))) |}.

(** Sample points for the examples. *)
Definition example_points : matrix :=
  Mat 2 [[0.5; 0.5]; [4; 0.5]; [1; 1]; [0; 0]; [0.5; 9]]%float.

(** A stream of draws for the examples: two rejected draws, then an
    accepted one, again and again. *)
Definition example_draws (k : nat) : vec :=
  nth (k mod 3) [[4; 0.5]; [0.5; 9]; [1; 1]]%float [].

(** An emulator with three parameters and one output. *)
Definition three_param_model : Model :=
  {| n_params := 3;
     _tf_predict := fun data =>
       (Mat 1 (map (fun _ => [0]%float) (rows data)),
        Mat 1 (map (fun _ => [1]%float) (rows data))) |}.

(** A generator that draws the lower corner of a uniform distribution. *)
Definition corner_rng (d : distribution) (k : nat) : vec :=
  match d with
  | Uniform low _ => low
  | Custom _ => []
  end.

(** ** Signs *)

(** NaN, or a value with the sign bit clear: not a negative number, not
    [-0] and not [-infinity]. *)
Definition not_negative (x : float) : Prop :=
  match classify x with
  | NInf | NNormal | NSubn | NZero => False
  | _ => True
  end.

(** A property of every entry of a tensor. *)
Definition all_entries (P : float -> Prop) (M : matrix) : Prop :=
  Forall (Forall P) (rows M).

(** The uncertainty without its signs. *)
Definition abs_uncertainty (unc : uncertainty) : uncertainty :=
  match unc with
  | Scalar u => Scalar (abs u)
  | Vector u => Vector (map abs u)
  end.

(** ** The sampler object *)

Module Sampler.

(** What [Sampler.__init__] stores on [self]. *)
Record t := { model : Model; obs : vec; total_var : matrix }.

End Sampler.

(** [Sampler.__init__] *)
Definition __init__ (model : Model) (obs : vec)
    (obs_uncertainty interann_uncertainty repres_uncertainty struct_uncertainty : uncertainty)
  : result Sampler.t :=
  total_var <- total_var obs obs_uncertainty interann_uncertainty repres_uncertainty
                         struct_uncertainty ;;
  Ok {| Sampler.model := model; Sampler.obs := obs; Sampler.total_var := total_var |}.

(** Modelled from the spec: the hook [model._post_process] of GCEm.model,
    which is not among the sources, attaches labels to the implausibility
    and leaves its values as they are. *)
Definition _post_process (implausibility : matrix) : matrix := implausibility.

Module ABCSampler.

(** [ABCSampler.batch_constrain] *)
Definition batch_constrain (self : Sampler.t) (sample_points : matrix)
    (tolerance threshold : float) (batch_size : nat) : result (list bool) :=
  let valid_samples :=
    _tf_constrain (Sampler.model self) (Sampler.obs self) sample_points
                  (Sampler.total_var self) tolerance threshold batch_size in
  valid_samples.

(** [ABCSampler.get_implausibility] *)
Definition get_implausibility (self : Sampler.t) (sample_points : matrix)
    (batch_size : nat) : result matrix :=
  implausibility <- _tf_implausibility (Sampler.model self) (Sampler.obs self) sample_points
                                       (Sampler.total_var self) batch_size ;;
  Ok (_post_process implausibility).

End ABCSampler.

(** The sampler of the examples: both observations are 0.5 and the
    observational uncertainty is 200 percent, a total variance of 1. *)
Definition example_sampler : Sampler.t :=
  {| Sampler.model := identity_model;
     Sampler.obs := [0.5; 0.5]%float;
     Sampler.total_var := Mat 2 [[1; 1]%float] |}.

(** ** Draws *)

(** The draws that [is_valid_sample] accepts. *)
Definition accepted (model : Model) (obs : vec) (threshold tolerance : float)
    (total_variance : matrix) (x : vec) : bool :=
  match is_valid_sample model obs threshold tolerance total_variance x with
  | Ok true => true
  | _ => false
  end.

(** The draws that the sampling loops consume from position [next] up to
    position [next']. *)
Definition consumed (draws : nat -> vec) (next next' : nat) : list vec :=
  map draws (seq next (next' - next)).

(** A generator whose every draw is the centre of the unit square. *)
Definition centre_rng (d : distribution) (k : nat) : vec := [0.5; 0.5]%float.


(** * Binary64 arithmetic

    The facts about IEEE 754 addition, multiplication and comparison that
    the sampler relies on, derived from the specification of the primitive
    floats: rounding to nearest is monotone, small integers are exact, and
    the comparisons are those of the signed magnitudes. *)

Module B64_facts.

Import B64.

Local Open Scope Z_scope.

Lemma RN_bounds X T : 0 <= T -> X / 2 ^ T <= RN X T <= X / 2 ^ T + 1.
Proof.
  intros HT. unfold RN. destruct (_ || _); lia.
Qed.

Lemma RN_mono X Y T : 0 <= T -> X <= Y -> RN X T <= RN Y T.
Proof.
  intros HT HXY.
  assert (Hp : 0 < 2 ^ T) by (apply Z.pow_pos_nonneg; lia).
  assert (Hq : X / 2 ^ T <= Y / 2 ^ T) by (apply Z.div_le_mono; lia).
  destruct (Z.eq_dec (X / 2 ^ T) (Y / 2 ^ T)) as [E|NE].
  - pose proof (Z.div_mod X (2 ^ T) ltac:(lia)) as HX.
    pose proof (Z.div_mod Y (2 ^ T) ltac:(lia)) as HY.
    assert (Hr : X mod 2 ^ T <= Y mod 2 ^ T) by (rewrite E in HX; lia).
    unfold RN. rewrite E.
    destruct (Z.odd (Y / 2 ^ T));
      repeat match goal with
             | |- context [?a <? ?b] => destruct (Z.ltb_spec a b)
             | |- context [?a =? ?b] => destruct (Z.eqb_spec a b)
             end; simpl; lia.
  - pose proof (RN_bounds X T HT). pose proof (RN_bounds Y T HT). lia.
Qed.

Lemma RN_exact c T : 0 <= T -> RN (c * 2 ^ T) T = c.
Proof.
  intros HT.
  assert (Hp : 0 < 2 ^ T) by (apply Z.pow_pos_nonneg; lia).
  unfold RN. rewrite Z.div_mul by lia. rewrite Z.mod_mul by lia.
  destruct (Z.ltb_spec (2 ^ T) (2 * 0)); [lia|].
  destruct (Z.eqb_spec (2 ^ T) (2 * 0)); [lia|]. reflexivity.
Qed.

Lemma RN_le_bound X T c : 0 <= T -> X <= c * 2 ^ T -> RN X T <= c.
Proof.
  intros HT HX. rewrite <- (RN_exact c T HT). now apply RN_mono.
Qed.

Lemma Tshift_mono s X Y : 0 < X -> X <= Y -> Tshift s X <= Tshift s Y.
Proof.
  intros. unfold Tshift. pose proof (Z.log2_le_mono X Y ltac:(lia)). lia.
Qed.

Lemma G_mono s X Y : 0 <= s -> 0 < X -> X <= Y -> G s X <= G s Y.
Proof.
  intros Hs HX HXY. unfold G.
  pose proof (Tshift_mono s X Y HX HXY) as HT.
  assert (HsX : s <= Tshift s X) by (unfold Tshift; lia).
  destruct (Z.eq_dec (Tshift s X) (Tshift s Y)) as [E|NE].
  - rewrite E. apply Z.mul_le_mono_nonneg_r.
    + apply Z.pow_nonneg; lia.
    + apply RN_mono; lia.
  - set (TX := Tshift s X) in *. set (TY := Tshift s Y) in *.
    assert (HTY : TY = Z.log2 Y + 1 - 53) by (unfold TY, Tshift in *; lia).
    assert (HTX : Z.log2 X + 1 - 53 <= TX) by (unfold TX, Tshift; lia).
    destruct (Z.log2_spec X HX) as [_ HX2].
    destruct (Z.log2_spec Y ltac:(lia)) as [HY1 _].
    (* upper bound for X *)
    assert (HXB : X <= 2 ^ (TY + 52 - TX) * 2 ^ TX).
    { rewrite <- Z.pow_add_r by lia. replace (TY + 52 - TX + TX) with (TY + 52) by lia.
      assert (2 ^ Z.succ (Z.log2 X) <= 2 ^ (TY + 52)) by (apply Z.pow_le_mono_r; lia). lia. }
    assert (H1 : RN X TX <= 2 ^ (TY + 52 - TX)) by (apply RN_le_bound; lia).
    assert (HYB : 2 ^ 52 * 2 ^ TY <= Y).
    { rewrite <- Z.pow_add_r by lia. replace (52 + TY) with (Z.log2 Y) by lia. lia. }
    assert (H2 : 2 ^ 52 <= RN Y TY).
    { rewrite <- (RN_exact (2 ^ 52) TY) by lia. apply RN_mono; lia. }
    apply Z.le_trans with (2 ^ (TY + 52 - TX) * 2 ^ (TX - s)).
    + apply Z.mul_le_mono_nonneg_r; [apply Z.pow_nonneg; lia | lia].
    + rewrite <- Z.pow_add_r by lia.
      replace (TY + 52 - TX + (TX - s)) with (52 + (TY - s)) by lia.
      rewrite Z.pow_add_r by lia.
      apply Z.mul_le_mono_nonneg_r; [apply Z.pow_nonneg; lia | lia].
Qed.

(** ** Shifting right with round and sticky bits *)

Lemma digits2_size m : digits2_pos m = Pos.size m.
Proof. induction m; simpl; congruence. Qed.

Lemma digits2_log2 m : Zpos (digits2_pos m) = Z.log2 (Zpos m) + 1.
Proof.
  rewrite digits2_size. destruct m; simpl; lia.
Qed.

Lemma iter_pos_add {A} (f : A -> A) (P : Z -> A -> Prop) :
  (forall k x, 0 <= k -> P k x -> P (k + 1) (f x)) ->
  forall p k x, 0 <= k -> P k x -> P (k + Zpos p) (iter_pos f p x).
Proof.
  intros Hf. induction p as [p IH|p IH|]; intros k x Hk HP; simpl.
  - replace (k + Zpos p~1) with (k + 1 + Zpos p + Zpos p) by lia.
    apply IH; [lia|]. apply IH; [lia|]. now apply Hf.
  - replace (k + Zpos p~0) with (k + Zpos p + Zpos p) by lia.
    apply IH; [lia|]. now apply IH.
  - now apply Hf.
Qed.

Lemma shr_1_arith q r s :
  0 <= q -> shr_1 (Build_shr_record q r s) = Build_shr_record (Z.div2 q) (Z.odd q) (r || s).
Proof.
  intros Hq. destruct q as [|[q|q|]|q]; try reflexivity; lia.
Qed.

Lemma shr_inv_0 m : 0 <= m -> shr_inv m 0 (Build_shr_record m false false).
Proof.
  intros Hm. split; [exact Hm|]. exists 0. cbn [shr_m shr_r shr_s].
  change (2 ^ (0 + 1)) with 2. change (2 ^ 0) with 1. repeat split; try reflexivity; lia.
Qed.

Lemma shr_inv_step m k mrs : 0 <= k -> shr_inv m k mrs -> shr_inv m (k + 1) (shr_1 mrs).
Proof.
  intros Hk [Hm (w & Hw & Hs & Heq)].
  assert (Hp : 0 < 2 ^ k) by (apply Z.pow_pos_nonneg; lia).
  assert (E1 : 2 ^ (k + 1) = 2 * 2 ^ k) by (rewrite Z.pow_add_r by lia; lia).
  assert (E2 : 2 ^ (k + 1 + 1) = 4 * 2 ^ k) by (rewrite !Z.pow_add_r by lia; lia).
  destruct mrs as [q r s]. cbn [shr_m shr_r shr_s] in *.
  rewrite shr_1_arith by assumption. cbn [shr_m shr_r shr_s].
  pose proof (Z.div2_odd q) as Hq.
  assert (0 <= Z.div2 q) by (apply Z.div2_nonneg; lia).
  split; [assumption|].
  exists ((if r then 2 ^ k else 0) + w).
  cbn [shr_m shr_r shr_s]. rewrite E1, E2. subst s.
  assert (Hb : q = 2 * Z.div2 q + (if Z.odd q then 1 else 0)) by exact Hq.
  clear Hq.
  split; [destruct r; lia|].
  split.
  - destruct r; cbn [orb]; [|rewrite Z.add_0_l];
      repeat match goal with |- context [?a =? 0] => destruct (Z.eqb_spec a 0) end;
      cbn [negb]; try reflexivity; lia.
  - rewrite E1 in Heq. set (h := Z.div2 q) in *. destruct (Z.odd q); nia.
Qed.

Lemma shr_inv_iter m p mrs k :
  0 <= k -> shr_inv m k mrs -> shr_inv m (k + Zpos p) (iter_pos shr_1 p mrs).
Proof.
  intros. apply (iter_pos_add shr_1 (shr_inv m)); auto using shr_inv_step.
Qed.

Lemma shr_inv_RN m k mrs :
  0 <= k -> shr_inv m k mrs ->
  round_nearest_even (shr_m mrs) (loc_of_shr_record mrs) = RN m k.
Proof.
  intros Hk [Hm (w & Hw & Hs & Heq)].
  assert (Hp : 0 < 2 ^ k) by (apply Z.pow_pos_nonneg; lia).
  assert (E1 : 2 ^ (k + 1) = 2 * 2 ^ k) by (rewrite Z.pow_add_r by lia; lia).
  destruct mrs as [q r s]. cbn [shr_m shr_r shr_s loc_of_shr_record] in *. rewrite E1 in Heq.
  set (c := (if r then 2 ^ k else 0) + w) in *.
  assert (Hc : 0 <= c < 2 * 2 ^ k) by (unfold c; destruct r; lia).
  assert (Hdiv : m / 2 ^ k = q /\ 2 * (m mod 2 ^ k) = c).
  { assert (Hm2 : m = q * 2 ^ k + (m - q * 2 ^ k)) by lia.
    assert (0 <= m - q * 2 ^ k < 2 ^ k) by lia.
    rewrite (Z.div_unique m (2 ^ k) q (m - q * 2 ^ k)) at 1 by lia.
    split; [reflexivity|].
    rewrite <- (Z.mod_unique m (2 ^ k) q (m - q * 2 ^ k)) by lia. lia. }
  destruct Hdiv as [Hd Hr]. unfold RN. rewrite Hd, Hr. subst s. unfold c.
  rewrite <- Z.negb_even.
  destruct r; destruct (Z.eqb_spec w 0); simpl;
    repeat match goal with
           | |- context [?a <? ?b] => destruct (Z.ltb_spec a b)
           | |- context [?a =? ?b] => destruct (Z.eqb_spec a b)
           end; simpl; try lia; destruct (Z.even q); simpl; lia.
Qed.

(** ** The magnitude of a binary64 value, in units of 2^-1074 *)

Lemma fexp_eq x : fexp prec emax x = Z.max (x - 53) (-1074).
Proof. reflexivity. Qed.

Lemma INF_eq : INF = 2 ^ 53 * 2 ^ 2045.
Proof. unfold INF. rewrite <- Z.pow_add_r by lia. reflexivity. Qed.

Lemma RN_scale m T a : 0 <= T -> 0 <= a -> RN (m * 2 ^ a) (T + a) = RN m T.
Proof.
  intros HT Ha.
  assert (Hp : 0 < 2 ^ T) by (apply Z.pow_pos_nonneg; lia).
  assert (Hq : 0 < 2 ^ a) by (apply Z.pow_pos_nonneg; lia).
  unfold RN. rewrite Z.pow_add_r by lia.
  rewrite Z.div_mul_cancel_r by lia.
  rewrite Z.mul_mod_distr_r by lia.
  set (r := m mod 2 ^ T). set (q := m / 2 ^ T).
  replace (2 ^ T * 2 ^ a <? 2 * (r * 2 ^ a)) with (2 ^ T <? 2 * r).
  2:{ destruct (Z.ltb_spec (2 ^ T) (2 * r)); destruct (Z.ltb_spec (2 ^ T * 2 ^ a) (2 * (r * 2 ^ a))); try reflexivity; nia. }
  replace (2 ^ T * 2 ^ a =? 2 * (r * 2 ^ a)) with (2 ^ T =? 2 * r).
  2:{ destruct (Z.eqb_spec (2 ^ T) (2 * r)); destruct (Z.eqb_spec (2 ^ T * 2 ^ a) (2 * (r * 2 ^ a))); try reflexivity; nia. }
  reflexivity.
Qed.

Lemma shr_spec m e n :
  0 <= m -> 0 <= n ->
  exists mrs, shr (Build_shr_record m false false) e n = (mrs, e + n) /\ shr_inv m n mrs.
Proof.
  intros Hm Hn. destruct n as [|p|p]; [| |lia].
  - exists (Build_shr_record m false false). split.
    + simpl. f_equal. lia.
    + now apply shr_inv_0.
  - exists (iter_pos shr_1 p (Build_shr_record m false false)). split.
    + reflexivity.
    + apply (shr_inv_iter m p _ 0); [lia|]. now apply shr_inv_0.
Qed.

Lemma Zdigits2_log2 m : 0 < m -> Zdigits2 m = Z.log2 m + 1.
Proof.
  destruct m as [|p|p]; try lia. intros _. simpl. apply digits2_log2.
Qed.

Lemma pow2_le a b : 0 <= a <= b -> 2 ^ a <= 2 ^ b.
Proof. intros. apply Z.pow_le_mono_r; lia. Qed.

Lemma log2_lt_pow2' m k : 0 < m -> m < 2 ^ k -> Z.log2 m + 1 <= k.
Proof.
  intros Hm Hk.
  destruct (Z.le_gt_cases 0 k) as [Hk0|Hk0].
  - apply Z.log2_lt_pow2 in Hk; lia.
  - rewrite Z.pow_neg_r in Hk by lia. lia.
Qed.

(** The second shift of [binary_round_aux]: it acts only when rounding
    carried into a 54th bit. *)
Lemma second_shift m1 t :
  -1074 <= t -> 0 <= m1 <= 2 ^ 53 ->
  shr_fexp prec emax m1 t loc_Exact =
    if m1 =? 2 ^ 53 then (Build_shr_record (2 ^ 52) false false, t + 1)
    else (Build_shr_record m1 false false, t).
Proof.
  intros Ht Hm1. unfold shr_fexp. rewrite fexp_eq. cbn [shr_record_of_loc].
  destruct (Z.eqb_spec m1 (2 ^ 53)) as [E|NE].
  - subst m1. change (Zdigits2 (2 ^ 53)) with 54.
    replace (Z.max (54 + t - 53) (-1074) - t) with 1 by lia. reflexivity.
  - destruct (Z.eq_dec m1 0) as [E0|NE0].
    + subst m1. change (Zdigits2 0) with 0.
      destruct (Z.max (0 + t - 53) (-1074) - t) eqn:En; try reflexivity. lia.
    + rewrite Zdigits2_log2 by lia.
      pose proof (log2_lt_pow2' m1 53 ltac:(lia) ltac:(lia)).
      destruct (Z.max (Z.log2 m1 + 1 + t - 53) (-1074) - t) eqn:En; try reflexivity. lia.
Qed.

Lemma RN_nonneg m n : 0 <= m -> 0 <= n -> 0 <= RN m n.
Proof.
  intros. pose proof (RN_bounds m n ltac:(lia)).
  assert (0 <= m / 2 ^ n) by (apply Z.div_pos; [lia | apply Z.pow_pos_nonneg; lia]). lia.
Qed.

Lemma mantissa_bounds m e :
  let t := fexp prec emax (Zpos (digits2_pos m) + e) in
  e <= t ->
  RN (Zpos m) (t - e) <= 2 ^ 53 /\ (-1074 < t -> 2 ^ 52 <= RN (Zpos m) (t - e)).
Proof.
  intros t Het. unfold t in *. rewrite fexp_eq, digits2_log2 in *.
  destruct (Z.log2_spec (Zpos m) ltac:(lia)) as [Hlo Hhi].
  remember (Z.log2 (Zpos m)) as l eqn:Hl.
  remember (Z.max (l + 1 + e - 53) (-1074) - e) as n eqn:Hn'.
  assert (Hn : 0 <= n) by lia.
  assert (Hl0 : 0 <= l) by (subst l; apply Z.log2_nonneg).
  split.
  - apply RN_le_bound; [lia|].
    rewrite <- Z.pow_add_r by lia.
    assert (2 ^ Z.succ l <= 2 ^ (53 + n)) by (apply pow2_le; lia). lia.
  - intros Ht. rewrite <- (RN_exact (2 ^ 52) n) by lia.
    apply RN_mono; [lia|].
    rewrite <- Z.pow_add_r by lia.
    replace (52 + n) with l by lia. lia.
Qed.

Lemma bra_spec sx m e :
  let t := fexp prec emax (Zpos (digits2_pos m) + e) in
  e <= t ->
  binary_round_aux prec emax sx (Zpos m) e loc_Exact =
    let m1 := RN (Zpos m) (t - e) in
    if m1 =? 2 ^ 53 then finish sx (2 ^ 52) (t + 1) else finish sx m1 t.
Proof.
  intros t Het.
  pose proof (mantissa_bounds m e Het) as [Hub _]. fold t in Hub.
  assert (Ht : -1074 <= t) by (unfold t; rewrite fexp_eq; lia).
  unfold binary_round_aux, shr_fexp at 1. cbn [shr_record_of_loc Zdigits2]. fold t.
  destruct (shr_spec (Zpos m) e (t - e) ltac:(lia) ltac:(lia)) as (mrs & Hshr & Hinv).
  rewrite Hshr. replace (e + (t - e)) with t by lia.
  rewrite (shr_inv_RN (Zpos m) (t - e) mrs ltac:(lia) Hinv).
  pose proof (RN_nonneg (Zpos m) (t - e) ltac:(lia) ltac:(lia)) as Hnn.
  rewrite second_shift by lia.
  cbv zeta. destruct (RN (Zpos m) (t - e) =? 2 ^ 53); reflexivity.
Qed.

Lemma G_scaled m e s :
  0 <= s -> 0 <= e + 1074 + s ->
  let t := fexp prec emax (Zpos (digits2_pos m) + e) in
  e <= t ->
  G s (Zpos m * 2 ^ (e + 1074 + s)) = RN (Zpos m) (t - e) * 2 ^ (t + 1074).
Proof.
  intros Hs Ha t Het. unfold t in *. rewrite fexp_eq, digits2_log2 in *.
  unfold G, Tshift.
  rewrite Z.log2_mul_pow2 by lia.
  remember (Z.log2 (Zpos m)) as l eqn:Hl.
  replace (Z.max (e + 1074 + s + l + 1 - 53) s)
    with ((Z.max (l + 1 + e - 53) (-1074) - e) + (e + 1074 + s)) by lia.
  rewrite RN_scale by lia.
  f_equal. f_equal. lia.
Qed.

Lemma K_finish m2 e2 :
  0 <= m2 -> K (finish false m2 e2) = if e2 <=? 971 then m2 * 2 ^ (e2 + 1074) else
                                        if m2 =? 0 then 0 else INF.
Proof.
  intros Hm. destruct m2 as [|p|p]; [| |lia]; cbn [finish].
  - destruct (e2 <=? 971); reflexivity.
  - destruct (e2 <=? 971); reflexivity.
Qed.

Lemma bra_K m e s :
  0 <= s -> 0 <= e + 1074 + s ->
  e <= fexp prec emax (Zpos (digits2_pos m) + e) ->
  K (binary_round_aux prec emax false (Zpos m) e loc_Exact)
  = Z.min (G s (Zpos m * 2 ^ (e + 1074 + s))) INF.
Proof.
  intros Hs Ha Het.
  rewrite (G_scaled m e s Hs Ha Het).
  rewrite (bra_spec false m e Het). cbv zeta.
  pose proof (mantissa_bounds m e Het) as [Hub Hlb].
  remember (fexp prec emax (Zpos (digits2_pos m) + e)) as t eqn:Ht.
  assert (Ht0 : -1074 <= t) by (subst t; rewrite fexp_eq; lia).
  pose proof (RN_nonneg (Zpos m) (t - e) ltac:(lia) ltac:(lia)) as Hnn.
  remember (RN (Zpos m) (t - e)) as m1 eqn:Hm1.
  assert (Hp : 0 < 2 ^ (t + 1074)) by (apply Z.pow_pos_nonneg; lia).
  rewrite INF_eq.
  destruct (Z.eqb_spec m1 (2 ^ 53)) as [E|NE].
  - rewrite K_finish by lia.
    replace (t + 1 + 1074) with (1 + (t + 1074)) by lia.
    rewrite (Z.pow_add_r 2 1) by lia. change (2 ^ 1) with 2.
    change (2 ^ 52 =? 0) with false. cbv iota. rewrite INF_eq.
    destruct (Z.leb_spec (t + 1) 971).
    + assert (2 ^ (t + 1074) <= 2 ^ 2044) by (apply pow2_le; lia).
      change (2 ^ 2045) with (2 * 2 ^ 2044). subst m1. rewrite E.
      change (2 ^ 53) with (2 * 2 ^ 52). lia.
    + assert (2 ^ 2045 <= 2 ^ (t + 1074)) by (apply pow2_le; lia).
      rewrite E. nia.
  - rewrite K_finish by lia. rewrite INF_eq.
    destruct (Z.leb_spec t 971).
    + assert (2 ^ (t + 1074) <= 2 ^ 2045) by (apply pow2_le; lia). nia.
    + specialize (Hlb ltac:(lia)).
      assert (2 ^ 2046 <= 2 ^ (t + 1074)) by (apply pow2_le; lia).
      change (2 ^ 2046) with (2 * 2 ^ 2045) in *. change (2 ^ 53) with (2 * 2 ^ 52) in *.
      destruct (Z.eqb_spec m1 0); [lia|]. nia.
Qed.

Lemma iter_xO m d : Zpos (Pos.iter xO m d) = Zpos m * 2 ^ Zpos d.
Proof.
  induction d as [|d IH] using Pos.peano_ind.
  - simpl. lia.
  - rewrite Pos.iter_succ, Pos2Z.inj_succ, Z.pow_succ_r by lia.
    rewrite Pos2Z.inj_xO, IH. lia.
Qed.

Lemma shl_align_spec m e t :
  let '(mz, ez) := shl_align m e t in
  ez = Z.min e t /\ Zpos mz = Zpos m * 2 ^ (e - ez).
Proof.
  unfold shl_align. destruct (t - e) as [|d|d] eqn:Hd; cbv beta iota.
  - split; [lia|]. rewrite Z.sub_diag, Z.pow_0_r. lia.
  - split; [lia|]. rewrite Z.sub_diag, Z.pow_0_r. lia.
  - split; [lia|]. rewrite iter_xO. f_equal. f_equal. lia.
Qed.

Lemma bround_K m e s :
  0 <= s -> 0 <= e + 1074 + s ->
  K (binary_round prec emax false m e) = Z.min (G s (Zpos m * 2 ^ (e + 1074 + s))) INF.
Proof.
  intros Hs Ha. unfold binary_round.
  pose proof (shl_align_spec m e (fexp prec emax (Zpos (digits2_pos m) + e))) as Hal.
  destruct (shl_align m e (fexp prec emax (Zpos (digits2_pos m) + e))) as [mz ez].
  destruct Hal as [Hez Hmz].
  rewrite fexp_eq, digits2_log2 in Hez.
  assert (Hdz : Z.log2 (Zpos mz) = Z.log2 (Zpos m) + (e - ez)).
  { rewrite Hmz, Z.log2_mul_pow2 by lia. lia. }
  rewrite (bra_K mz ez s Hs).
  - rewrite Hmz, <- Z.mul_assoc, <- Z.pow_add_r by lia.
    replace (e - ez + (ez + 1074 + s)) with (e + 1074 + s) by lia. reflexivity.
  - lia.
  - rewrite fexp_eq, digits2_log2, Hdz. lia.
Qed.

(** ** Canonical representations and comparison *)

Lemma valid_finite s m e :
  valid_binary (S754_finite s m e) = true ->
  Z.max (Z.log2 (Zpos m) + 1 + e - 53) (-1074) = e /\ e <= 971.
Proof.
  unfold SpecFloat.valid_binary, bounded, canonical_mantissa.
  rewrite fexp_eq, digits2_log2. intros H.
  apply andb_true_iff in H. destruct H as [H1 H2].
  apply Z.eqb_eq in H1. apply Z.leb_le in H2. split; [exact H1 | exact H2].
Qed.

Lemma canonical_lt m1 e1 m2 e2 :
  Z.max (Z.log2 (Zpos m1) + 1 + e1 - 53) (-1074) = e1 ->
  Z.max (Z.log2 (Zpos m2) + 1 + e2 - 53) (-1074) = e2 ->
  e1 < e2 ->
  Zpos m1 * 2 ^ (e1 + 1074) < Zpos m2 * 2 ^ (e2 + 1074).
Proof.
  intros H1 H2 Hlt.
  destruct (Z.log2_spec (Zpos m1) ltac:(lia)) as [_ Hhi].
  destruct (Z.log2_spec (Zpos m2) ltac:(lia)) as [Hlo _].
  assert (Hm1 : Zpos m1 < 2 ^ 53).
  { assert (2 ^ Z.succ (Z.log2 (Zpos m1)) <= 2 ^ 53) by (apply pow2_le; pose proof (Z.log2_nonneg (Zpos m1)); lia). lia. }
  assert (Hm2 : 2 ^ 52 <= Zpos m2) by (replace 52 with (Z.log2 (Zpos m2)) by lia; exact Hlo).
  assert (Hp : 0 < 2 ^ (e1 + 1074)) by (apply Z.pow_pos_nonneg; lia).
  assert (He : 2 * 2 ^ (e1 + 1074) <= 2 ^ (e2 + 1074)).
  { rewrite <- Z.pow_succ_r by lia. apply pow2_le. lia. }
  change (2 ^ 53) with (2 * 2 ^ 52) in Hm1. nia.
Qed.

Lemma K_finite_range s m e :
  valid_binary (S754_finite s m e) = true ->
  0 < K (S754_finite s m e) < INF.
Proof.
  intros Hv. apply valid_finite in Hv. destruct Hv as [Hc He]. cbn [K].
  destruct (Z.log2_spec (Zpos m) ltac:(lia)) as [_ Hhi].
  assert (Hm1 : Zpos m < 2 ^ 53).
  { assert (2 ^ Z.succ (Z.log2 (Zpos m)) <= 2 ^ 53) by (apply pow2_le; pose proof (Z.log2_nonneg (Zpos m)); lia). lia. }
  assert (Hp : 0 < 2 ^ (e + 1074)) by (apply Z.pow_pos_nonneg; lia).
  assert (2 ^ (e + 1074) <= 2 ^ 2045) by (apply pow2_le; lia).
  rewrite INF_eq. split; nia.
Qed.

Lemma INF_pos : 0 < INF.
Proof. unfold INF. apply Z.pow_pos_nonneg; lia. Qed.

Lemma finite_compare m1 e1 m2 e2 :
  Z.max (Z.log2 (Zpos m1) + 1 + e1 - 53) (-1074) = e1 ->
  Z.max (Z.log2 (Zpos m2) + 1 + e2 - 53) (-1074) = e2 ->
  match e1 ?= e2 with
  | Eq => Pos.compare_cont Eq m1 m2
  | Lt => Lt
  | Gt => Gt
  end = (Zpos m1 * 2 ^ (e1 + 1074) ?= Zpos m2 * 2 ^ (e2 + 1074)).
Proof.
  intros H1 H2. symmetry.
  destruct (Z.compare_spec e1 e2) as [E|L|L].
  - subst e2. assert (Hp : 0 < 2 ^ (e1 + 1074)) by (apply Z.pow_pos_nonneg; lia).
    change (Pos.compare_cont Eq m1 m2) with (Zpos m1 ?= Zpos m2).
    destruct (Z.compare_spec (Zpos m1) (Zpos m2)) as [E'|L'|L'].
    + apply Z.compare_eq_iff. congruence.
    + apply Z.compare_lt_iff. nia.
    + apply Z.compare_gt_iff. nia.
  - apply Z.compare_lt_iff. now apply canonical_lt.
  - apply Z.compare_gt_iff. now apply canonical_lt.
Qed.

Lemma SFcompare_Ks x y :
  valid_binary x = true -> valid_binary y = true ->
  is_nan_sf x = false -> is_nan_sf y = false ->
  SFcompare x y = Some (Ks x ?= Ks y).
Proof.
  intros Vx Vy Nx Ny.
  pose proof INF_pos as HI.
  destruct x as [sx|sx| |sx mx ex]; try discriminate;
  destruct y as [sy|sy| |sy my ey]; try discriminate;
  try (pose proof (K_finite_range _ _ _ Vx) as Rx);
  try (pose proof (K_finite_range _ _ _ Vy) as Ry);
  unfold Ks; cbn [sign_of SFcompare]; cbn [K] in *;
  destruct sx, sy; cbn [K]; f_equal; symmetry;
  try (apply Z.compare_eq_iff; lia);
  try (apply Z.compare_lt_iff; lia);
  try (apply Z.compare_gt_iff; lia).
  - rewrite Z.compare_opp.
    apply valid_finite in Vx, Vy. destruct Vx as [Cx _], Vy as [Cy _].
    rewrite <- (finite_compare my ey mx ex Cy Cx).
    rewrite (Z.compare_antisym ex ey), (Pos.compare_cont_antisym mx my Eq).
    cbn [CompOpp]. destruct (ex ?= ey); reflexivity.
  - apply valid_finite in Vx, Vy. destruct Vx as [Cx _], Vy as [Cy _].
    symmetry. now apply finite_compare.
Qed.

(** ** Primitive floats through their specification *)

Lemma leb_Ks x y :
  (x <=? y)%float = true <->
  is_nan_sf (SF x) = false /\ is_nan_sf (SF y) = false /\ (Ks (SF x) <= Ks (SF y))%Z.
Proof.
  rewrite FloatAxioms.leb_spec. unfold SFleb, SF.
  destruct (is_nan_sf (Prim2SF x)) eqn:Nx.
  { destruct (Prim2SF x); try discriminate. simpl. split; [discriminate | intros [? _]; discriminate]. }
  destruct (is_nan_sf (Prim2SF y)) eqn:Ny.
  { destruct (Prim2SF y); try discriminate.
    destruct (Prim2SF x); simpl; (split; [discriminate | intros (_ & ? & _); discriminate]). }
  rewrite (SFcompare_Ks _ _ (Prim2SF_valid x) (Prim2SF_valid y) Nx Ny).
  destruct (Z.compare_spec (Ks (Prim2SF x)) (Ks (Prim2SF y))); split; intros H'; try discriminate; try tauto;
    try (repeat split; try reflexivity; lia);
  destruct H' as (_ & _ & H'); lia.
Qed.

Lemma ltb_Ks x y :
  (x <? y)%float = true <->
  is_nan_sf (SF x) = false /\ is_nan_sf (SF y) = false /\ (Ks (SF x) < Ks (SF y))%Z.
Proof.
  rewrite FloatAxioms.ltb_spec. unfold SFltb, SF.
  destruct (is_nan_sf (Prim2SF x)) eqn:Nx.
  { destruct (Prim2SF x); try discriminate. simpl. split; [discriminate | intros [? _]; discriminate]. }
  destruct (is_nan_sf (Prim2SF y)) eqn:Ny.
  { destruct (Prim2SF y); try discriminate.
    destruct (Prim2SF x); simpl; (split; [discriminate | intros (_ & ? & _); discriminate]). }
  rewrite (SFcompare_Ks _ _ (Prim2SF_valid x) (Prim2SF_valid y) Nx Ny).
  destruct (Z.compare_spec (Ks (Prim2SF x)) (Ks (Prim2SF y))); split; intros H'; try discriminate; try tauto;
    try (repeat split; try reflexivity; lia);
  destruct H' as (_ & _ & H'); lia.
Qed.

(** Two non-negative values of the same magnitude are the same float. *)
Lemma nonneg_K_inj x y :
  sign_false (SF x) -> sign_false (SF y) ->
  K (SF x) = K (SF y) -> x = y.
Proof.
  unfold SF. intros Sx Sy HK. apply Prim2SF_inj.
  pose proof (Prim2SF_valid x) as Vx. pose proof (Prim2SF_valid y) as Vy.
  pose proof INF_pos.
  destruct (Prim2SF x) as [sx|sx| |sx mx ex]; cbn [sign_false] in Sx; try contradiction;
  destruct (Prim2SF y) as [sy|sy| |sy my ey]; cbn [sign_false] in Sy; try contradiction;
  subst;
  try (pose proof (K_finite_range _ _ _ Vx) as Rx);
  try (pose proof (K_finite_range _ _ _ Vy) as Ry);
  cbn [K] in *; try reflexivity; try lia.
  apply valid_finite in Vx, Vy. destruct Vx as [Cx _], Vy as [Cy _].
  pose proof (finite_compare mx ex my ey Cx Cy) as Hc.
  rewrite HK, Z.compare_refl in Hc.
  destruct (Z.compare_spec ex ey); try discriminate. subst.
  change (Pos.compare_cont Eq mx my) with (Pos.compare mx my) in Hc.
  apply Pos.compare_eq in Hc. now subst.
Qed.

Lemma finish_sign sx m2 e2 :
  0 <= m2 -> is_nan_sf (finish sx m2 e2) = false /\ sign_of (finish sx m2 e2) = sx.
Proof.
  intros Hm. destruct m2 as [|p|p]; [| |lia]; cbn [finish]; try destruct (e2 <=? 971); split; reflexivity.
Qed.

Lemma K_finish_sign sx m2 e2 : K (finish sx m2 e2) = K (finish false m2 e2).
Proof.
  destruct m2 as [|p|p]; cbn [finish]; try destruct (e2 <=? 971); reflexivity.
Qed.

Lemma bra_sign sx m e :
  e <= fexp prec emax (Zpos (digits2_pos m) + e) ->
  let r := binary_round_aux prec emax sx (Zpos m) e loc_Exact in
  is_nan_sf r = false /\ sign_of r = sx /\
  K r = K (binary_round_aux prec emax false (Zpos m) e loc_Exact).
Proof.
  intros Het r. unfold r. rewrite !(bra_spec _ m e Het). cbv zeta.
  remember (fexp prec emax (Zpos (digits2_pos m) + e)) as t eqn:Ht.
  assert (Ht0 : -1074 <= t) by (subst t; rewrite fexp_eq; lia).
  pose proof (RN_nonneg (Zpos m) (t - e) ltac:(lia) ltac:(lia)) as Hnn.
  destruct (RN (Zpos m) (t - e) =? 2 ^ 53).
  - destruct (finish_sign sx (2 ^ 52) (t + 1) ltac:(lia)) as [? ?].
    repeat split; auto using K_finish_sign.
  - destruct (finish_sign sx (RN (Zpos m) (t - e)) t Hnn) as [? ?].
    repeat split; auto using K_finish_sign.
Qed.

Lemma bround_sign m e :
  sign_false (binary_round prec emax false m e).
Proof.
  unfold binary_round.
  pose proof (shl_align_spec m e (fexp prec emax (Zpos (digits2_pos m) + e))) as Hal.
  destruct (shl_align m e (fexp prec emax (Zpos (digits2_pos m) + e))) as [mz ez].
  destruct Hal as [Hez Hmz].
  rewrite fexp_eq, digits2_log2 in Hez.
  assert (Hdz : Z.log2 (Zpos mz) = Z.log2 (Zpos m) + (e - ez)).
  { rewrite Hmz, Z.log2_mul_pow2 by lia. lia. }
  destruct (bra_sign false mz ez) as (Hn & Hs & _).
  { rewrite fexp_eq, digits2_log2, Hdz. lia. }
  destruct (binary_round_aux prec emax false (Z.pos mz) ez loc_Exact); cbn in *; congruence.
Qed.

Lemma G_0 s : 0 <= s -> G s 0 = 0.
Proof.
  intros Hs. unfold G, Tshift. change (Z.log2 0) with 0.
  replace (Z.max (0 + 1 - 53) s) with s by lia.
  replace 0 with (0 * 2 ^ s) at 1 by lia. rewrite RN_exact by lia. lia.
Qed.

Lemma G_nonneg s X : 0 <= s -> 0 <= X -> 0 <= G s X.
Proof.
  intros Hs HX. unfold G.
  assert (s <= Tshift s X) by (unfold Tshift; lia).
  apply Z.mul_nonneg_nonneg.
  - apply RN_nonneg; lia.
  - apply Z.pow_nonneg. lia.
Qed.

Lemma G_mono0 s X Y : 0 <= s -> 0 <= X -> X <= Y -> G s X <= G s Y.
Proof.
  intros Hs HX HXY. destruct (Z.eq_dec X 0) as [->|NE].
  - rewrite G_0 by lia. apply G_nonneg; lia.
  - apply G_mono; lia.
Qed.

Lemma G_exact s c T :
  0 <= s -> Tshift s (c * 2 ^ T) = T -> G s (c * 2 ^ T) = c * 2 ^ (T - s).
Proof.
  intros Hs HT. unfold G. rewrite HT.
  assert (s <= T) by (rewrite <- HT; unfold Tshift; lia).
  rewrite RN_exact by lia. reflexivity.
Qed.

Lemma G_canonical sx m e :
  valid_binary (S754_finite sx m e) = true ->
  G 0 (Zpos m * 2 ^ (e + 1074)) = Zpos m * 2 ^ (e + 1074).
Proof.
  intros Hv. apply valid_finite in Hv. destruct Hv as [Hc He].
  replace (e + 1074) with (e + 1074 + 0) at 1 by lia.
  rewrite G_scaled; rewrite ?fexp_eq, ?digits2_log2; try lia.
  replace (Z.max (Z.log2 (Zpos m) + 1 + e - 53) (-1074)) with e by lia.
  rewrite Z.sub_diag. replace (Zpos m) with (Zpos m * 2 ^ 0) at 1 by (rewrite Z.pow_0_r; lia).
  rewrite RN_exact by lia. reflexivity.
Qed.

Lemma G_exact_int p :
  0 < p <= 2 ^ 53 -> G 0 (p * 2 ^ 1074) = p * 2 ^ 1074.
Proof.
  intros Hp.
  destruct (Z.log2_spec p ltac:(lia)) as [Hlo Hhi].
  assert (Hl : 0 <= Z.log2 p) by apply Z.log2_nonneg.
  assert (Hl53 : Z.log2 p <= 53).
  { pose proof (Z.log2_le_mono p (2 ^ 53) ltac:(lia)) as Hm.
    rewrite Z.log2_pow2 in Hm by lia. exact Hm. }
  destruct (Z.eq_dec (Z.log2 p) 53) as [E|NE].
  - assert (p = 2 ^ 53) by (rewrite E in Hlo; lia). subst p.
    change (2 ^ 53 * 2 ^ 1074) with (2 ^ 52 * 2 ^ 1075).
    rewrite G_exact; [reflexivity | lia |].
    unfold Tshift. rewrite Z.log2_mul_pow2 by lia. reflexivity.
  - set (T := Z.log2 p + 1022).
    assert (HX : p * 2 ^ 1074 = (p * 2 ^ (1074 - T)) * 2 ^ T).
    { rewrite <- Z.mul_assoc, <- Z.pow_add_r by (unfold T; lia). do 2 f_equal. lia. }
    rewrite HX at 1. rewrite G_exact.
    + rewrite Z.sub_0_r. symmetry. exact HX.
    + lia.
    + rewrite <- HX. unfold Tshift. rewrite Z.log2_mul_pow2 by lia. unfold T. lia.
Qed.

Lemma of_nat_SF (n : nat) :
  Z.of_nat n <= 2 ^ 53 ->
  sign_false (SF (of_uint63 (Uint63.of_Z (Z.of_nat n)))) /\
  K (SF (of_uint63 (Uint63.of_Z (Z.of_nat n)))) = Z.of_nat n * 2 ^ 1074.
Proof.
  intros Hn. unfold SF. rewrite of_uint63_spec, Uint63.of_Z_spec.
  rewrite Z.mod_small by (change wB with (2 ^ 63); lia).
  destruct (Z.of_nat n) as [|p|p] eqn:E; [| |lia].
  - split; reflexivity.
  - cbn [binary_normalize]. split; [apply bround_sign|].
    rewrite (bround_K p 0 0) by lia.
    change (0 + 1074 + 0) with 1074.
    rewrite G_exact_int by lia.
    apply Z.min_l. rewrite INF_eq.
    assert (0 < 2 ^ 1074) by (apply Z.pow_pos_nonneg; lia).
    assert (2 ^ 1074 <= 2 ^ 2045) by (apply pow2_le; lia). nia.
Qed.

Lemma min_INF_l X : X < INF -> Z.min X INF = X.
Proof. intros. apply Z.min_l. lia. Qed.

(** Addition of two finite non-negative values. *)
Lemma SFadd_K x y :
  valid_binary x = true -> valid_binary y = true ->
  sign_false x -> sign_false y -> K x < INF -> K y < INF ->
  sign_false (SF64add x y) /\ K (SF64add x y) = Z.min (G 0 (K x + K y)) INF.
Proof.
  intros Vx Vy Sx Sy Fx Fy. pose proof INF_pos as HI.
  destruct x as [sx|sx| |sx mx ex]; cbn [sign_false K] in *; try contradiction; try lia;
  destruct y as [sy|sy| |sy my ey]; cbn [sign_false K] in *; try contradiction; try lia;
  subst.
  - split; [reflexivity|]. cbn [SF64add SFadd K]. rewrite G_0 by lia. lia.
  - split; [reflexivity|]. cbn [SF64add SFadd K].
    rewrite Z.add_0_l, (G_canonical _ _ _ Vy). now rewrite min_INF_l.
  - split; [reflexivity|]. cbn [SF64add SFadd K].
    rewrite Z.add_0_r, (G_canonical _ _ _ Vx). now rewrite min_INF_l.
  - unfold SF64add, SFadd. cbn [cond_Zopp].
    pose proof (shl_align_spec mx ex (Z.min ex ey)) as Hx.
    pose proof (shl_align_spec my ey (Z.min ex ey)) as Hy.
    destruct (shl_align mx ex (Z.min ex ey)) as [ax ezx].
    destruct (shl_align my ey (Z.min ex ey)) as [ay ezy].
    destruct Hx as [Hex Hax], Hy as [Hey Hay]. cbn [fst].
    change (Zpos ax + Zpos ay) with (Zpos (ax + ay)).
    cbn [binary_normalize]. split; [apply bround_sign|].
    apply valid_finite in Vx, Vy.
    rewrite (bround_K (ax + ay) (Z.min ex ey) 0) by lia.
    do 2 f_equal. rewrite Pos2Z.inj_add, Hax, Hay, Z.mul_add_distr_r.
    rewrite <- !Z.mul_assoc, <- !Z.pow_add_r by lia.
    f_equal; do 2 f_equal; lia.
Qed.

(** Multiplication by a finite non-negative value. *)
Lemma SFmul_K x c :
  valid_binary x = true -> valid_binary c = true ->
  is_nan_sf x = false -> sign_false c -> K c < INF ->
  (K x = INF -> 2 ^ 1074 <= K c) ->
  is_nan_sf (SF64mul x c) = false /\ sign_of (SF64mul x c) = sign_of x /\
  K (SF64mul x c) = Z.min (G 1074 (K x * K c)) INF.
Proof.
  intros Vx Vc Nx Sc Fc Hinf. pose proof INF_pos as HI.
  assert (H1074 : 0 < 2 ^ 1074) by (apply Z.pow_pos_nonneg; lia).
  destruct x as [sx|sx| |sx mx ex]; try discriminate;
  destruct c as [sc|sc| |sc mc ec]; cbn [sign_false K] in *; try contradiction; try lia;
  subst; unfold SF64mul; cbn [SFmul sign_of is_nan_sf K]; rewrite ?xorb_false_r.
  - split; [reflexivity | split; [reflexivity|]]. rewrite Z.mul_0_l, G_0 by lia. lia.
  - split; [reflexivity | split; [reflexivity|]]. rewrite Z.mul_0_l, G_0 by lia. lia.
  - split; [reflexivity | split; [reflexivity|]]. specialize (Hinf eq_refl).
    symmetry. apply Z.min_r.
    apply Z.le_trans with (G 1074 (INF * 2 ^ 1074)).
    + unfold INF at 2. rewrite <- Z.pow_add_r by lia.
      change (2 ^ (2098 + 1074)) with (2 ^ 52 * 2 ^ 3120).
      rewrite G_exact.
      * unfold INF. change (3120 - 1074) with 2046. rewrite <- Z.pow_add_r by lia. reflexivity.
      * lia.
      * unfold Tshift. rewrite Z.log2_mul_pow2 by lia. reflexivity.
    + apply G_mono0; [lia | nia | nia].
  - split; [reflexivity | split; [reflexivity|]]. rewrite Z.mul_0_r, G_0 by lia. lia.
  - pose proof Vx as Cx. pose proof Vc as Cc.
    apply valid_finite in Cx, Cc.
    assert (Het : ex + ec <= fexp prec emax (Zpos (digits2_pos (mx * mc)) + (ex + ec))).
    { rewrite fexp_eq, digits2_log2, Pos2Z.inj_mul.
      pose proof (Z.log2_mul_below (Zpos mx) (Zpos mc) ltac:(lia) ltac:(lia)).
      pose proof (Z.log2_nonneg (Zpos mx)). pose proof (Z.log2_nonneg (Zpos mc)). lia. }
    destruct (bra_sign sx (mx * mc) (ex + ec) Het) as (Hn & Hs & HK).
    split; [exact Hn | split; [exact Hs|]].
    rewrite HK, (bra_K (mx * mc) (ex + ec) 1074) by (try exact Het; lia).
    do 2 f_equal. rewrite Pos2Z.inj_mul.
    replace (ex + ec + 1074 + 1074) with ((ex + 1074) + (ec + 1074)) by lia.
    rewrite Z.pow_add_r by lia. ring.
Qed.

Lemma K_range x : valid_binary x = true -> 0 <= K x <= INF.
Proof.
  intros V. pose proof INF_pos.
  destruct x as [s|s| |s m e]; cbn [K]; try lia.
  pose proof (K_finite_range s m e V) as R. cbn [K] in R. lia.
Qed.

Lemma K_INF_infinite x :
  valid_binary x = true -> K x = INF -> exists s, x = S754_infinity s.
Proof.
  intros V HK. pose proof INF_pos.
  destruct x as [s|s| |s m e]; cbn [K] in HK; try lia.
  - now exists s.
  - pose proof (K_finite_range s m e V) as R. cbn [K] in R. lia.
Qed.

Lemma K_0_zero x :
  valid_binary x = true -> sign_false x -> K x = 0 -> x = S754_zero false.
Proof.
  intros V S HK. pose proof INF_pos.
  destruct x as [s|s| |s m e]; cbn [K sign_false] in *; try lia; try contradiction.
  - now subst.
  - pose proof (K_finite_range s m e V) as R. cbn [K] in R. lia.
Qed.

(** Multiplying by a finite non-negative value preserves the order. *)
Lemma SFmul_mono a b c :
  valid_binary a = true -> valid_binary b = true -> valid_binary c = true ->
  is_nan_sf a = false -> is_nan_sf b = false ->
  sign_false c -> K c < INF -> (K c = 0 \/ 2 ^ 1074 <= K c) ->
  Ks a <= Ks b -> Ks b < INF ->
  is_nan_sf (SF64mul a c) = false ->
  is_nan_sf (SF64mul b c) = false /\ Ks (SF64mul a c) <= Ks (SF64mul b c).
Proof.
  intros Va Vb Vc Na Nb Sc Fc Hc Hab HbI Nac.
  pose proof INF_pos as HI.
  pose proof (K_range a Va) as Ra. pose proof (K_range b Vb) as Rb.
  pose proof (K_range c Vc) as Rc.
  assert (H1074 : 0 < 2 ^ 1074) by (apply Z.pow_pos_nonneg; lia).
  (* a is infinite only when c is not zero *)
  assert (Ha : K a = INF -> 2 ^ 1074 <= K c).
  { intros E. destruct Hc as [Hc|Hc]; [|exact Hc].
    apply (K_0_zero c Vc Sc) in Hc. subst c.
    destruct (K_INF_infinite a Va E) as [s ->]. discriminate Nac. }
  assert (Hb : K b = INF -> 2 ^ 1074 <= K c).
  { intros E. destruct Hc as [Hc|Hc]; [|exact Hc]. exfalso.
    assert (K a = INF).
    { unfold Ks in Hab, HbI. destruct (sign_of a), (sign_of b); lia. }
    specialize (Ha H). lia. }
  destruct (SFmul_K a c Va Vc Na Sc Fc Ha) as (_ & Sa & Ka).
  destruct (SFmul_K b c Vb Vc Nb Sc Fc Hb) as (Nbc & Sb & Kb).
  split; [exact Nbc|].
  assert (Hmono : forall u v, 0 <= u -> u <= v ->
             Z.min (G 1074 (u * K c)) INF <= Z.min (G 1074 (v * K c)) INF).
  { intros u v Hu Huv. apply Z.min_le_compat_r. apply G_mono0; nia. }
  assert (Hpos : forall u, 0 <= u -> 0 <= Z.min (G 1074 (u * K c)) INF).
  { intros u Hu. pose proof (G_nonneg 1074 (u * K c) ltac:(lia) ltac:(nia)). lia. }
  assert (Hz : Z.min (G 1074 (0 * K c)) INF = 0).
  { rewrite Z.mul_0_l, G_0 by lia. lia. }
  unfold Ks in *. rewrite Sa, Sb, Ka, Kb.
  destruct (sign_of a), (sign_of b).
  - pose proof (Hmono (K b) (K a) ltac:(lia) ltac:(lia)). lia.
  - pose proof (Hpos (K a) ltac:(lia)). pose proof (Hpos (K b) ltac:(lia)). lia.
  - assert (K a = 0) by lia. assert (K b = 0) by lia.
    rewrite H, H0, Hz. lia.
  - apply Hmono; lia.
Qed.

Lemma Ks_nonneg x : sign_false x -> Ks x = K x.
Proof.
  unfold Ks. destruct x; cbn [sign_false sign_of]; intros H; try contradiction; now subst.
Qed.

Lemma mul_exponent_ok sx mx ex sy my ey :
  valid_binary (S754_finite sx mx ex) = true ->
  valid_binary (S754_finite sy my ey) = true ->
  ex + ey <= fexp prec emax (Zpos (digits2_pos (mx * my)) + (ex + ey)).
Proof.
  intros Vx Vy. apply valid_finite in Vx, Vy.
  rewrite fexp_eq, digits2_log2, Pos2Z.inj_mul.
  pose proof (Z.log2_mul_below (Zpos mx) (Zpos my) ltac:(lia) ltac:(lia)).
  pose proof (Z.log2_nonneg (Zpos mx)). pose proof (Z.log2_nonneg (Zpos my)). lia.
Qed.

(** A square is NaN or carries the sign bit [false]. *)
Lemma SFmul_self_sign x :
  valid_binary x = true ->
  is_nan_sf (SF64mul x x) = true \/ sign_false (SF64mul x x).
Proof.
  intros V. destruct x as [s|s| |s m e]; unfold SF64mul; cbn [SFmul].
  - right. cbn. now destruct s.
  - right. cbn. now destruct s.
  - left. reflexivity.
  - right. destruct (bra_sign (xorb s s) (m * m) (e + e) (mul_exponent_ok _ _ _ _ _ _ V V))
      as (Hn & Hs & _).
    rewrite xorb_nilpotent in *.
    destruct (binary_round_aux prec emax false (Z.pos (m * m)) (e + e) loc_Exact);
      cbn in *; congruence.
Qed.

(** Adding [+0] on the left of such a value leaves it as it is. *)
Lemma SFadd_zero_l y :
  is_nan_sf y = true \/ sign_false y -> SF64add (S754_zero false) y = y.
Proof.
  intros [H|H]; destruct y as [s|s| |s m e]; cbn in *; try discriminate; try contradiction;
    subst; reflexivity.
Qed.

(** Whatever it is given, [binary_round_aux] returns NaN or a value that
    carries the sign it was given. *)
Lemma bra_nan_or_sign sx mx ex lx :
  let r := binary_round_aux prec emax sx mx ex lx in
  is_nan_sf r = true \/ (is_nan_sf r = false /\ sign_of r = sx).
Proof.
  unfold binary_round_aux.
  destruct (shr_fexp prec emax mx ex lx) as [mrs' e'].
  destruct (shr_fexp prec emax (round_nearest_even (shr_m mrs') (loc_of_shr_record mrs')) e'
              loc_Exact) as [mrs'' e''].
  cbv zeta. destruct (shr_m mrs'') as [|p|p].
  - right. split; reflexivity.
  - destruct (e'' <=? emax - prec); right; split; reflexivity.
  - left. reflexivity.
Qed.

Lemma bra_opp sx mx ex lx :
  binary_round_aux prec emax (negb sx) mx ex lx
  = SFopp (binary_round_aux prec emax sx mx ex lx).
Proof.
  unfold binary_round_aux.
  destruct (shr_fexp prec emax mx ex lx) as [mrs' e'].
  destruct (shr_fexp prec emax (round_nearest_even (shr_m mrs') (loc_of_shr_record mrs')) e'
              loc_Exact) as [mrs'' e''].
  destruct (shr_m mrs'') as [|p|p]; try reflexivity.
  destruct (e'' <=? emax - prec); reflexivity.
Qed.

Lemma not_neg_cases x :
  not_neg x <-> match x with
                | S754_nan => True
                | S754_zero s | S754_infinity s | S754_finite s _ _ => s = false
                end.
Proof.
  unfold not_neg. destruct x as [s|s| |s m e]; cbn; split; intros H;
    try (destruct H as [H|H]; [discriminate | exact H]); try (now right); try (now left);
    exact I.
Qed.

Lemma K_bround_sign sx m e :
  K (binary_round prec emax sx m e) = K (binary_round prec emax false m e).
Proof.
  unfold binary_round.
  pose proof (shl_align_spec m e (fexp prec emax (Zpos (digits2_pos m) + e))) as Hal.
  destruct (shl_align m e (fexp prec emax (Zpos (digits2_pos m) + e))) as [mz ez].
  destruct Hal as [Hez Hmz].
  rewrite fexp_eq, digits2_log2 in Hez.
  assert (Hdz : Z.log2 (Zpos mz) = Z.log2 (Zpos m) + (e - ez)).
  { rewrite Hmz, Z.log2_mul_pow2 by lia. lia. }
  destruct (bra_sign sx mz ez) as (_ & _ & HK); [|exact HK].
  rewrite fexp_eq, digits2_log2, Hdz. lia.
Qed.

Lemma G_0_1 : G 0 1 = 1.
Proof. reflexivity. Qed.

(** A sum of two finite values whose integer part is not zero is not a
    zero: additions do not underflow. *)
Lemma bround_not_zero sx m e :
  -1074 <= e -> forall s, binary_round prec emax sx m e <> S754_zero s.
Proof.
  intros He s Hz.
  assert (HK : K (binary_round prec emax sx m e) = 0) by now rewrite Hz.
  rewrite K_bround_sign, (bround_K m e 0) in HK by lia.
  pose proof INF_pos.
  assert (0 < 2 ^ (e + 1074 + 0)) by (apply Z.pow_pos_nonneg; lia).
  pose proof (G_mono0 0 1 (Zpos m * 2 ^ (e + 1074 + 0)) ltac:(lia) ltac:(lia) ltac:(nia)) as Hm.
  rewrite G_0_1 in Hm. lia.
Qed.

(** The sum of two values that are not negative is not negative. *)
Lemma SFadd_not_neg x y : not_neg x -> not_neg y -> not_neg (SF64add x y).
Proof.
  intros Hx Hy. apply not_neg_cases in Hx, Hy. apply not_neg_cases.
  destruct x as [sx|sx| |sx mx ex]; destruct y as [sy|sy| |sy my ey];
    cbn in Hx, Hy; subst; try exact I; try reflexivity.
  unfold SF64add, SFadd. cbn [cond_Zopp].
  change (Z.pos (fst (shl_align mx ex (Z.min ex ey))) + Z.pos (fst (shl_align my ey (Z.min ex ey))))
    with (Z.pos (fst (shl_align mx ex (Z.min ex ey)) + fst (shl_align my ey (Z.min ex ey)))).
  cbn [binary_normalize].
  pose proof (bround_sign (fst (shl_align mx ex (Z.min ex ey)) + fst (shl_align my ey (Z.min ex ey)))
                (Z.min ex ey)) as Hs.
  destruct (binary_round prec emax false _ _); cbn in *; try contradiction; auto.
Qed.

(** Adding a value that is not negative never gives [-0]. *)
Lemma SFadd_not_neg_zero x y :
  valid_binary x = true -> valid_binary y = true -> not_neg y ->
  SF64add x y <> S754_zero true.
Proof.
  intros Vx Vy Hy. apply not_neg_cases in Hy.
  destruct x as [sx|sx| |sx mx ex]; destruct y as [sy|sy| |sy my ey];
    cbn in Hy; subst; unfold SF64add; cbn [SFadd]; try discriminate;
    try (destruct sx; discriminate).
  apply valid_finite in Vx, Vy.
  destruct (cond_Zopp sx (Z.pos (fst (shl_align mx ex (Z.min ex ey))))
            + cond_Zopp false (Z.pos (fst (shl_align my ey (Z.min ex ey))))) as [|p|p];
    cbn [binary_normalize]; try discriminate; apply bround_not_zero; lia.
Qed.

Lemma SFsqrt_not_neg x : x <> S754_zero true -> not_neg (SF64sqrt x).
Proof.
  intros Hx. apply not_neg_cases.
  destruct x as [[|]|[|]| |[|] m e]; unfold SF64sqrt; cbn [SFsqrt]; try exact I;
    try reflexivity; try congruence.
  destruct (SFsqrt_core_binary prec emax (Z.pos m) e) as [[mz ez] lz].
  apply not_neg_cases.
  destruct (bra_nan_or_sign false mz ez lz) as [H|[H1 H2]]; [now left|].
  right. destruct (binary_round_aux prec emax false mz ez lz); cbn in *; congruence.
Qed.

Lemma SFdiv_not_neg x y : not_neg x -> not_neg y -> not_neg (SF64div x y).
Proof.
  intros Hx Hy. apply not_neg_cases in Hx, Hy.
  destruct x as [sx|sx| |sx mx ex]; destruct y as [sy|sy| |sy my ey];
    cbn in Hx, Hy; subst; unfold SF64div; cbn [SFdiv]; apply not_neg_cases;
    try exact I; try reflexivity.
  apply not_neg_cases.
  destruct (SFdiv_core_binary prec emax (Z.pos mx) ex (Z.pos my) ey) as [[mz ez] lz].
  cbn [xorb].
  destruct (bra_nan_or_sign false mz ez lz) as [H|[H1 H2]]; [now left|].
  right. destruct (binary_round_aux prec emax false mz ez lz); cbn in *; congruence.
Qed.

Lemma SFabs_not_neg x : not_neg (SFabs x).
Proof. apply not_neg_cases. destruct x; cbn; auto. Qed.

Lemma SFmul_self_not_neg x : valid_binary x = true -> not_neg (SF64mul x x).
Proof. exact (SFmul_self_sign x). Qed.

Lemma SFopp_involutive x : SFopp (SFopp x) = x.
Proof. destruct x as [s|s| |s m e]; cbn; now rewrite ?negb_involutive. Qed.

(** Multiplying by the absolute value changes at most the sign. *)
Lemma SFmul_abs_r x y :
  SF64mul x (SFabs y) = SF64mul x y \/ SF64mul x (SFabs y) = SFopp (SF64mul x y).
Proof.
  destruct x as [sx|sx| |sx mx ex]; destruct y as [[|]|[|]| |[|] my ey];
    unfold SF64mul; cbn [SFmul SFabs SFopp]; auto;
    try (right; destruct sx; reflexivity).
  right. rewrite <- bra_opp. destruct sx; reflexivity.
Qed.

Lemma SFmul_opp_self x : SF64mul (SFopp x) (SFopp x) = SF64mul x x.
Proof.
  destruct x as [[|]|[|]| |[|] m e]; unfold SF64mul; cbn [SFmul SFopp]; reflexivity.
Qed.

Lemma classify_not_neg x :
  match SF64classify x with
  | NInf | NNormal | NSubn | NZero => False
  | _ => True
  end <-> not_neg x.
Proof.
  rewrite not_neg_cases. unfold SF64classify.
  destruct x as [[|]|[|]| |[|] m e]; cbn [SFclassify];
    try destruct (Z.pos (digits2_pos m) =? prec)%Z; split; intros H;
    try exact I; try reflexivity; try discriminate; try contradiction.
Qed.

Lemma not_neg_not_neg_zero x : not_neg x -> x <> S754_zero true.
Proof. intros H E. subst x. apply not_neg_cases in H. discriminate. Qed.

(** A product with a zero tolerance: a zero. *)
Lemma SFmul_zero_of_nat sg c :
  valid_binary c = true -> sign_false c -> K c < INF ->
  is_nan_sf (SF64mul (S754_zero sg) c) = false /\ Ks (SF64mul (S754_zero sg) c) = 0.
Proof.
  intros Vc Sc Kc. pose proof INF_pos as HI.
  assert (H0 : K (S754_zero sg) = INF -> 2 ^ 1074 <= K c) by (cbn [K]; lia).
  destruct (SFmul_K (S754_zero sg) c eq_refl Vc eq_refl Sc Kc H0) as (Hn & _ & HK).
  split; [exact Hn|]. cbn [K] in HK. rewrite Z.mul_0_l, G_0 in HK by lia.
  unfold Ks. rewrite HK, Z.min_l by lia.
  now destruct (sign_of _).
Qed.


(** Rounding commutes with a change of unit. *)
Lemma G_shift s t X : 0 <= s -> 0 <= t -> 0 < X -> G (s + t) (X * 2 ^ t) = G s X.
Proof.
  intros Hs Ht HX. unfold G.
  assert (HT : Tshift (s + t) (X * 2 ^ t) = Tshift s X + t).
  { unfold Tshift. rewrite Z.log2_mul_pow2 by lia. lia. }
  rewrite HT, RN_scale by (unfold Tshift; lia). do 2 f_equal. lia.
Qed.

(** The product of 1 and a small integer is that integer. *)
Lemma SFmul_one_int c p :
  valid_binary c = true -> sign_false c -> 0 <= p <= 2 ^ 53 -> K c = p * 2 ^ 1074 ->
  is_nan_sf (SF64mul (S754_finite false 4503599627370496 (-52)) c) = false /\
  Ks (SF64mul (S754_finite false 4503599627370496 (-52)) c) = p * 2 ^ 1074.
Proof.
  intros Vc Sc Hp HK.
  assert (H1074 : 0 < 2 ^ 1074) by (apply Z.pow_pos_nonneg; lia).
  assert (Hlt : p * 2 ^ 1074 < INF).
  { unfold INF. replace 2098 with (1024 + 1074) by lia. rewrite Z.pow_add_r by lia.
    apply Z.mul_lt_mono_pos_r; [lia|].
    apply Z.le_lt_trans with (2 ^ 53); [lia | apply Z.pow_lt_mono_r; lia]. }
  assert (Hone : K (S754_finite false 4503599627370496 (-52)) = 2 ^ 1074) by reflexivity.
  assert (H0 : K (S754_finite false 4503599627370496 (-52)) = INF -> 2 ^ 1074 <= K c).
  { rewrite Hone. unfold INF. intros E. apply Z.pow_inj_r in E; lia. }
  destruct (SFmul_K (S754_finite false 4503599627370496 (-52)) c eq_refl Vc eq_refl Sc
              ltac:(lia) H0) as (Hn & Hs & HKp).
  split; [exact Hn|]. unfold Ks. rewrite Hs. cbn [sign_of].
  rewrite HKp, Hone, HK.
  destruct (Z.eq_dec p 0) as [->|NE].
  - rewrite Z.mul_0_l, Z.mul_0_r, G_0 by lia. pose proof INF_pos. lia.
  - rewrite Z.mul_comm. change 1074 with (0 + 1074) at 1.
    rewrite G_shift by lia. rewrite G_exact_int by lia. lia.
Qed.

Lemma SFadd_zero_r y : not_neg y -> SF64add y (S754_zero false) = y.
Proof.
  intros H. apply not_neg_cases in H.
  destruct y as [s|s| |s m e]; cbn in *; subst; reflexivity.
Qed.

End B64_facts.

(** * Counting with floats *)

Lemma SF_one : B64.SF 1%float = S754_finite false 4503599627370496 (-52).
Proof. reflexivity. Qed.

Lemma K_one : B64.K (B64.SF 1%float) = (2 ^ 1074)%Z.
Proof.
  rewrite SF_one. cbn [B64.K].
  change (Z.pos 4503599627370496) with (2 ^ 52)%Z.
  rewrite <- Z.pow_add_r by lia. reflexivity.
Qed.

Lemma of_nat_0 : of_nat 0 = 0%float.
Proof. reflexivity. Qed.

Lemma of_nat_finite n :
  (Z.of_nat n <= 2 ^ 53)%Z -> (B64.K (B64.SF (of_nat n)) < B64.INF)%Z.
Proof.
  intros Hn. destruct (B64_facts.of_nat_SF n Hn) as [_ HK]. unfold of_nat. rewrite HK.
  rewrite B64_facts.INF_eq.
  assert (0 < 2 ^ 1074)%Z by (apply Z.pow_pos_nonneg; lia).
  assert (2 ^ 1074 <= 2 ^ 2045)%Z by (apply B64_facts.pow2_le; lia). nia.
Qed.

Lemma of_nat_succ n :
  (Z.of_nat n < 2 ^ 53)%Z -> (of_nat n + 1)%float = of_nat (S n).
Proof.
  intros Hn.
  destruct (B64_facts.of_nat_SF n ltac:(lia)) as [Sn Kn].
  destruct (B64_facts.of_nat_SF (S n) ltac:(lia)) as [Ss Ks].
  pose proof (of_nat_finite n ltac:(lia)) as Fn.
  fold (of_nat n) in Sn, Kn. fold (of_nat (S n)) in Ss, Ks.
  assert (F1 : (B64.K (B64.SF 1%float) < B64.INF)%Z).
  { rewrite K_one. unfold B64.INF. apply Z.pow_lt_mono_r; lia. }
  destruct (B64_facts.SFadd_K (B64.SF (of_nat n)) (B64.SF 1%float)
              (Prim2SF_valid _) (Prim2SF_valid _) Sn ltac:(rewrite SF_one; reflexivity) Fn F1)
    as [Sa Ka].
  unfold B64.SF in Sa, Ka at 1. rewrite <- FloatAxioms.add_spec in Sa, Ka.
  apply B64_facts.nonneg_K_inj; [exact Sa | exact Ss |].
  unfold B64.SF at 1. rewrite Ka, Kn, K_one, Ks.
  replace (Z.of_nat n * 2 ^ 1074 + 2 ^ 1074)%Z with (Z.of_nat (S n) * 2 ^ 1074)%Z by lia.
  rewrite B64_facts.G_exact_int by lia.
  apply B64_facts.min_INF_l. rewrite <- Ks. apply of_nat_finite. lia.
Qed.

Lemma of_nat_plus_0 n :
  (Z.of_nat n <= 2 ^ 53)%Z -> (of_nat n + 0)%float = of_nat n.
Proof.
  intros Hn.
  destruct (B64_facts.of_nat_SF n Hn) as [Sn Kn].
  pose proof (of_nat_finite n Hn) as Fn.
  fold (of_nat n) in Sn, Kn.
  destruct (B64_facts.SFadd_K (B64.SF (of_nat n)) (B64.SF 0%float)
              (Prim2SF_valid _) (Prim2SF_valid _) Sn ltac:(reflexivity) Fn B64_facts.INF_pos)
    as [Sa Ka].
  unfold B64.SF in Sa, Ka at 1. rewrite <- FloatAxioms.add_spec in Sa, Ka.
  apply B64_facts.nonneg_K_inj; [exact Sa | exact Sn |].
  unfold B64.SF at 1. rewrite Ka, Kn.
  change (B64.K (B64.SF 0%float)) with 0%Z. rewrite Z.add_0_r.
  destruct (Z.eq_dec (Z.of_nat n) 0) as [E|NE].
  - rewrite E, Z.mul_0_l, B64_facts.G_0 by lia. pose proof B64_facts.INF_pos. lia.
  - rewrite B64_facts.G_exact_int by lia.
    apply B64_facts.min_INF_l. rewrite <- Kn. exact Fn.
Qed.

(** The float sum of the 0/1 indicators is the count, exactly. *)
Lemma fold_indicators (threshold : float) (row : vec) (k : nat) :
  (Z.of_nat (k + length row) <= 2 ^ 53)%Z ->
  fold_left PrimFloat.add (map (fun x => cast_bool (greater x threshold)) row) (of_nat k)
  = of_nat (k + count_over threshold row).
Proof.
  revert k. induction row as [|x row IH]; intros k Hk; cbn [map fold_left length] in *.
  - unfold count_over. cbn. now rewrite Nat.add_0_r.
  - unfold count_over. cbn [filter]. destruct (greater x threshold); cbn [cast_bool length].
    + rewrite of_nat_succ by lia. rewrite IH by lia. f_equal. unfold count_over. lia.
    + rewrite of_nat_plus_0 by lia. rewrite IH by lia. reflexivity.
Qed.

Lemma reduce_sum_count (threshold : float) (row : vec) :
  (Z.of_nat (length row) <= 2 ^ 53)%Z ->
  reduce_sum (map (fun x => cast_bool (greater x threshold)) row)
  = of_nat (count_over threshold row).
Proof.
  intros H. unfold reduce_sum. rewrite <- of_nat_0.
  now rewrite fold_indicators.
Qed.

Lemma count_over_le (threshold : float) (row : vec) :
  count_over threshold row <= length row.
Proof. apply filter_length_le. Qed.

(** * The constraint rule *)

Lemma test_implausibility_countable : countable test_implausibility.
Proof.
  split.
  - repeat constructor.
  - cbn. intro H. discriminate H.
Defined.

Example test_constrain :
  constrain test_implausibility 0 3 = [true; true; true] /\
  constrain test_implausibility 0 0.5 = [true; false; false] /\
  constrain test_implausibility 0 1 = [true; true; true] /\
  constrain test_implausibility (2 / 5) 0.5 = [true; false; true] /\
  constrain test_implausibility (1 / 5) 0.5 = [true; false; true].
Proof. repeat split; vm_compute; reflexivity. Qed.

Lemma constrain_length (implausibility : matrix) (tolerance threshold : float) :
  length (constrain implausibility tolerance threshold) = nrows implausibility.
Proof. unfold constrain, nrows. apply length_map. Qed.

Lemma constrain_nth (implausibility : matrix) (tolerance threshold : float) i row :
  nth_error (rows implausibility) i = Some row ->
  nth_error (constrain implausibility tolerance threshold) i
  = Some (reduce_sum (map (fun x => cast_bool (greater x threshold)) row)
          <=? tolerance * of_nat (ncols implausibility))%float.
Proof.
  intros H. unfold constrain. exact (map_nth_error _ i _ H).
Qed.

Lemma countable_row (M : matrix) i row :
  countable M -> nth_error (rows M) i = Some row ->
  (Z.of_nat (length row) <= 2 ^ 53)%Z.
Proof.
  intros [Hw Hb] Hi. apply nth_error_In in Hi.
  unfold well_shaped in Hw. rewrite Forall_forall in Hw.
  rewrite (Hw row Hi). exact Hb.
Qed.

(** The decision for a row, with the exact count in place of the float sum. *)
Lemma constrain_nth_count (implausibility : matrix) (tolerance threshold : float) i row :
  countable implausibility ->
  nth_error (rows implausibility) i = Some row ->
  nth_error (constrain implausibility tolerance threshold) i
  = Some (of_nat (count_over threshold row)
          <=? tolerance * of_nat (ncols implausibility))%float.
Proof.
  intros HM Hi.
  rewrite (constrain_nth implausibility tolerance threshold i row Hi).
  rewrite reduce_sum_count by (eapply countable_row; eauto).
  reflexivity.
Qed.

(** C1. [constrain] returns one boolean per row, and the boolean of row [i]
    says whether the number of entries of the row strictly greater than the
    threshold is less than or equal to [tolerance * O], the product being
    the [float64] one that the code computes. *)
Theorem constrain_accepts_iff (implausibility : matrix) (tolerance threshold : float) :
  countable implausibility ->
  length (constrain implausibility tolerance threshold) = nrows implausibility /\
  forall i row,
    nth_error (rows implausibility) i = Some row ->
    nth_error (constrain implausibility tolerance threshold) i
    = Some (of_nat (count_over threshold row)
            <=? tolerance * of_nat (ncols implausibility))%float.
Proof.
  intros HM. split; [apply constrain_length|].
  intros i row Hi. now apply constrain_nth_count.
Qed.

Lemma constrain_accepts_iff_witness :
  length (constrain test_implausibility (2 / 5) 0.5) = 3 /\
  forall i row,
    nth_error (rows test_implausibility) i = Some row ->
    nth_error (constrain test_implausibility (2 / 5) 0.5) i
    = Some (of_nat (count_over 0.5 row) <=? (2 / 5) * of_nat 5)%float.
Proof.
  exact (constrain_accepts_iff test_implausibility (2 / 5) 0.5 test_implausibility_countable).
Defined.

Lemma is_nan_SF (x : float) : is_nan x = B64.is_nan_sf (B64.SF x).
Proof.
  unfold is_nan. rewrite FloatAxioms.eqb_spec. unfold SFeqb, B64.SF.
  destruct (B64.is_nan_sf (Prim2SF x)) eqn:N.
  - destruct (Prim2SF x); try discriminate. reflexivity.
  - rewrite (B64_facts.SFcompare_Ks _ _ (Prim2SF_valid x) (Prim2SF_valid x) N N).
    now rewrite Z.compare_refl.
Qed.

Lemma greater_nan_l (x threshold : float) : is_nan x = true -> greater x threshold = false.
Proof.
  intros Hx. unfold greater.
  destruct (threshold <? x)%float eqn:E; [|reflexivity].
  apply B64_facts.ltb_Ks in E. destruct E as (_ & N & _).
  rewrite is_nan_SF in Hx. congruence.
Qed.

Lemma count_over_app (threshold : float) (l1 l2 : vec) :
  count_over threshold (l1 ++ l2) = count_over threshold l1 + count_over threshold l2.
Proof. unfold count_over. now rewrite filter_app, length_app. Qed.

(** C7. A NaN entry is never counted as exceeding the threshold: its
    indicator is false, the count of its row is the count of the row without
    it, and so is the decision of [constrain], whatever the threshold and the
    tolerance. *)
Theorem constrain_ignores_nan (implausibility : matrix) (tolerance threshold : float)
    (i : nat) (l1 l2 : vec) (x : float) :
  is_nan x = true ->
  countable implausibility ->
  nth_error (rows implausibility) i = Some (l1 ++ x :: l2) ->
  greater x threshold = false /\
  count_over threshold (l1 ++ x :: l2) = count_over threshold (l1 ++ l2) /\
  nth_error (constrain implausibility tolerance threshold) i
  = Some (of_nat (count_over threshold (l1 ++ l2))
          <=? tolerance * of_nat (ncols implausibility))%float.
Proof.
  intros Hx HM Hi.
  pose proof (greater_nan_l x threshold Hx) as Hg.
  assert (Hc : count_over threshold (l1 ++ x :: l2) = count_over threshold (l1 ++ l2)).
  { rewrite !count_over_app. f_equal. unfold count_over. cbn [filter]. now rewrite Hg. }
  split; [exact Hg|]. split; [exact Hc|].
  rewrite (constrain_nth_count implausibility tolerance threshold i _ HM Hi), Hc.
  reflexivity.
Qed.

Lemma nan_is_nan : is_nan nan = true.
Proof. reflexivity. Defined.

Lemma constrain_ignores_nan_witness :
  greater nan 0.5 = false /\
  count_over 0.5 ([2] ++ nan :: [0])%float = count_over 0.5 ([2] ++ [0])%float /\
  nth_error (constrain (Mat 3 [[2; nan; 0]]%float) (1 / 3) 0.5) 0
  = Some (of_nat (count_over 0.5 ([2] ++ [0])%float) <=? (1 / 3) * of_nat 3)%float.
Proof.
  apply (constrain_ignores_nan (Mat 3 [[2; nan; 0]]%float) (1 / 3) 0.5 0 [2]%float [0]%float nan).
  - exact nan_is_nan.
  - split.
    + repeat constructor.
    + cbn. intro H. discriminate H.
  - reflexivity.
Defined.

(** C10. The decision for sample [i] depends on row [i], on the number of
    columns, on the tolerance and on the threshold only. *)
Theorem constrain_row_local (M1 M2 : matrix) (tolerance threshold : float) (i : nat) :
  ncols M1 = ncols M2 ->
  nth_error (rows M1) i = nth_error (rows M2) i ->
  nth_error (constrain M1 tolerance threshold) i
  = nth_error (constrain M2 tolerance threshold) i.
Proof.
  intros Hc Hr. unfold constrain. rewrite !nth_error_map, Hc.
  rewrite Hr. reflexivity.
Qed.

Lemma constrain_row_local_witness :
  nth_error (constrain (Mat 2 [[0; 4]; [1; 1]]%float) 0 3) 1
  = nth_error (constrain (Mat 2 [[9; 9]; [1; 1]; [5; 0]]%float) 0 3) 1.
Proof.
  apply (constrain_row_local (Mat 2 [[0; 4]; [1; 1]]%float)
                             (Mat 2 [[9; 9]; [1; 1]; [5; 0]]%float) 0 3 1).
  - reflexivity.
  - reflexivity.
Defined.

Lemma filter_length_mono {A} (f g : A -> bool) (l : list A) :
  (forall x, f x = true -> g x = true) ->
  length (filter f l) <= length (filter g l).
Proof.
  intros H. induction l as [|x l IH]; cbn [filter]; [lia|].
  destruct (f x) eqn:Ef.
  - rewrite (H x Ef). cbn [length]. lia.
  - destruct (g x); cbn [length]; lia.
Qed.

(** Raising the threshold can only lower the count. *)
Lemma count_over_antitone (threshold1 threshold2 : float) (row : vec) :
  (threshold1 <=? threshold2)%float = true ->
  count_over threshold2 row <= count_over threshold1 row.
Proof.
  intros H. apply filter_length_mono. intros x Hx. unfold greater in *.
  apply B64_facts.leb_Ks in H. apply B64_facts.ltb_Ks in Hx. apply B64_facts.ltb_Ks.
  destruct H as (N1 & N2 & H12), Hx as (_ & Nx & H2x).
  repeat split; try assumption. lia.
Qed.

Lemma of_nat_Ks (n : nat) :
  (Z.of_nat n <= 2 ^ 53)%Z ->
  B64.is_nan_sf (B64.SF (of_nat n)) = false /\
  B64.Ks (B64.SF (of_nat n)) = (Z.of_nat n * 2 ^ 1074)%Z.
Proof.
  intros Hn. destruct (B64_facts.of_nat_SF n Hn) as [Sn Kn]. fold (of_nat n) in Sn, Kn.
  split.
  - destruct (B64.SF (of_nat n)); cbn in *; try reflexivity. contradiction.
  - now rewrite B64_facts.Ks_nonneg.
Qed.

Lemma leb_of_nat_trans (m n : nat) (bound : float) :
  m <= n -> (Z.of_nat n <= 2 ^ 53)%Z ->
  (of_nat n <=? bound)%float = true -> (of_nat m <=? bound)%float = true.
Proof.
  intros Hmn Hn H. apply B64_facts.leb_Ks in H. apply B64_facts.leb_Ks.
  destruct H as (_ & Nb & H).
  destruct (of_nat_Ks n Hn) as [_ Kn]. destruct (of_nat_Ks m ltac:(lia)) as [Nm Km].
  rewrite Kn in H. rewrite Km.
  repeat split; try assumption.
  assert (0 < 2 ^ 1074)%Z by (apply Z.pow_pos_nonneg; lia). nia.
Qed.

(** A larger tolerance gives a larger bound [tolerance * O]. *)
Lemma leb_mul_of_nat_mono (count tolerance1 tolerance2 : float) (O : nat) :
  (Z.of_nat O <= 2 ^ 53)%Z ->
  (tolerance1 <=? tolerance2)%float = true ->
  (tolerance2 <? infinity)%float = true ->
  (count <=? tolerance1 * of_nat O)%float = true ->
  (count <=? tolerance2 * of_nat O)%float = true.
Proof.
  intros HO H12 Hfin H1.
  apply B64_facts.leb_Ks in H12. destruct H12 as (N1 & N2 & H12).
  apply B64_facts.ltb_Ks in Hfin. destruct Hfin as (_ & _ & Hfin).
  change (B64.Ks (B64.SF infinity)) with B64.INF in Hfin.
  apply B64_facts.leb_Ks in H1. destruct H1 as (Nc & N1c & H1).
  destruct (B64_facts.of_nat_SF O HO) as [SO KO]. fold (of_nat O) in SO, KO.
  pose proof (of_nat_finite O HO) as FO.
  unfold B64.SF in N1c, H1 at 2. rewrite FloatAxioms.mul_spec in N1c, H1.
  destruct (B64_facts.SFmul_mono (B64.SF tolerance1) (B64.SF tolerance2) (B64.SF (of_nat O))
              (Prim2SF_valid _) (Prim2SF_valid _) (Prim2SF_valid _) N1 N2 SO FO) as [N2c H2];
    try assumption.
  { rewrite KO. assert (0 < 2 ^ 1074)%Z by (apply Z.pow_pos_nonneg; lia).
    destruct O as [|O']; [left; reflexivity | right].
    assert (1 <= Z.of_nat (S O'))%Z by lia.
    rewrite <- (Z.mul_1_l (2 ^ 1074)) at 1.
    apply Z.mul_le_mono_nonneg_r; lia. }
  apply B64_facts.leb_Ks. unfold B64.SF in *. rewrite !FloatAxioms.mul_spec.
  repeat split; try assumption. lia.
Qed.

(** C5. [constrain] is monotone: a sample accepted at a tolerance is
    accepted at any larger tolerance below +infinity (as a fraction of the
    observations is), and a sample accepted at a threshold is accepted at
    any larger threshold. *)
Theorem constrain_monotone (implausibility : matrix) (i : nat) :
  countable implausibility ->
  (forall threshold tolerance1 tolerance2,
      (tolerance1 <=? tolerance2)%float = true ->
      (tolerance2 <? infinity)%float = true ->
      nth_error (constrain implausibility tolerance1 threshold) i = Some true ->
      nth_error (constrain implausibility tolerance2 threshold) i = Some true) /\
  (forall tolerance threshold1 threshold2,
      (threshold1 <=? threshold2)%float = true ->
      nth_error (constrain implausibility tolerance threshold1) i = Some true ->
      nth_error (constrain implausibility tolerance threshold2) i = Some true).
Proof.
  intros HM. split.
  - intros threshold tolerance1 tolerance2 H12 Hfin H1.
    destruct (nth_error (rows implausibility) i) as [row|] eqn:Hi.
    + rewrite (constrain_nth implausibility tolerance1 threshold i row Hi) in H1.
      rewrite (constrain_nth implausibility tolerance2 threshold i row Hi).
      f_equal. injection H1 as H1.
      apply (leb_mul_of_nat_mono _ tolerance1 tolerance2); try assumption.
      apply HM.
    + apply nth_error_None in Hi.
      assert (nth_error (constrain implausibility tolerance1 threshold) i = None)
        by (apply nth_error_None; rewrite constrain_length; exact Hi).
      congruence.
  - intros tolerance threshold1 threshold2 H12 H1.
    destruct (nth_error (rows implausibility) i) as [row|] eqn:Hi.
    + rewrite (constrain_nth_count implausibility tolerance threshold1 i row HM Hi) in H1.
      rewrite (constrain_nth_count implausibility tolerance threshold2 i row HM Hi).
      f_equal. injection H1 as H1.
      apply (leb_of_nat_trans (count_over threshold2 row) (count_over threshold1 row)).
      * now apply count_over_antitone.
      * pose proof (count_over_le threshold1 row).
        pose proof (countable_row implausibility i row HM Hi). lia.
      * exact H1.
    + apply nth_error_None in Hi.
      assert (nth_error (constrain implausibility tolerance threshold1) i = None)
        by (apply nth_error_None; rewrite constrain_length; exact Hi).
      congruence.
Qed.

Lemma constrain_monotone_witness :
  nth_error (constrain test_implausibility (2 / 5) 0.5) 2 = Some true /\
  nth_error (constrain test_implausibility (1 / 5) 1) 2 = Some true.
Proof.
  destruct (constrain_monotone test_implausibility 2 test_implausibility_countable)
    as [Htol Hthr].
  split.
  - apply (Htol 0.5 (1 / 5) (2 / 5))%float; reflexivity.
  - apply (Hthr (1 / 5) 0.5 1)%float; reflexivity.
Defined.

(** * Broadcasting of tensors of matching shapes *)

Lemma stretch_same {A} (n : nat) (l : list A) : length l = n -> stretch n l = l.
Proof.
  intros H. destruct l as [|x [|y l]]; try reflexivity.
  cbn in H. subst n. reflexivity.
Qed.

Lemma zip_with_length {A B C} (f : A -> B -> C) (l1 : list A) (l2 : list B) :
  length (zip_with f l1 l2) = Nat.min (length l1) (length l2).
Proof.
  revert l2. induction l1 as [|a l1 IH]; intros [|b l2]; cbn; try reflexivity.
  now rewrite IH.
Qed.

Lemma zip_with_nth_error {A B C} (f : A -> B -> C) (l1 : list A) (l2 : list B) (i : nat) :
  nth_error (zip_with f l1 l2) i =
  match nth_error l1 i, nth_error l2 i with
  | Some a, Some b => Some (f a b)
  | _, _ => None
  end.
Proof.
  revert l2 i. induction l1 as [|a l1 IH]; intros [|b l2] [|i]; cbn; try reflexivity.
  - destruct (nth_error l1 i); reflexivity.
  - apply IH.
Qed.

Lemma zip_with_repeat_r {A B C} (f : A -> B -> C) (l : list A) (y : B) (n : nat) :
  length l = n -> zip_with f l (repeat y n) = map (fun x => f x y) l.
Proof.
  revert n. induction l as [|a l IH]; intros n H; cbn in *; subst n; cbn; [reflexivity|].
  f_equal. now apply IH.
Qed.

Lemma zip_with_ext_in {A B C} (f g : A -> B -> C) (l1 : list A) (l2 : list B) :
  (forall a b, In a l1 -> In b l2 -> f a b = g a b) ->
  zip_with f l1 l2 = zip_with g l1 l2.
Proof.
  revert l2. induction l1 as [|a l1 IH]; intros [|b l2] H; cbn; try reflexivity.
  f_equal.
  - apply H; now left.
  - apply IH. intros; apply H; now right.
Qed.

Lemma bdim_same (n : nat) : bdim n n = Some n.
Proof. unfold bdim. now rewrite Nat.eqb_refl. Qed.

Lemma bdim_1_r (n : nat) : bdim n 1 = Some n.
Proof.
  unfold bdim. destruct (Nat.eqb_spec n 1) as [->|H]; [reflexivity|].
  reflexivity.
Qed.

Lemma bdim_None (a b : nat) : bdim a b = None <-> a <> b /\ a <> 1 /\ b <> 1.
Proof.
  unfold bdim.
  destruct (Nat.eqb_spec a b), (Nat.eqb_spec a 1), (Nat.eqb_spec b 1);
    split; intros H; try discriminate; try reflexivity; try tauto; try lia.
Qed.

Lemma bdim_Some (a b c : nat) :
  bdim a b = Some c -> (a = b /\ c = a) \/ (a = 1 /\ c = b) \/ (b = 1 /\ c = a).
Proof.
  unfold bdim.
  destruct (Nat.eqb_spec a b), (Nat.eqb_spec a 1), (Nat.eqb_spec b 1);
    intros H; inversion H; subst; auto.
Qed.

(** Two tensors of the same shape are combined entry by entry. *)
Lemma broadcast2_same_shape (op : float -> float -> float) (A B : matrix) :
  well_shaped A -> well_shaped B -> nrows A = nrows B -> ncols A = ncols B ->
  broadcast2 op A B = Ok (Mat (ncols A) (zip_with (zip_with op) (rows A) (rows B))).
Proof.
  intros WA WB Hr Hc. unfold broadcast2.
  rewrite Hr, Hc, !bdim_same. rewrite <- Hc. f_equal. f_equal.
  rewrite !stretch_same by (unfold nrows in *; lia).
  apply zip_with_ext_in. intros u v Hu Hv.
  unfold well_shaped in *. rewrite Forall_forall in WA, WB.
  rewrite !stretch_same; auto. rewrite Hc. auto.
Qed.

(** A vector is combined with every row of a tensor as wide as it. *)
Lemma broadcast2_row (op : float -> float -> float) (A : matrix) (v : vec) :
  well_shaped A -> ncols A = length v ->
  broadcast2 op A (as_row v) = Ok (Mat (ncols A) (map (fun u => zip_with op u v) (rows A))).
Proof.
  intros WA Hc. unfold broadcast2, as_row. cbn [nrows ncols rows length].
  rewrite bdim_1_r, <- Hc, bdim_same. f_equal. f_equal.
  rewrite stretch_same by reflexivity. cbn [stretch].
  rewrite zip_with_repeat_r by reflexivity.
  apply map_ext_in. intros u Hu.
  unfold well_shaped in WA. rewrite Forall_forall in WA.
  rewrite !stretch_same; auto.
Qed.

Lemma well_shaped_map_matrix (f : float -> float) (M : matrix) :
  well_shaped M -> well_shaped (map_matrix f M).
Proof.
  unfold well_shaped, map_matrix. cbn. intros H.
  apply Forall_map. eapply Forall_impl; [|exact H].
  intros r Hr. cbn. now rewrite length_map.
Qed.

(** * Implausibility *)

Example test_calc_implausibility :
  _calc_implausibility (as_row [1; 1; 2; 1; -2]%float) [1; 1; 1; 2; 1]%float
                       (as_row [1; 2; 1; 1; 1]%float)
  = Ok (as_row [0; 0; 1; 1; 3]%float) /\
  _calc_implausibility (as_row [1]%float) [1]%float (as_row [1]%float) = Ok (as_row [0]%float) /\
  _calc_implausibility (as_row [1]%float) [1]%float (as_row [0]%float) = Ok (as_row [nan]).
Proof. repeat split; vm_compute; reflexivity. Qed.

Lemma eqb_zero_SF (s : float) :
  (s =? 0)%float = true <-> exists sg, B64.SF s = S754_zero sg.
Proof.
  rewrite FloatAxioms.eqb_spec. unfold B64.SF.
  change (Prim2SF 0) with (S754_zero false).
  destruct (Prim2SF s) as [sg|sg| |sg m e]; cbn.
  - split; [intros _; now exists sg | reflexivity].
  - destruct sg; (split; [discriminate | intros [? H]; discriminate H]).
  - split; [discriminate | intros [? H]; discriminate H].
  - destruct sg; (split; [discriminate | intros [? H]; discriminate H]).
Qed.

(** Division by a zero: NaN for a zero or NaN numerator, an infinity
    otherwise. *)
Lemma div_abs_by_zero (d s : float) :
  (s =? 0)%float = true ->
  is_nan (abs d / s)%float = (is_nan d || (d =? 0)%float) /\
  (is_nan (abs d / s)%float = false ->
   (abs d / s)%float = infinity \/ (abs d / s)%float = neg_infinity).
Proof.
  intros Hs. apply eqb_zero_SF in Hs. destruct Hs as [sg Hs].
  assert (Hd0 : (d =? 0)%float = match B64.SF d with S754_zero _ => true | _ => false end).
  { rewrite FloatAxioms.eqb_spec. unfold B64.SF.
    change (Prim2SF 0) with (S754_zero false).
    destruct (Prim2SF d) as [s0|s0| |s0 m e]; cbn; try reflexivity; destruct s0; reflexivity. }
  rewrite !is_nan_SF, Hd0. unfold B64.SF in *.
  assert (E : Prim2SF (abs d / s)%float = SF64div (SFabs (Prim2SF d)) (S754_zero sg)).
  { now rewrite FloatAxioms.div_spec, FloatAxioms.abs_spec, Hs. }
  rewrite E.
  destruct (Prim2SF d) as [s0|s0| |s0 m e]; cbn in *; split; try reflexivity; try discriminate;
    intros _; destruct sg; cbn in E;
    ((left; apply Prim2SF_inj; rewrite E; reflexivity)
     || (right; apply Prim2SF_inj; rewrite E; reflexivity)).
Qed.

Lemma entry_map_matrix (f : float -> float) (M : matrix) (i j : nat) :
  entry (map_matrix f M) i j = option_map f (entry M i j).
Proof.
  unfold entry, map_matrix. cbn [rows]. rewrite nth_error_map.
  destruct (nth_error (rows M) i) as [r|]; cbn; [|reflexivity].
  apply nth_error_map.
Qed.

Lemma entry_zip (op : float -> float -> float) (c : nat) (A B : list vec) (i j : nat) :
  entry (Mat c (zip_with (zip_with op) A B)) i j =
  match entry (Mat c A) i j, entry (Mat c B) i j with
  | Some a, Some b => Some (op a b)
  | _, _ => None
  end.
Proof.
  unfold entry. cbn [rows]. rewrite zip_with_nth_error.
  destruct (nth_error A i) as [u|], (nth_error B i) as [v|]; try reflexivity.
  - apply zip_with_nth_error.
  - destruct (nth_error u j); reflexivity.
Qed.

Lemma entry_Mat (c c' : nat) (l : list vec) (i j : nat) :
  entry (Mat c l) i j = entry (Mat c' l) i j.
Proof. reflexivity. Qed.

Lemma calc_implausibility_value (emulator_mean : matrix) (obs : vec) (tot_sd : matrix) :
  matching_shapes emulator_mean obs tot_sd ->
  _calc_implausibility emulator_mean obs tot_sd =
  Ok (Mat (length obs)
          (zip_with (zip_with PrimFloat.div)
                    (map (map abs) (map (fun u => zip_with PrimFloat.sub u obs) (rows emulator_mean)))
                    (rows tot_sd))).
Proof.
  intros (WM & WS & HcM & HcS & Hr). unfold _calc_implausibility.
  rewrite (broadcast2_row PrimFloat.sub emulator_mean obs WM HcM). cbn [bind].
  rewrite broadcast2_same_shape.
  - cbn [map_matrix ncols rows]. now rewrite HcM.
  - apply well_shaped_map_matrix. unfold well_shaped. cbn [rows ncols].
    apply Forall_map. unfold well_shaped in WM. eapply Forall_impl; [|exact WM].
    intros r Hr'. cbn. rewrite zip_with_length, Hr', HcM. apply Nat.min_id.
  - exact WS.
  - unfold nrows, map_matrix. cbn [rows]. rewrite !length_map. symmetry. exact Hr.
  - cbn [map_matrix ncols]. congruence.
Qed.

(** C2, as the code has it.  For inputs of matching shapes the result is
    [|m - o| / s] entry by entry, with the IEEE 754 division; at an entry
    where [s == 0] this is NaN exactly when the difference [m - o] is a
    zero or NaN, and an infinity otherwise. *)
Theorem calc_implausibility_entries (emulator_mean : matrix) (obs : vec) (tot_sd : matrix) :
  matching_shapes emulator_mean obs tot_sd ->
  exists R,
    _calc_implausibility emulator_mean obs tot_sd = Ok R /\
    nrows R = nrows emulator_mean /\ ncols R = length obs /\
    forall i j m o s,
      entry emulator_mean i j = Some m -> nth_error obs j = Some o ->
      entry tot_sd i j = Some s ->
      entry R i j = Some (abs (m - o) / s)%float /\
      ((s =? 0)%float = true ->
       is_nan (abs (m - o) / s)%float = (is_nan (m - o)%float || (m - o =? 0)%float) /\
       (is_nan (abs (m - o) / s)%float = false ->
        (abs (m - o) / s)%float = infinity \/ (abs (m - o) / s)%float = neg_infinity)).
Proof.
  intros HS. rewrite (calc_implausibility_value emulator_mean obs tot_sd HS).
  destruct HS as (WM & WS & HcM & HcS & Hr).
  eexists. split; [reflexivity|]. split; [|split].
  - unfold nrows in *. cbn [rows]. rewrite zip_with_length, !length_map, Hr. apply Nat.min_id.
  - reflexivity.
  - intros i j m o s Hm Ho Hs. split; [|apply div_abs_by_zero].
    rewrite entry_zip.
    rewrite (entry_Mat _ (ncols tot_sd) (rows tot_sd)).
    assert (Hs' : entry (Mat (ncols tot_sd) (rows tot_sd)) i j = Some s) by exact Hs.
    rewrite Hs'.
    change (Mat (length obs) (map (map abs) (map (fun u => zip_with PrimFloat.sub u obs) (rows emulator_mean))))
      with (map_matrix abs (Mat (length obs) (map (fun u => zip_with PrimFloat.sub u obs) (rows emulator_mean)))).
    rewrite entry_map_matrix.
    unfold entry in *. cbn [rows]. rewrite nth_error_map.
    destruct (nth_error (rows emulator_mean) i) as [u|]; [|discriminate]. cbn [option_map].
    rewrite zip_with_nth_error, Hm, Ho. reflexivity.
Qed.

Lemma calc_implausibility_entries_witness :
  exists R,
    _calc_implausibility (Mat 2 [[1; 3]; [2; 2]]%float) [1; 1]%float (Mat 2 [[1; 2]; [0; 0]]%float)
    = Ok R /\
    nrows R = 2 /\ ncols R = 2 /\
    forall i j m o s,
      entry (Mat 2 [[1; 3]; [2; 2]]%float) i j = Some m -> nth_error [1; 1]%float j = Some o ->
      entry (Mat 2 [[1; 2]; [0; 0]]%float) i j = Some s ->
      entry R i j = Some (abs (m - o) / s)%float /\
      ((s =? 0)%float = true ->
       is_nan (abs (m - o) / s)%float = (is_nan (m - o)%float || (m - o =? 0)%float) /\
       (is_nan (abs (m - o) / s)%float = false ->
        (abs (m - o) / s)%float = infinity \/ (abs (m - o) / s)%float = neg_infinity)).
Proof.
  apply (calc_implausibility_entries (Mat 2 [[1; 3]; [2; 2]]%float) [1; 1]%float
                                     (Mat 2 [[1; 2]; [0; 0]]%float)).
  repeat split; repeat constructor.
Defined.

(** A zero standard deviation under a non-zero difference gives an infinite
    implausibility, not NaN. *)
Lemma calc_implausibility_zero_sd_infinite :
  _calc_implausibility (as_row [2]%float) [1]%float (as_row [0]%float)
  = Ok (as_row [infinity]) /\
  (0 =? 0)%float = true /\ is_nan infinity = false.
Proof. repeat split; vm_compute; reflexivity. Qed.

(** * The total variance *)

Lemma zip_with_map {A B C D} (f : A -> B -> C) (g : C -> D) (l1 : list A) (l2 : list B) :
  map g (zip_with f l1 l2) = zip_with (fun a b => g (f a b)) l1 l2.
Proof.
  revert l2. induction l1 as [|a l1 IH]; intros [|b l2]; cbn; try reflexivity.
  now rewrite IH.
Qed.

Lemma variance_length (obs : vec) (unc : uncertainty) :
  per_observation (length obs) unc -> length (variance obs unc) = length obs.
Proof.
  destruct unc as [u|u]; cbn; intros H.
  - apply length_map.
  - rewrite zip_with_length, H. apply Nat.min_id.
Qed.


Lemma source_var_value (obs : vec) (unc : uncertainty) :
  per_observation (length obs) unc ->
  source_var obs unc = Ok (Mat (length obs) [variance obs unc]).
Proof.
  intros H. pose proof (variance_length obs unc H) as Hl.
  destruct unc as [u|u]; cbn in *; unfold source_var, np_multiply.
  - cbn [bind]. unfold reshape_row, np_square.
    rewrite map_map in *. fold square. unfold square in *.
    rewrite Hl, Nat.eqb_refl. reflexivity.
  - unfold broadcast1. rewrite H, bdim_same. cbn [bind].
    rewrite !stretch_same by auto.
    unfold reshape_row, np_square. rewrite zip_with_map. unfold square in *.
    rewrite Hl, Nat.eqb_refl. reflexivity.
Qed.

Lemma well_shaped_row (v : vec) (n : nat) : length v = n -> well_shaped (Mat n [v]).
Proof. intros H. unfold well_shaped. cbn. repeat constructor. exact H. Qed.

Lemma add_rows (u v : vec) (n : nat) :
  length u = n -> length v = n ->
  broadcast2 PrimFloat.add (Mat n [u]) (Mat n [v]) = Ok (Mat n [zip_with PrimFloat.add u v]).
Proof.
  intros Hu Hv.
  rewrite broadcast2_same_shape; auto using well_shaped_row.
Qed.

Lemma total_var_value (obs : vec) (uo ui ur us : uncertainty) :
  per_observation (length obs) uo -> per_observation (length obs) ui ->
  per_observation (length obs) ur -> per_observation (length obs) us ->
  total_var obs uo ui ur us =
  Ok (Mat (length obs)
        [zip_with PrimFloat.add
           (zip_with PrimFloat.add
              (zip_with PrimFloat.add (map (fun x => 0 + x)%float (variance obs uo))
                                      (variance obs ur))
              (variance obs ui))
           (variance obs us)]).
Proof.
  intros Ho Hi Hr Hs. unfold total_var.
  rewrite !source_var_value by assumption. cbn [bind py_sum foldM].
  unfold map_matrix. cbn [ncols rows map].
  pose proof (variance_length obs uo Ho). pose proof (variance_length obs ui Hi).
  pose proof (variance_length obs ur Hr). pose proof (variance_length obs us Hs).
  rewrite add_rows by (rewrite ?length_map; assumption). cbn [bind].
  rewrite add_rows
    by (rewrite ?zip_with_length, ?length_map; try assumption; lia). cbn [bind].
  rewrite add_rows
    by (rewrite ?zip_with_length, ?length_map; try assumption; lia).
  reflexivity.
Qed.


Lemma is_finite_SF (o : float) :
  is_finite o = true ->
  match B64.SF o with S754_zero _ | S754_finite _ _ _ => True | _ => False end.
Proof.
  unfold is_finite, is_infinity. rewrite is_nan_SF, FloatAxioms.eqb_spec, FloatAxioms.abs_spec.
  unfold B64.SF. change (Prim2SF infinity) with (S754_infinity false).
  destruct (Prim2SF o) as [s|s| |s m e]; cbn; intros H; try exact I; discriminate.
Qed.

(** An observation times a zero uncertainty has variance [+0]. *)
Lemma square_zero_uncertainty (o u : float) :
  is_finite o = true -> (u =? 0)%float = true -> square (o * u) = 0%float.
Proof.
  intros Ho Hu. apply is_finite_SF in Ho. apply eqb_zero_SF in Hu. destruct Hu as [sg Hu].
  apply Prim2SF_inj. unfold square. rewrite !FloatAxioms.mul_spec.
  unfold B64.SF in *. rewrite Hu.
  destruct (Prim2SF o) as [s|s| |s m e]; try contradiction; cbn;
    now rewrite xorb_nilpotent.
Qed.

Lemma variance_zero (obs : vec) (unc : uncertainty) :
  per_observation (length obs) unc -> zero_uncertainty unc ->
  Forall (fun o => is_finite o = true) obs ->
  variance obs unc = repeat 0%float (length obs).
Proof.
  intros Hp Hz Hf. destruct unc as [u|u]; cbn [variance per_observation zero_uncertainty] in *.
  - induction Hf as [|o obs Ho Hf IH]; cbn [map length repeat]; [reflexivity|].
    now rewrite square_zero_uncertainty, IH.
  - revert u Hp Hz. induction Hf as [|o obs Ho Hf IH]; intros [|x u] Hp Hz;
      cbn [zip_with length repeat] in *; try discriminate; [reflexivity|].
    inversion Hz; subst.
    rewrite square_zero_uncertainty by assumption. f_equal. apply IH; [lia | assumption].
Qed.


Lemma map_repeat {A B} (f : A -> B) (a : A) (n : nat) : map f (repeat a n) = repeat (f a) n.
Proof. induction n; cbn; [reflexivity | now rewrite IHn]. Qed.



Example total_var_all_zero :
  total_var [2; 3; -1]%float (Scalar 0) (Scalar 0) (Vector [0; 0; 0]%float) (Scalar (-0))
  = Ok (Mat 3 [[0; 0; 0]%float]).
Proof. vm_compute. reflexivity. Qed.


(** * Shape mismatches *)

Lemma source_var_vector_one (obs : vec) (x : float) :
  source_var obs (Vector [x]) = source_var obs (Scalar x).
Proof.
  unfold source_var, np_multiply, broadcast1. cbn [length].
  rewrite bdim_1_r. cbn [stretch].
  rewrite stretch_same by reflexivity.
  now rewrite zip_with_repeat_r by reflexivity.
Qed.

Lemma source_var_as_scalar (obs : vec) (unc : uncertainty) :
  source_var obs (as_scalar unc) = source_var obs unc.
Proof.
  destruct unc as [u|[|x [|y u]]]; cbn [as_scalar]; try reflexivity.
  symmetry. apply source_var_vector_one.
Qed.

Lemma broadcastable_as_scalar (O : nat) (unc : uncertainty) :
  broadcastable O unc -> per_observation O (as_scalar unc).
Proof.
  destruct unc as [u|[|x [|y u]]]; cbn; intros H; try exact I.
  - destruct H as [H|H]; [exact H | discriminate].
  - destruct H as [H|H]; [exact H | discriminate].
Qed.

Lemma stretch_length {A} (n : nat) (l : list A) :
  length l = n \/ length l = 1 -> length (stretch n l) = n.
Proof.
  intros H. destruct l as [|x [|y l]]; cbn in *.
  - destruct H; [assumption | discriminate].
  - apply repeat_length.
  - destruct H; [assumption | discriminate].
Qed.

(** A vector whose length is neither [O] nor 1 makes [source_var] raise,
    with the two lengths in the error. *)
Lemma source_var_mismatch (obs u : vec) :
  length u <> length obs -> length u <> 1 ->
  source_var obs (Vector u) =
  Raise (if length obs =? 1 then ReshapeError (length u) [1; 1]
         else BroadcastError [length obs] [length u]).
Proof.
  intros HO H1. unfold source_var, np_multiply, broadcast1.
  destruct (Nat.eqb_spec (length obs) 1) as [E|NE].
  - rewrite E. unfold bdim.
    destruct (Nat.eqb_spec 1 (length u)); [congruence|]. cbn [Nat.eqb bind].
    unfold reshape_row, np_square.
    rewrite length_map, zip_with_length.
    rewrite (stretch_length (length u) obs) by (right; exact E).
    rewrite (stretch_same (length u) u) by reflexivity.
    rewrite Nat.min_id.
    destruct (Nat.eqb_spec (length u) 1); [congruence | reflexivity].
  - assert (Hb : bdim (length obs) (length u) = None) by (apply bdim_None; auto).
    rewrite Hb. reflexivity.
Qed.

Lemma source_var_ok_iff (obs : vec) (unc : uncertainty) :
  (exists M, source_var obs unc = Ok M) <-> broadcastable (length obs) unc.
Proof.
  split.
  - intros [M HM]. destruct unc as [x|u]; cbn; [exact I|].
    destruct (Nat.eq_dec (length u) (length obs)) as [E|NE]; [now left|].
    destruct (Nat.eq_dec (length u) 1) as [E1|NE1]; [now right|].
    rewrite (source_var_mismatch obs u NE NE1) in HM. discriminate.
  - intros H. rewrite <- source_var_as_scalar.
    rewrite source_var_value by now apply broadcastable_as_scalar.
    eexists. reflexivity.
Qed.

Lemma total_var_as_scalar (obs : vec) (uo ui ur us : uncertainty) :
  total_var obs (as_scalar uo) (as_scalar ui) (as_scalar ur) (as_scalar us)
  = total_var obs uo ui ur us.
Proof. unfold total_var. now rewrite !source_var_as_scalar. Qed.

Lemma total_var_ok_iff (obs : vec) (uo ui ur us : uncertainty) :
  (exists M, total_var obs uo ui ur us = Ok M) <->
  broadcastable (length obs) uo /\ broadcastable (length obs) ui /\
  broadcastable (length obs) ur /\ broadcastable (length obs) us.
Proof.
  split.
  - intros [M HM]. unfold total_var in HM.
    destruct (source_var obs uo) as [Mo|] eqn:Eo; [|discriminate].
    destruct (source_var obs ur) as [Mr|] eqn:Er; [|discriminate].
    destruct (source_var obs ui) as [Mi|] eqn:Ei; [|discriminate].
    destruct (source_var obs us) as [Ms|] eqn:Es; [|discriminate].
    repeat split; apply source_var_ok_iff; eauto.
  - intros (Ho & Hi & Hr & Hs). rewrite <- total_var_as_scalar.
    rewrite total_var_value by now apply broadcastable_as_scalar.
    eexists. reflexivity.
Qed.

Lemma bdim_Some_l (a b c : nat) : bdim a b = Some c -> a = c \/ a = 1.
Proof. intros H. apply bdim_Some in H. lia. Qed.

Lemma bdim_Some_r (a b c : nat) : bdim a b = Some c -> b = c \/ b = 1.
Proof. intros H. apply bdim_Some in H. lia. Qed.

(** Two tensors whose dimensions broadcast give a tensor of the broadcast
    shape. *)
Lemma broadcast2_ok (op : float -> float -> float) (A B : matrix) (r c : nat) :
  bdim (nrows A) (nrows B) = Some r -> bdim (ncols A) (ncols B) = Some c ->
  exists R, broadcast2 op A B = Ok R /\ nrows R = r /\ ncols R = c.
Proof.
  intros Hr Hc. unfold broadcast2. rewrite Hr, Hc.
  eexists. split; [reflexivity|]. split; [|reflexivity].
  unfold nrows at 1. cbn [rows]. rewrite zip_with_length.
  rewrite !stretch_length; [apply Nat.min_id | |].
  - eapply bdim_Some_r; eassumption.
  - eapply bdim_Some_l; eassumption.
Qed.

Lemma broadcast2_raise (op : float -> float -> float) (A B : matrix) :
  bdim (ncols A) (ncols B) = None ->
  broadcast2 op A B = Raise (BroadcastError (shape A) (shape B)).
Proof.
  intros H. unfold broadcast2. rewrite H.
  destruct (bdim (nrows A) (nrows B)); reflexivity.
Qed.

Lemma calc_implausibility_shapes (emulator_mean : matrix) (obs : vec) (tot_sd : matrix) :
  well_shaped emulator_mean -> well_shaped tot_sd ->
  shape tot_sd = shape emulator_mean ->
  match bdim (ncols emulator_mean) (length obs) with
  | None => _calc_implausibility emulator_mean obs tot_sd
            = Raise (BroadcastError (shape emulator_mean) [1; length obs])
  | Some c => exists R, _calc_implausibility emulator_mean obs tot_sd = Ok R /\
                        nrows R = nrows emulator_mean /\ ncols R = c
  end.
Proof.
  intros WM WS HS. unfold shape in HS. injection HS as Hr Hc.
  unfold _calc_implausibility.
  destruct (bdim (ncols emulator_mean) (length obs)) as [c|] eqn:Hb.
  - destruct (broadcast2_ok PrimFloat.sub emulator_mean (as_row obs)
                (nrows emulator_mean) c (bdim_1_r _) Hb) as (d & Hd & Hdr & Hdc).
    rewrite Hd. cbn [bind].
    apply broadcast2_ok.
    + unfold nrows, map_matrix in *. cbn [rows]. rewrite length_map, Hdr, Hr.
      apply bdim_same.
    + cbn [map_matrix ncols]. rewrite Hdc, Hc.
      apply bdim_Some in Hb. destruct Hb as [[? ->]|[[E ->]|[? ->]]].
      * apply bdim_same.
      * rewrite E. apply bdim_1_r.
      * apply bdim_same.
  - rewrite broadcast2_raise by exact Hb. reflexivity.
Qed.

(** C9, as the code has it.  Nothing checks shapes: NumPy and TensorFlow
    broadcasting decides.  The construction succeeds exactly when every
    uncertainty is a scalar or a vector of length [O] or 1, and a vector of
    another length raises an error that carries the two lengths; the
    implausibility of a prediction with [O'] columns raises, with the two
    shapes, exactly when [O' <> O] and neither is 1, and returns a result
    otherwise. *)
Theorem shape_mismatch_unless_broadcast (obs : vec) (uo ui ur us : uncertainty)
    (emulator_mean tot_sd : matrix) :
  well_shaped emulator_mean -> well_shaped tot_sd ->
  shape tot_sd = shape emulator_mean ->
  ((exists M, total_var obs uo ui ur us = Ok M) <->
   broadcastable (length obs) uo /\ broadcastable (length obs) ui /\
   broadcastable (length obs) ur /\ broadcastable (length obs) us) /\
  (forall u, length u <> length obs -> length u <> 1 ->
     source_var obs (Vector u) =
     Raise (if length obs =? 1 then ReshapeError (length u) [1; 1]
            else BroadcastError [length obs] [length u])) /\
  (ncols emulator_mean <> length obs /\ ncols emulator_mean <> 1 /\ length obs <> 1 ->
   _calc_implausibility emulator_mean obs tot_sd
   = Raise (BroadcastError (shape emulator_mean) [1; length obs])) /\
  (ncols emulator_mean = length obs \/ ncols emulator_mean = 1 \/ length obs = 1 ->
   exists R, _calc_implausibility emulator_mean obs tot_sd = Ok R /\
             nrows R = nrows emulator_mean).
Proof.
  intros WM WS HS.
  pose proof (calc_implausibility_shapes emulator_mean obs tot_sd WM WS HS) as Hcalc.
  split; [apply total_var_ok_iff|]. split; [apply source_var_mismatch|]. split.
  - intros Hbad. apply bdim_None in Hbad. now rewrite Hbad in Hcalc.
  - intros Hgood.
    destruct (bdim (ncols emulator_mean) (length obs)) as [c|] eqn:Hb.
    + destruct Hcalc as (R & HR & Hn & _). now exists R.
    + apply bdim_None in Hb. lia.
Qed.

Lemma shape_mismatch_unless_broadcast_witness :
  total_var [1; 2; 3]%float (Vector [0.5; 1]%float) (Scalar 0) (Scalar 0) (Scalar 0)
  = Raise (BroadcastError [3] [2]) /\
  _calc_implausibility (Mat 2 [[1; 2]]%float) [1; 2; 3]%float (Mat 2 [[1; 1]]%float)
  = Raise (BroadcastError [1; 2] [1; 3]).
Proof.
  destruct (shape_mismatch_unless_broadcast [1; 2; 3]%float
              (Vector [0.5; 1]%float) (Scalar 0) (Scalar 0) (Scalar 0)
              (Mat 2 [[1; 2]]%float) (Mat 2 [[1; 1]]%float))
    as (_ & Hsrc & Hraise & _).
  - repeat constructor.
  - repeat constructor.
  - reflexivity.
  - split.
    + unfold total_var. rewrite (Hsrc [0.5; 1]%float); [reflexivity | discriminate | discriminate].
    + apply Hraise. repeat split; discriminate.
Defined.

(** An uncertainty vector of length 1 against two observations, and a
    prediction with one column against two observations: both are broadcast
    and a result is returned. *)
Lemma length_one_broadcasts_silently :
  total_var [1; 2]%float (Vector [0.5]%float) (Scalar 0) (Scalar 0) (Scalar 0)
  = Ok (Mat 2 [[0.25; 1]%float]) /\
  _calc_implausibility (as_row [1]%float) [1; 2]%float (as_row [1]%float)
  = Ok (Mat 2 [[0; 1]%float]).
Proof. split; vm_compute; reflexivity. Qed.

(** * Batch evaluation *)

Lemma batch_from_concat (b : nat) (cur : list vec) (k : nat) (l : list vec) :
  concat (batch_from b cur k l) = rev cur ++ l.
Proof.
  revert cur k. induction l as [|x l IH]; intros cur k; cbn [batch_from].
  - destruct cur; cbn [concat]; now rewrite ?app_nil_r.
  - destruct (S k =? b).
    + cbn [concat]. rewrite IH. cbn [rev app]. now rewrite <- app_assoc.
    + rewrite IH. cbn [rev]. now rewrite <- app_assoc.
Qed.

Lemma batch_from_nil (b : nat) (cur : list vec) (k : nat) (l : list vec) :
  batch_from b cur k l = [] -> cur = [] /\ l = [].
Proof.
  revert cur k. induction l as [|x l IH]; intros cur k; cbn [batch_from].
  - destruct cur; [auto | discriminate].
  - destruct (S k =? b); [discriminate|].
    intros H. apply IH in H. destruct H; discriminate.
Qed.

(** The batches, put end to end, are the sample points in their order. *)
Lemma batch_rows (b : nat) (sample_points : matrix) (dataset : list matrix) :
  batch b sample_points = Ok dataset ->
  concat (map rows dataset) = rows sample_points /\
  Forall (fun data => ncols data = ncols sample_points) dataset /\
  (dataset = [] <-> rows sample_points = []).
Proof.
  unfold batch. destruct b as [|b]; [discriminate|]. intros H. injection H as <-.
  rewrite map_map. cbn [rows]. rewrite map_id, batch_from_concat. cbn [rev app].
  split; [reflexivity|]. split.
  - apply Forall_map. apply Forall_forall. reflexivity.
  - split.
    + intros H. apply map_eq_nil in H. now apply batch_from_nil in H.
    + intros ->. reflexivity.
Qed.

Lemma zip_with_map_map {A B C D} (f : B -> C -> D) (g : A -> B) (h : A -> C) (l : list A) :
  zip_with f (map g l) (map h l) = map (fun x => f (g x) (h x)) l.
Proof. induction l as [|x l IH]; cbn; [reflexivity | now rewrite IH]. Qed.

(** One tensor with a row per sample against a tensor with a single row. *)
Lemma broadcast2_rows_vs_one (op : float -> float -> float) (c' : nat) {A}
    (g : A -> vec) (l : list A) (B : matrix) (w : vec) :
  rows B = [w] ->
  broadcast2 op (Mat c' (map g l)) B =
  match bdim c' (ncols B) with
  | Some c => Ok (Mat c (map (fun x => zip_with op (stretch c (g x)) (stretch c w)) l))
  | None => Raise (BroadcastError [length l; c'] [1; ncols B])
  end.
Proof.
  intros HB. unfold broadcast2, shape, nrows. cbn [rows ncols].
  rewrite HB, length_map. cbn [length]. rewrite bdim_1_r.
  destruct (bdim c' (ncols B)) as [c|]; [|reflexivity].
  rewrite stretch_same by apply length_map. cbn [stretch].
  rewrite zip_with_repeat_r by apply length_map.
  now rewrite map_map.
Qed.

(** Two tensors with a row per sample. *)
Lemma broadcast2_rows_vs_rows (op : float -> float -> float) (ca cb : nat) {A}
    (g h : A -> vec) (l : list A) :
  broadcast2 op (Mat ca (map g l)) (Mat cb (map h l)) =
  match bdim ca cb with
  | Some c => Ok (Mat c (map (fun x => zip_with op (stretch c (g x)) (stretch c (h x))) l))
  | None => Raise (BroadcastError [length l; ca] [length l; cb])
  end.
Proof.
  unfold broadcast2, shape, nrows. cbn [rows ncols].
  rewrite !length_map, bdim_same.
  destruct (bdim ca cb) as [c|]; [|reflexivity].
  rewrite !stretch_same by apply length_map.
  now rewrite zip_with_map_map.
Qed.

Section RowwiseModel.

Variable model : Model.
Variable O' : nat.
Variables mean var : vec -> vec.
Hypothesis predict_rowwise : rowwise model O' mean var.

Variable obs : vec.
Variable total_variance : matrix.
Variable w : vec.
Hypothesis total_variance_row : rows total_variance = [w].

Lemma batch_implausibility_ok (data : matrix) (c1 c2 c3 : nat) :
  widths O' (ncols total_variance) (length obs) = Some (c1, c2, c3) ->
  batch_implausibility model obs data total_variance
  = Ok (Mat c3 (map (row_implausibility mean var obs w c1 c2 c3) (rows data))).
Proof.
  unfold widths. intros H.
  destruct (bdim O' (ncols total_variance)) as [d1|] eqn:H1; [|discriminate].
  destruct (bdim O' (length obs)) as [d2|] eqn:H2; [|discriminate].
  destruct (bdim d2 d1) as [d3|] eqn:H3; [|discriminate].
  injection H as -> -> ->.
  unfold batch_implausibility. rewrite predict_rowwise.
  rewrite (broadcast2_rows_vs_one PrimFloat.add O' var (rows data) total_variance w
             total_variance_row), H1.
  cbn [bind]. unfold _calc_implausibility.
  rewrite (broadcast2_rows_vs_one PrimFloat.sub O' mean (rows data) (as_row obs) obs eq_refl).
  cbn [as_row ncols]. rewrite H2. cbn [bind].
  unfold map_matrix. cbn [ncols rows]. rewrite !map_map.
  rewrite broadcast2_rows_vs_rows, H3. reflexivity.
Qed.

Lemma batch_implausibility_raise (data : matrix) :
  widths O' (ncols total_variance) (length obs) = None ->
  exists e, batch_implausibility model obs data total_variance = Raise e.
Proof.
  unfold widths. intros H.
  unfold batch_implausibility. rewrite predict_rowwise.
  rewrite (broadcast2_rows_vs_one PrimFloat.add O' var (rows data) total_variance w
             total_variance_row).
  destruct (bdim O' (ncols total_variance)) as [d1|] eqn:H1; [|eexists; reflexivity].
  cbn [bind]. unfold _calc_implausibility.
  rewrite (broadcast2_rows_vs_one PrimFloat.sub O' mean (rows data) (as_row obs) obs eq_refl).
  cbn [as_row ncols].
  destruct (bdim O' (length obs)) as [d2|] eqn:H2; [|eexists; reflexivity].
  cbn [bind]. unfold map_matrix. cbn [ncols rows]. rewrite !map_map.
  rewrite broadcast2_rows_vs_rows.
  destruct (bdim d2 d1) as [d3|] eqn:H3; [discriminate | eexists; reflexivity].
Qed.

End RowwiseModel.

Lemma constrain_app (c : nat) (l1 l2 : list vec) (tolerance threshold : float) :
  constrain (Mat c (l1 ++ l2)) tolerance threshold
  = constrain (Mat c l1) tolerance threshold ++ constrain (Mat c l2) tolerance threshold.
Proof. unfold constrain. cbn [rows ncols]. apply map_app. Qed.

Lemma foldM_raise {A B} (f : A -> B -> result A) (l : list B) (a : A) :
  (forall a' b, exists e, f a' b = Raise e) -> l <> [] ->
  exists e, foldM f l a = Raise e.
Proof.
  intros H Hl. destruct l as [|b l]; [congruence|]. cbn [foldM].
  destruct (H a b) as [e He]. rewrite He. now exists e.
Qed.

Section BatchConsistency.

Variable model : Model.
Variable O' : nat.
Variables mean var : vec -> vec.
Hypothesis predict_rowwise : rowwise model O' mean var.

Variable obs : vec.
Variable total_variance : matrix.
Variable w : vec.
Hypothesis total_variance_row : rows total_variance = [w].

Variables tolerance threshold : float.

(** The constraint loop over any list of batches. *)
Lemma constrain_loop_ok (c1 c2 c3 : nat) (dataset : list matrix) (all_valid : list bool) :
  widths O' (ncols total_variance) (length obs) = Some (c1, c2, c3) ->
  foldM (fun all_valid data =>
           implausibility <- batch_implausibility model obs data total_variance ;;
           Ok (all_valid ++ constrain implausibility tolerance threshold))
        dataset all_valid
  = Ok (all_valid ++
        constrain (Mat c3 (map (row_implausibility mean var obs w c1 c2 c3)
                               (concat (map rows dataset))))
                  tolerance threshold).
Proof.
  intros Hw. revert all_valid.
  induction dataset as [|data dataset IH]; intros all_valid; cbn [foldM map concat].
  - unfold constrain. cbn. now rewrite app_nil_r.
  - rewrite (batch_implausibility_ok model O' mean var predict_rowwise obs total_variance w
               total_variance_row data c1 c2 c3 Hw).
    cbn [bind]. rewrite IH, map_app, constrain_app. now rewrite app_assoc.
Qed.

(** The implausibility loop over any list of batches. *)
Lemma implausibility_loop_ok (c1 c2 : nat) (dataset : list matrix) (acc : list vec) :
  widths O' (ncols total_variance) (length obs) = Some (c1, c2, length obs) ->
  foldM (fun all_implausibility data =>
           implausibility <- batch_implausibility model obs data total_variance ;;
           concat0 all_implausibility implausibility)
        dataset (Mat (length obs) acc)
  = Ok (Mat (length obs)
            (acc ++ map (row_implausibility mean var obs w c1 c2 (length obs))
                        (concat (map rows dataset)))).
Proof.
  intros Hw. revert acc.
  induction dataset as [|data dataset IH]; intros acc; cbn [foldM map concat].
  - now rewrite app_nil_r.
  - rewrite (batch_implausibility_ok model O' mean var predict_rowwise obs total_variance w
               total_variance_row data c1 c2 (length obs) Hw).
    cbn [bind]. unfold concat0. cbn [ncols rows]. rewrite Nat.eqb_refl. cbn [bind].
    rewrite IH, map_app. now rewrite app_assoc.
Qed.

Lemma implausibility_step_raise (acc data : matrix) :
  ncols acc = length obs ->
  (forall c1 c2, widths O' (ncols total_variance) (length obs) <> Some (c1, c2, length obs)) ->
  exists e, (implausibility <- batch_implausibility model obs data total_variance ;;
             concat0 acc implausibility) = Raise e.
Proof.
  intros Hacc Hw.
  destruct (widths O' (ncols total_variance) (length obs)) as [[[c1 c2] c3]|] eqn:E.
  - rewrite (batch_implausibility_ok model O' mean var predict_rowwise obs total_variance w
               total_variance_row data c1 c2 c3 E).
    cbn [bind]. unfold concat0. cbn [ncols]. rewrite Hacc.
    destruct (Nat.eqb_spec (length obs) c3) as [<-|NE].
    + exfalso. now apply (Hw c1 c2).
    + eexists. reflexivity.
  - destruct (batch_implausibility_raise model O' mean var predict_rowwise obs total_variance w
                total_variance_row data E) as [e He].
    rewrite He. now exists e.
Qed.

Lemma tf_constrain_outcome (sample_points : matrix) (b : nat) :
  b <> 0 ->
  match widths O' (ncols total_variance) (length obs) with
  | Some (c1, c2, c3) =>
      _tf_constrain model obs sample_points total_variance tolerance threshold b
      = Ok (constrain (Mat c3 (map (row_implausibility mean var obs w c1 c2 c3)
                                   (rows sample_points)))
                      tolerance threshold)
  | None =>
      match rows sample_points with
      | [] => _tf_constrain model obs sample_points total_variance tolerance threshold b = Ok []
      | _ :: _ => exists e,
          _tf_constrain model obs sample_points total_variance tolerance threshold b = Raise e
      end
  end.
Proof.
  intros Hb. unfold _tf_constrain, pbar.
  destruct (batch b sample_points) as [dataset|e] eqn:Hd.
  2:{ unfold batch in Hd. destruct b; [congruence | discriminate]. }
  destruct (batch_rows b sample_points dataset Hd) as (Hcat & _ & Hnil).
  cbn [bind].
  destruct (widths O' (ncols total_variance) (length obs)) as [[[c1 c2] c3]|] eqn:E.
  - rewrite (constrain_loop_ok c1 c2 c3 dataset [] E), Hcat. reflexivity.
  - destruct (rows sample_points) as [|x l] eqn:Hr.
    + destruct Hnil as [_ Hnil]. rewrite (Hnil eq_refl). reflexivity.
    + apply foldM_raise.
      * intros a' data.
        destruct (batch_implausibility_raise model O' mean var predict_rowwise obs
                    total_variance w total_variance_row data E) as [e He].
        rewrite He. now exists e.
      * intros ->. destruct Hnil as [Hnil _]. specialize (Hnil eq_refl). discriminate.
Qed.

Lemma foldM_raise_head {A B} (f : A -> B -> result A) (b : B) (l : list B) (a : A) :
  (exists e, f a b = Raise e) -> exists e, foldM f (b :: l) a = Raise e.
Proof. intros [e He]. cbn [foldM]. rewrite He. now exists e. Qed.

Lemma tf_implausibility_outcome (sample_points : matrix) (b : nat) :
  b <> 0 ->
  (forall c1 c2,
      widths O' (ncols total_variance) (length obs) = Some (c1, c2, length obs) ->
      _tf_implausibility model obs sample_points total_variance b
      = Ok (Mat (length obs)
                (map (row_implausibility mean var obs w c1 c2 (length obs))
                     (rows sample_points)))) /\
  ((forall c1 c2,
       widths O' (ncols total_variance) (length obs) <> Some (c1, c2, length obs)) ->
   match rows sample_points with
   | [] => _tf_implausibility model obs sample_points total_variance b
           = Ok (Mat (length obs) [])
   | _ :: _ => exists e,
       _tf_implausibility model obs sample_points total_variance b = Raise e
   end).
Proof.
  intros Hb. unfold _tf_implausibility, pbar.
  destruct (batch b sample_points) as [dataset|e] eqn:Hd.
  2:{ unfold batch in Hd. destruct b; [congruence | discriminate]. }
  destruct (batch_rows b sample_points dataset Hd) as (Hcat & _ & Hnil).
  cbn [bind]. split.
  - intros c1 c2 E.
    rewrite (implausibility_loop_ok c1 c2 dataset [] E), Hcat. reflexivity.
  - intros E. destruct (rows sample_points) as [|x l] eqn:Hr.
    + destruct Hnil as [_ Hnil]. rewrite (Hnil eq_refl). reflexivity.
    + destruct dataset as [|data dataset].
      * destruct Hnil as [Hnil _]. specialize (Hnil eq_refl). discriminate.
      * apply foldM_raise_head. now apply implausibility_step_raise.
Qed.

(** C6. With a model that predicts row by row and the [1 x O] total
    variance of the sampler, the batch evaluation of the implausibility and
    of the acceptance mask does not depend on the batch size: two batch
    sizes give the same tensor, one row per sample point in their order, or
    both raise. *)
Theorem batch_consistency (sample_points : matrix) (b1 b2 : nat) :
  b1 <> 0 -> b2 <> 0 ->
  same_outcome (_tf_implausibility model obs sample_points total_variance b1)
               (_tf_implausibility model obs sample_points total_variance b2) /\
  same_outcome (_tf_constrain model obs sample_points total_variance tolerance threshold b1)
               (_tf_constrain model obs sample_points total_variance tolerance threshold b2) /\
  (forall R, _tf_implausibility model obs sample_points total_variance b1 = Ok R ->
             nrows R = nrows sample_points) /\
  (forall V, _tf_constrain model obs sample_points total_variance tolerance threshold b1 = Ok V ->
             length V = nrows sample_points).
Proof.
  intros H1 H2.
  pose proof (tf_implausibility_outcome sample_points b1 H1) as [I1 J1].
  pose proof (tf_implausibility_outcome sample_points b2 H2) as [I2 J2].
  pose proof (tf_constrain_outcome sample_points b1 H1) as C1.
  pose proof (tf_constrain_outcome sample_points b2 H2) as C2.
  assert (Hdec : (exists c1 c2, widths O' (ncols total_variance) (length obs)
                                = Some (c1, c2, length obs)) \/
                 (forall c1 c2, widths O' (ncols total_variance) (length obs)
                                <> Some (c1, c2, length obs))).
  { destruct (widths O' (ncols total_variance) (length obs)) as [[[c1 c2] c3]|].
    - destruct (Nat.eq_dec c3 (length obs)) as [->|NE].
      + left. now exists c1, c2.
      + right. intros d1 d2 E. injection E as _ _ E. congruence.
    - right. intros d1 d2 E. discriminate. }
  repeat split.
  - destruct Hdec as [(c1 & c2 & E)|E].
    + rewrite (I1 c1 c2 E), (I2 c1 c2 E). reflexivity.
    + specialize (J1 E). specialize (J2 E).
      destruct (rows sample_points).
      * rewrite J1, J2. reflexivity.
      * destruct J1 as [e1 ->], J2 as [e2 ->]. exact I.
  - destruct (widths O' (ncols total_variance) (length obs)) as [[[c1 c2] c3]|].
    + rewrite C1, C2. reflexivity.
    + destruct (rows sample_points).
      * rewrite C1, C2. reflexivity.
      * destruct C1 as [e1 ->], C2 as [e2 ->]. exact I.
  - intros R HR. destruct Hdec as [(c1 & c2 & E)|E].
    + rewrite (I1 c1 c2 E) in HR. injection HR as <-.
      unfold nrows. cbn [rows]. apply length_map.
    + specialize (J1 E). unfold nrows. destruct (rows sample_points).
      * rewrite J1 in HR. injection HR as <-. reflexivity.
      * destruct J1 as [e1 J1]. congruence.
  - intros V HV.
    destruct (widths O' (ncols total_variance) (length obs)) as [[[c1 c2] c3]|].
    + rewrite C1 in HV. injection HV as <-.
      rewrite constrain_length. unfold nrows. cbn [rows]. apply length_map.
    + unfold nrows. destruct (rows sample_points).
      * rewrite C1 in HV. injection HV as <-. reflexivity.
      * destruct C1 as [e1 C1]. congruence.
Qed.

End BatchConsistency.

Lemma identity_model_rowwise :
  rowwise identity_model 2 (fun x => x) (fun _ => [0; 0]%float).
Proof. intros data. reflexivity. Defined.

Example batch_constrain_example :
  _tf_constrain identity_model [0.5; 0.5]%float example_points (Mat 2 [[1; 1]%float]) 0 2 1
  = Ok [true; false; true; true; false] /\
  _tf_constrain identity_model [0.5; 0.5]%float example_points (Mat 2 [[1; 1]%float]) 0 2 2
  = Ok [true; false; true; true; false] /\
  _tf_constrain identity_model [0.5; 0.5]%float example_points (Mat 2 [[1; 1]%float]) 0 2 5
  = Ok [true; false; true; true; false].
Proof. repeat split; vm_compute; reflexivity. Qed.

Lemma batch_consistency_witness :
  same_outcome
    (_tf_implausibility identity_model [0.5; 0.5]%float example_points (Mat 2 [[1; 1]%float]) 5)
    (_tf_implausibility identity_model [0.5; 0.5]%float example_points (Mat 2 [[1; 1]%float]) 2) /\
  same_outcome
    (_tf_constrain identity_model [0.5; 0.5]%float example_points (Mat 2 [[1; 1]%float]) 0 2 5)
    (_tf_constrain identity_model [0.5; 0.5]%float example_points (Mat 2 [[1; 1]%float]) 0 2 2) /\
  (forall R,
      _tf_implausibility identity_model [0.5; 0.5]%float example_points (Mat 2 [[1; 1]%float]) 5
      = Ok R -> nrows R = 5) /\
  (forall V,
      _tf_constrain identity_model [0.5; 0.5]%float example_points (Mat 2 [[1; 1]%float]) 0 2 5
      = Ok V -> length V = 5).
Proof.
  apply (batch_consistency identity_model 2 (fun x => x) (fun _ => [0; 0]%float)
           identity_model_rowwise [0.5; 0.5]%float (Mat 2 [[1; 1]%float]) [1; 1]%float
           eq_refl 0%float 2%float example_points 5 2).
  - discriminate.
  - discriminate.
Defined.

(** * Rejection sampling *)

Section SamplingFacts.

Variable model : Model.
Variable obs : vec.
Variable draws : nat -> vec.
Variables threshold tolerance : float.
Variable total_variance : matrix.

Let valid (x : vec) : Prop :=
  is_valid_sample model obs threshold tolerance total_variance x = Ok true.
Let rejected (x : vec) : Prop :=
  is_valid_sample model obs threshold tolerance total_variance x = Ok false.

Lemma get_valid_sample_spec (fuel next : nat) (v : matrix) (next' : nat) :
  get_valid_sample model obs draws threshold tolerance total_variance fuel next
  = Return v next' ->
  exists k, next <= k /\ next' = S k /\ v = as_row (draws k) /\ valid (draws k) /\
            forall j, next <= j < k -> rejected (draws j).
Proof.
  revert next. induction fuel as [|fuel IH]; intros next; cbn [get_valid_sample];
    destruct (is_valid_sample model obs threshold tolerance total_variance (draws next))
      as [[|]|e] eqn:E; try discriminate.
  - intros H. injection H as <- <-. exists next. repeat split; auto. intros j Hj. lia.
  - intros H. injection H as <- <-. exists next. repeat split; auto. intros j Hj. lia.
  - intros H. apply IH in H. destruct H as (k & Hk & -> & -> & Hv & Hrej).
    exists k. repeat split; auto; try lia.
    intros j Hj. destruct (Nat.eq_dec j next) as [->|NE]; [exact E | apply Hrej; lia].
Qed.

Lemma get_valid_sample_enough (next j : nat) :
  next <= j -> valid (draws j) -> (forall i, next <= i < j -> rejected (draws i)) ->
  forall fuel, j - next <= fuel ->
  get_valid_sample model obs draws threshold tolerance total_variance fuel next
  = Return (as_row (draws j)) (S j).
Proof.
  intros Hle Hv Hrej fuel. revert next Hle Hrej.
  induction fuel as [|fuel IH]; intros next Hle Hrej Hf; cbn [get_valid_sample].
  - assert (j = next) by lia. subst j. unfold valid in Hv. now rewrite Hv.
  - destruct (Nat.eq_dec j next) as [->|NE].
    + unfold valid in Hv. now rewrite Hv.
    + pose proof (Hrej next ltac:(lia)) as Hr. unfold rejected in Hr. rewrite Hr.
      apply IH; [lia | | lia]. intros i Hi. apply Hrej. lia.
Qed.

Lemma sample_loop_spec (fuel n : nat) (m : matrix) (next : nat) (M : matrix) (next' : nat) :
  sample_loop model obs draws threshold tolerance total_variance fuel n m next
  = Return M next' ->
  ncols M = ncols m /\
  exists new, rows M = rows m ++ new /\ length new = n /\
              Forall (fun r => valid r /\ length r = ncols m) new.
Proof.
  revert m next. induction n as [|n IH]; intros m next; cbn [sample_loop].
  - intros H. injection H as <- <-. split; [reflexivity|].
    exists []. rewrite app_nil_r. repeat split. constructor.
  - destruct (get_valid_sample model obs draws threshold tolerance total_variance fuel next)
      as [v next1| |] eqn:G; try discriminate.
    apply get_valid_sample_spec in G. destruct G as (k & _ & _ & -> & Hv & _).
    unfold concat0. cbn [as_row ncols rows].
    destruct (Nat.eqb_spec (ncols m) (length (draws k))) as [E|NE]; [|discriminate].
    intros H. apply IH in H. cbn [ncols rows] in H.
    destruct H as (Hc & new & Hrows & Hlen & Hall).
    split; [exact Hc|].
    exists (draws k :: new). rewrite Hrows, <- app_assoc. repeat split.
    + cbn. now rewrite Hlen.
    + constructor; [split; [exact Hv | now symmetry] | exact Hall].
Qed.

Lemma sample_loop_enough (n : nat) :
  (forall k, exists j, k <= j /\ valid (draws j) /\ length (draws j) = 2 /\
                       forall i, k <= i < j -> rejected (draws i)) ->
  forall m next, ncols m = 2 ->
  exists fuel0 M next', forall fuel, fuel0 <= fuel ->
    sample_loop model obs draws threshold tolerance total_variance fuel n m next
    = Return M next'.
Proof.
  intros Hinf. induction n as [|n IH]; intros m next Hm.
  - exists 0, m, next. reflexivity.
  - destruct (Hinf next) as (j & Hle & Hv & Hlen & Hrej).
    destruct (IH (Mat (ncols m) (rows m ++ [draws j])) (S j) Hm) as (fuel1 & M & next' & Hrun).
    exists (Nat.max (j - next) fuel1), M, next'. intros fuel Hf. cbn [sample_loop].
    rewrite (get_valid_sample_enough next j Hle Hv Hrej fuel) by lia.
    unfold concat0. cbn [as_row ncols rows]. rewrite Hm, Hlen. cbn [Nat.eqb].
    rewrite <- Hm. apply Hrun. lia.
Qed.

End SamplingFacts.

Lemma is_valid_sample_rowwise (model : Model) (O' : nat) (mean var : vec -> vec)
    (obs : vec) (total_variance : matrix) (w : vec) (threshold tolerance : float) (x : vec) :
  rowwise model O' mean var -> rows total_variance = [w] ->
  is_valid_sample model obs threshold tolerance total_variance x = Ok true ->
  exists c1 c2 c3,
    widths O' (ncols total_variance) (length obs) = Some (c1, c2, c3) /\
    constrain (Mat c3 [row_implausibility mean var obs w c1 c2 c3 x]) tolerance threshold
    = [true].
Proof.
  intros Hrow Hw Hv. unfold is_valid_sample in Hv.
  destruct (widths O' (ncols total_variance) (length obs)) as [[[c1 c2] c3]|] eqn:E.
  - exists c1, c2, c3. split; [reflexivity|].
    rewrite (batch_implausibility_ok model O' mean var Hrow obs total_variance w Hw
               (as_row x) c1 c2 c3 E) in Hv.
    cbn [bind as_row rows map] in Hv. unfold constrain in *. cbn [rows ncols map] in *.
    injection Hv as Hv. now rewrite Hv.
  - destruct (batch_implausibility_raise model O' mean var Hrow obs total_variance w Hw
                (as_row x) E) as [e He].
    rewrite He in Hv. discriminate.
Qed.

Lemma constrain_all_valid (model : Model) (O' : nat) (mean var : vec -> vec)
    (obs : vec) (total_variance : matrix) (w : vec) (threshold tolerance : float)
    (c1 c2 c3 : nat) (l : list vec) :
  rowwise model O' mean var -> rows total_variance = [w] ->
  widths O' (ncols total_variance) (length obs) = Some (c1, c2, c3) ->
  Forall (fun x => is_valid_sample model obs threshold tolerance total_variance x = Ok true) l ->
  constrain (Mat c3 (map (row_implausibility mean var obs w c1 c2 c3) l)) tolerance threshold
  = repeat true (length l).
Proof.
  intros Hrow Hw E Hall. induction Hall as [|x l Hx Hall IH]; [reflexivity|].
  cbn [map length repeat].
  change (row_implausibility mean var obs w c1 c2 c3 x
          :: map (row_implausibility mean var obs w c1 c2 c3) l)
    with ([row_implausibility mean var obs w c1 c2 c3 x]
          ++ map (row_implausibility mean var obs w c1 c2 c3) l).
  rewrite constrain_app, IH.
  destruct (is_valid_sample_rowwise model O' mean var obs total_variance w threshold tolerance x
              Hrow Hw Hx) as (d1 & d2 & d3 & E' & Hc).
  rewrite E in E'. injection E' as <- <- <-. now rewrite Hc.
Qed.

(** C3. Whatever [_tf_sample] returns has one row per requested sample, and
    every row passes the single-sample pipeline [is_valid_sample] with the
    same tolerance and threshold; with a model that predicts row by row,
    [_tf_constrain] then accepts all of them, whatever the batch size.  And
    the sampler does return when, from any position of the stream of draws
    on, the first draw that is not rejected is an accepted vector of two
    parameters (the two columns of the code). *)
Theorem sample_round_trip (model : Model) (obs : vec) (draws : nat -> vec)
    (threshold tolerance : float) (total_variance : matrix) :
  (forall fuel n next M next',
      _tf_sample model obs draws threshold tolerance total_variance fuel n next
      = Return M next' ->
      nrows M = n /\
      Forall (fun x => is_valid_sample model obs threshold tolerance total_variance x = Ok true)
             (rows M) /\
      forall O' mean var w b,
        rowwise model O' mean var -> rows total_variance = [w] -> b <> 0 ->
        _tf_constrain model obs M total_variance tolerance threshold b = Ok (repeat true n)) /\
  ((forall k, exists j,
       k <= j /\
       is_valid_sample model obs threshold tolerance total_variance (draws j) = Ok true /\
       length (draws j) = 2 /\
       forall i, k <= i < j ->
         is_valid_sample model obs threshold tolerance total_variance (draws i) = Ok false) ->
   forall n next, exists fuel M next',
     _tf_sample model obs draws threshold tolerance total_variance fuel n next
     = Return M next').
Proof.
  split.
  - intros fuel n next M next' H. unfold _tf_sample in H.
    apply sample_loop_spec in H. cbn [ncols rows app] in H.
    destruct H as (Hc & new & Hrows & Hlen & Hall).
    assert (Hvalid : Forall (fun x => is_valid_sample model obs threshold tolerance
                                        total_variance x = Ok true) (rows M)).
    { rewrite Hrows. eapply Forall_impl; [|exact Hall]. cbn. intros r [Hr _]. exact Hr. }
    assert (Hn : nrows M = n) by (unfold nrows; now rewrite Hrows).
    split; [exact Hn|]. split; [exact Hvalid|].
    intros O' mean var w b Hrow Hw Hb.
    pose proof (tf_constrain_outcome model O' mean var Hrow obs total_variance w Hw
                  tolerance threshold M b Hb) as Hout.
    destruct (widths O' (ncols total_variance) (length obs)) as [[[c1 c2] c3]|] eqn:E.
    + rewrite Hout.
      rewrite (constrain_all_valid model O' mean var obs total_variance w threshold tolerance
                 c1 c2 c3 (rows M) Hrow Hw E Hvalid).
      now rewrite <- Hn.
    + destruct (rows M) as [|x l] eqn:Hr.
      * rewrite Hout. unfold nrows in Hn. rewrite Hr in Hn. now rewrite <- Hn.
      * inversion Hvalid as [|? ? Hx _]; subst.
        destruct (is_valid_sample_rowwise model O' mean var obs total_variance w
                    threshold tolerance x Hrow Hw Hx) as (d1 & d2 & d3 & E' & _).
        congruence.
  - intros Hinf n next.
    destruct (sample_loop_enough model obs draws threshold tolerance total_variance n Hinf
                (Mat 2 []) next eq_refl) as (fuel0 & M & next' & Hrun).
    exists fuel0, M, next'. apply Hrun. lia.
Qed.

Example test_sample :
  _tf_sample identity_model [0.5; 0.5]%float example_draws 2 0 (Mat 2 [[1; 1]%float]) 5 2 0
  = Return (Mat 2 [[1; 1]; [1; 1]]%float) 6.
Proof. vm_compute. reflexivity. Qed.

Lemma sample_round_trip_witness :
  _tf_constrain identity_model [0.5; 0.5]%float (Mat 2 [[1; 1]; [1; 1]]%float)
                (Mat 2 [[1; 1]%float]) 0 2 1
  = Ok [true; true].
Proof.
  destruct (sample_round_trip identity_model [0.5; 0.5]%float example_draws 2 0
              (Mat 2 [[1; 1]%float])) as [Hvalid _].
  destruct (Hvalid 5 2 0 (Mat 2 [[1; 1]; [1; 1]]%float) 6) as (_ & _ & Hc).
  - vm_compute. reflexivity.
  - apply (Hc 2 (fun x => x) (fun _ => [0; 0]%float) [1; 1]%float 1 identity_model_rowwise).
    + reflexivity.
    + discriminate.
Defined.

(** What [_tf_sample] returns has the two columns it starts from. *)
Lemma tf_sample_two_columns (model : Model) (obs : vec) (draws : nat -> vec)
    (threshold tolerance : float) (total_variance : matrix) (fuel n next : nat)
    (M : matrix) (next' : nat) :
  _tf_sample model obs draws threshold tolerance total_variance fuel n next = Return M next' ->
  ncols M = 2 /\ nrows M = n /\ Forall (fun r => length r = 2) (rows M).
Proof.
  intros H. unfold _tf_sample in H. apply sample_loop_spec in H. cbn [ncols rows app] in H.
  destruct H as (Hc & new & Hrows & Hlen & Hall).
  split; [exact Hc|]. split; [unfold nrows; now rewrite Hrows|].
  rewrite Hrows. eapply Forall_impl; [|exact Hall]. cbn. intros r [_ Hr]. exact Hr.
Qed.

(** With the default prior, a model whose number of parameters is not 2
    never gets a sample back. *)
Lemma sample_needs_two_params (model : Model) (obs : vec) (total_variance : matrix)
    (rng : distribution -> nat -> vec) (n_samples : nat) (tolerance threshold : float)
    (fuel : nat) (M : matrix) (next' : nat) :
  (forall d k, in_support d (rng d k)) ->
  n_samples <> 0 ->
  sample model obs total_variance rng None n_samples tolerance threshold fuel = Return M next' ->
  n_params model = 2.
Proof.
  intros Hsup Hn H. unfold sample in H. cbn [prior_in_use] in H.
  unfold _tf_sample in H. destruct n_samples as [|n]; [congruence|].
  cbn [sample_loop] in H.
  destruct (get_valid_sample model obs (rng (default_prior model)) threshold tolerance
              total_variance fuel 0) as [v next1| |] eqn:G; try discriminate.
  apply get_valid_sample_spec in G. destruct G as (k & _ & _ & -> & _ & _).
  unfold concat0 in H. cbn [as_row ncols] in H.
  destruct (Nat.eqb_spec 2 (length (rng (default_prior model) k))) as [E|NE]; [|discriminate].
  pose proof (Hsup (default_prior model) k) as [Hlen _].
  rewrite repeat_length in Hlen. congruence.
Qed.

Lemma corner_in_default_support (k : nat) :
  in_support (default_prior three_param_model)
             (corner_rng (default_prior three_param_model) k).
Proof.
  split; [reflexivity|]. intros i Hi. cbn in Hi.
  destruct i as [|[|[|i]]]; try lia; split; reflexivity.
Qed.

(** C4 on a model with three parameters: the draw is accepted, and
    appending its three columns to the two-column tensor of samples is the
    error that ends the call. *)
Theorem sample_three_params_raises (fuel : nat) :
  is_valid_sample three_param_model [0]%float 3 0 (Mat 1 [[0]%float])
                  (corner_rng (default_prior three_param_model) 0) = Ok true /\
  sample three_param_model [0]%float (Mat 1 [[0]%float]) corner_rng None 1 0 3 fuel
  = Raised (ConcatError [0; 2] [1; 3]).
Proof.
  split; [vm_compute; reflexivity|].
  destruct fuel; vm_compute; reflexivity.
Qed.

(** With two parameters the same call returns its [n_samples x 2] tensor. *)
Example sample_two_params :
  sample identity_model [0.5; 0.5]%float (Mat 2 [[1; 1]%float])
         (fun _ => example_draws) None 3 0 2 2
  = Return (Mat 2 [[1; 1]; [1; 1]; [1; 1]]%float) 9.
Proof. vm_compute. reflexivity. Qed.

(** * Signs of the variances and of the implausibility *)

Lemma not_negative_SF (x : float) : not_negative x <-> B64.not_neg (B64.SF x).
Proof.
  unfold not_negative. rewrite classify_spec. apply B64_facts.classify_not_neg.
Qed.

Lemma square_not_negative (x : float) : not_negative (square x).
Proof.
  apply not_negative_SF. unfold square, B64.SF. rewrite FloatAxioms.mul_spec.
  apply B64_facts.SFmul_self_not_neg, Prim2SF_valid.
Qed.

Lemma add_not_negative (x y : float) :
  not_negative x -> not_negative y -> not_negative (x + y).
Proof.
  rewrite !not_negative_SF. unfold B64.SF. rewrite FloatAxioms.add_spec.
  apply B64_facts.SFadd_not_neg.
Qed.

Lemma zero_not_negative : not_negative 0.
Proof. exact I. Qed.

Lemma Forall_zip_with {A B C} (P : A -> Prop) (Q : B -> Prop) (R : C -> Prop)
    (f : A -> B -> C) (l1 : list A) (l2 : list B) :
  (forall a b, P a -> Q b -> R (f a b)) ->
  Forall P l1 -> Forall Q l2 -> Forall R (zip_with f l1 l2).
Proof.
  intros Hf H1. revert l2. induction H1 as [|a l1 Ha H1 IH]; intros l2 H2; [constructor|].
  destruct H2 as [|b l2 Hb H2]; cbn [zip_with]; constructor; auto.
Qed.

Lemma variance_not_negative (obs : vec) (unc : uncertainty) :
  Forall not_negative (variance obs unc).
Proof.
  destruct unc as [u|u]; cbn [variance].
  - apply Forall_map, Forall_forall. intros o _. apply square_not_negative.
  - apply (Forall_zip_with (fun _ => True) (fun _ => True)).
    + intros a b _ _. apply square_not_negative.
    + apply Forall_forall; auto.
    + apply Forall_forall; auto.
Qed.

(** The value of the total variance whenever the constructor computes one. *)
Lemma total_var_row (obs : vec) (uo ui ur us : uncertainty) (T : matrix) :
  total_var obs uo ui ur us = Ok T ->
  T = Mat (length obs)
        [zip_with PrimFloat.add
           (zip_with PrimFloat.add
              (zip_with PrimFloat.add
                 (map (fun x => 0 + x)%float (variance obs (as_scalar uo)))
                 (variance obs (as_scalar ur)))
              (variance obs (as_scalar ui)))
           (variance obs (as_scalar us))] /\
  per_observation (length obs) (as_scalar uo) /\ per_observation (length obs) (as_scalar ui) /\
  per_observation (length obs) (as_scalar ur) /\ per_observation (length obs) (as_scalar us).
Proof.
  intros H.
  assert (Hb : exists M, total_var obs uo ui ur us = Ok M) by (exists T; exact H).
  apply total_var_ok_iff in Hb. destruct Hb as (Ho & Hi & Hr & Hs).
  apply broadcastable_as_scalar in Ho, Hi, Hr, Hs.
  rewrite <- total_var_as_scalar, (total_var_value obs _ _ _ _ Ho Hi Hr Hs) in H.
  injection H as <-. repeat split; assumption.
Qed.

(** X1. The total variance that [Sampler.__init__] stores is always one row
    with one entry per observation, whatever the uncertainties are (scalars,
    vectors, vectors of length 1): the shape that the batch loops broadcast
    against the emulator's variance. *)
Theorem total_var_shape (obs : vec) (uo ui ur us : uncertainty) (T : matrix) :
  total_var obs uo ui ur us = Ok T ->
  shape T = [1; length obs] /\ well_shaped T.
Proof.
  intros H. apply total_var_row in H. destruct H as (-> & Ho & Hi & Hr & Hs).
  split; [reflexivity|].
  apply well_shaped_row.
  rewrite !zip_with_length, length_map, !variance_length by assumption. lia.
Qed.

Lemma total_var_shape_witness :
  shape (Mat 3 [[0.25; 1; 2.25]%float]) = [1; length [1; 2; 3]%float] /\
  well_shaped (Mat 3 [[0.25; 1; 2.25]%float]).
Proof.
  apply (total_var_shape [1; 2; 3]%float (Scalar 0.5) (Scalar 0) (Vector [0]%float)
           (Vector [0; 0; 0]%float)).
  vm_compute. reflexivity.
Defined.

Lemma total_var_row_not_negative (O : nat) (obs : vec) (uo ui ur us : uncertainty) :
  all_entries not_negative
    (Mat O [zip_with PrimFloat.add
              (zip_with PrimFloat.add
                 (zip_with PrimFloat.add (map (fun x => 0 + x)%float (variance obs uo))
                                         (variance obs ur))
                 (variance obs ui))
              (variance obs us)]).
Proof.
  unfold all_entries. cbn [rows]. constructor; [|constructor].
  repeat (apply (Forall_zip_with not_negative not_negative);
          [exact add_not_negative | | apply variance_not_negative]).
  apply Forall_map. eapply Forall_impl; [|apply variance_not_negative].
  intros x Hx. apply add_not_negative; [exact zero_not_negative | exact Hx].
Qed.

(** X2. No entry of the total variance is negative: each is NaN or has its
    sign bit clear (so it is not [-0] either), for every observation vector
    and all uncertainties, negative, infinite or NaN ones included. *)
Theorem total_var_not_negative (obs : vec) (uo ui ur us : uncertainty) (T : matrix) :
  total_var obs uo ui ur us = Ok T -> all_entries not_negative T.
Proof.
  intros H. apply total_var_row in H. destruct H as (-> & _).
  apply total_var_row_not_negative.
Qed.

Lemma total_var_not_negative_witness :
  all_entries not_negative (Mat 2 [[8; nan]%float]).
Proof.
  apply (total_var_not_negative [1; infinity]%float (Scalar (-2)) (Scalar 0)
           (Vector [2; 1]%float) (Vector [0]%float)).
  vm_compute. reflexivity.
Defined.

Lemma square_mul_abs (o u : float) : square (o * abs u) = square (o * u).
Proof.
  apply Prim2SF_inj. unfold square.
  rewrite !FloatAxioms.mul_spec, FloatAxioms.abs_spec.
  destruct (B64_facts.SFmul_abs_r (Prim2SF o) (Prim2SF u)) as [-> | ->];
    [reflexivity | apply B64_facts.SFmul_opp_self].
Qed.

Lemma zip_with_map_r {A B B' C} (f : A -> B' -> C) (g : B -> B') (l1 : list A) (l2 : list B) :
  zip_with f l1 (map g l2) = zip_with (fun a b => f a (g b)) l1 l2.
Proof.
  revert l2. induction l1 as [|a l1 IH]; intros [|b l2]; cbn; [reflexivity..|].
  now rewrite IH.
Qed.

Lemma stretch_map {A B} (g : A -> B) (n : nat) (l : list A) :
  stretch n (map g l) = map g (stretch n l).
Proof.
  destruct l as [|x [|y l]]; cbn; [reflexivity | | reflexivity].
  now rewrite map_repeat.
Qed.

Lemma source_var_abs (obs : vec) (unc : uncertainty) :
  source_var obs (abs_uncertainty unc) = source_var obs unc.
Proof.
  unfold source_var. destruct unc as [u|u]; cbn [abs_uncertainty np_multiply bind].
  - f_equal. unfold np_square. rewrite !map_map. apply map_ext. intros o.
    apply square_mul_abs.
  - unfold broadcast1. rewrite length_map.
    destruct (bdim (length obs) (length u)) as [n|]; [|reflexivity].
    cbn [bind]. f_equal. unfold np_square.
    rewrite stretch_map, zip_with_map_r, !zip_with_map.
    apply zip_with_ext_in. intros a b _ _. apply square_mul_abs.
Qed.

(** X3. Only the magnitudes of the uncertainties reach the total variance:
    replacing any of them by its absolute value leaves the result of the
    constructor unchanged, bit for bit, errors included. *)
Theorem total_var_abs (obs : vec) (uo ui ur us : uncertainty) :
  total_var obs (abs_uncertainty uo) (abs_uncertainty ui) (abs_uncertainty ur)
            (abs_uncertainty us)
  = total_var obs uo ui ur us.
Proof. unfold total_var. now rewrite !source_var_abs. Qed.

Lemma Forall_stretch {A} (P : A -> Prop) (n : nat) (l : list A) :
  Forall P l -> Forall P (stretch n l).
Proof.
  intros H. destruct l as [|x [|y l]]; cbn [stretch]; try exact H.
  inversion H; subst. apply Forall_forall. intros z Hz. apply repeat_spec in Hz. now subst.
Qed.

(** Whatever holds of the operands' entries and is preserved by the
    operation holds of the entries of the broadcast result. *)
Lemma broadcast2_all_entries (P Q R : float -> Prop) (op : float -> float -> float)
    (A B M : matrix) :
  (forall a b, P a -> Q b -> R (op a b)) ->
  all_entries P A -> all_entries Q B ->
  broadcast2 op A B = Ok M -> all_entries R M.
Proof.
  intros Hop HA HB H. unfold broadcast2 in H.
  destruct (bdim (nrows A) (nrows B)) as [r|]; [|discriminate].
  destruct (bdim (ncols A) (ncols B)) as [c|]; [|discriminate].
  injection H as <-. unfold all_entries in *. cbn [rows].
  apply (Forall_zip_with (Forall P) (Forall Q)); try now apply Forall_stretch.
  intros u v Hu Hv. apply (Forall_zip_with P Q); try now apply Forall_stretch.
  exact Hop.
Qed.

Lemma map_matrix_all_entries (P Q : float -> Prop) (f : float -> float) (M : matrix) :
  (forall x, P x -> Q (f x)) -> all_entries P M -> all_entries Q (map_matrix f M).
Proof.
  intros Hf HM. unfold all_entries, map_matrix in *. cbn [rows].
  apply Forall_map. eapply Forall_impl; [|exact HM].
  intros r Hr. apply Forall_map. eapply Forall_impl; [|exact Hr]. exact Hf.
Qed.

Lemma all_entries_True (M : matrix) : all_entries (fun _ => True) M.
Proof. apply Forall_forall. intros r _. apply Forall_forall. auto. Qed.

(** The standard deviation [sqrt (v + t)] for a total variance [t] that is
    not negative: the sum is not [-0], whose square root would be [-0]. *)
Lemma sqrt_add_not_negative (v t : float) :
  not_negative t -> not_negative (PrimFloat.sqrt (v + t)).
Proof.
  rewrite !not_negative_SF. unfold B64.SF. intros Ht.
  rewrite FloatAxioms.sqrt_spec, FloatAxioms.add_spec.
  apply B64_facts.SFsqrt_not_neg, B64_facts.SFadd_not_neg_zero; auto using Prim2SF_valid.
Qed.

Lemma div_abs_not_negative (d s : float) : not_negative s -> not_negative (abs d / s).
Proof.
  rewrite !not_negative_SF. unfold B64.SF. intros Hs.
  rewrite FloatAxioms.div_spec, FloatAxioms.abs_spec.
  apply B64_facts.SFdiv_not_neg; [apply B64_facts.SFabs_not_neg | exact Hs].
Qed.

Lemma batch_implausibility_not_negative (model : Model) (obs : vec)
    (data total_variance implausibility : matrix) :
  all_entries not_negative total_variance ->
  batch_implausibility model obs data total_variance = Ok implausibility ->
  all_entries not_negative implausibility.
Proof.
  intros Ht H. unfold batch_implausibility in H.
  destruct (_tf_predict model data) as [emulator_mean emulator_var].
  destruct (broadcast2 PrimFloat.add emulator_var total_variance) as [s|e] eqn:Es;
    [|discriminate].
  cbn [bind] in H. unfold _calc_implausibility in H.
  destruct (broadcast2 PrimFloat.sub emulator_mean (as_row obs)) as [d|e] eqn:Ed;
    [|discriminate].
  cbn [bind] in H.
  apply (broadcast2_all_entries (fun x => exists y, x = abs y) not_negative not_negative
           PrimFloat.div (map_matrix abs d) (map_matrix PrimFloat.sqrt s)); [| | |exact H].
  - intros a b [y ->] Hb. now apply div_abs_not_negative.
  - apply (map_matrix_all_entries (fun _ => True)); [|apply all_entries_True].
    intros x _. now exists x.
  - apply (map_matrix_all_entries (fun x => exists v t, x = (v + t)%float /\ not_negative t)).
    + intros x (v & t & -> & Hx). now apply sqrt_add_not_negative.
    + apply (broadcast2_all_entries (fun _ => True) not_negative _ PrimFloat.add
               emulator_var total_variance); [| apply all_entries_True | exact Ht | exact Es].
      intros a b _ Hb. now exists a, b.
Qed.

Lemma foldM_invariant {A B} (I : A -> Prop) (f : A -> B -> result A) (l : list B) :
  (forall a b a', I a -> f a b = Ok a' -> I a') ->
  forall a r, I a -> foldM f l a = Ok r -> I r.
Proof.
  intros Hf. induction l as [|b l IH]; intros a r Ha H; cbn [foldM] in H.
  - now injection H as <-.
  - destruct (f a b) as [a'|e] eqn:E; [|discriminate]. cbn [bind] in H.
    eapply IH; [|exact H]. eapply Hf; eassumption.
Qed.

(** The loop of [_tf_implausibility] keeps the tensor it gathers free of
    negative entries. *)
Lemma implausibility_loop_not_negative (model : Model) (obs : vec) (total_variance : matrix)
    (dataset : list matrix) (all_implausibility R : matrix) :
  all_entries not_negative total_variance ->
  all_entries not_negative all_implausibility ->
  foldM (fun all_implausibility data =>
           implausibility <- batch_implausibility model obs data total_variance ;;
           concat0 all_implausibility implausibility)
        dataset all_implausibility = Ok R ->
  all_entries not_negative R.
Proof.
  intros Ht HA H.
  apply (foldM_invariant (all_entries not_negative)) in H; [exact H | | exact HA].
  intros A data A' HA' Hstep.
  destruct (batch_implausibility model obs data total_variance) as [I|e] eqn:EI;
    [|discriminate].
  cbn [bind] in Hstep. unfold concat0 in Hstep.
  destruct (ncols A =? ncols I); [|discriminate].
  injection Hstep as <-. unfold all_entries in *. cbn [rows].
  apply Forall_app. split; [exact HA'|].
  exact (batch_implausibility_not_negative model obs data total_variance I Ht EI).
Qed.

(** X4. Whatever the emulator predicts (negative or NaN variances
    included), no entry of the implausibility that [_tf_implausibility]
    returns is negative, as long as no entry of the total variance is: every
    entry is NaN, or a value with the sign bit clear. *)
Theorem implausibility_not_negative (model : Model) (obs : vec)
    (sample_points total_variance : matrix) (batch_size : nat) (R : matrix) :
  all_entries not_negative total_variance ->
  _tf_implausibility model obs sample_points total_variance batch_size = Ok R ->
  all_entries not_negative R.
Proof.
  intros Ht H. unfold _tf_implausibility in H.
  destruct (batch batch_size sample_points) as [dataset|e]; [|discriminate].
  cbn [bind] in H.
  apply (implausibility_loop_not_negative model obs total_variance (pbar dataset)
           (Mat (length obs) []) R Ht); [constructor | exact H].
Qed.

Lemma implausibility_not_negative_witness :
  exists R,
    _tf_implausibility identity_model [0.5; 0.5]%float example_points
                       (Mat 2 [[1; 1]%float]) 2 = Ok R /\
    all_entries not_negative R.
Proof.
  eexists. split.
  - vm_compute. reflexivity.
  - apply (implausibility_not_negative identity_model [0.5; 0.5]%float example_points
             (Mat 2 [[1; 1]%float]) 2).
    + repeat constructor.
    + vm_compute. reflexivity.
Defined.

Lemma matrix_eta (M : matrix) : Mat (ncols M) (rows M) = M.
Proof. now destruct M. Qed.

(** The two batch loops side by side: the decisions gathered so far are
    those of the implausibilities gathered so far. *)
Lemma loops_agree (model : Model) (obs : vec) (total_variance : matrix)
    (tolerance threshold : float) (dataset : list matrix) :
  forall (all_implausibility R : matrix),
    foldM (fun all_implausibility data =>
             implausibility <- batch_implausibility model obs data total_variance ;;
             concat0 all_implausibility implausibility)
          dataset all_implausibility = Ok R ->
    foldM (fun all_valid data =>
             implausibility <- batch_implausibility model obs data total_variance ;;
             let valid_samples := constrain implausibility tolerance threshold in
             Ok (all_valid ++ valid_samples))
          dataset (constrain all_implausibility tolerance threshold)
    = Ok (constrain R tolerance threshold).
Proof.
  induction dataset as [|data dataset IH]; intros A R H; cbn [foldM] in *.
  - now injection H as <-.
  - destruct (batch_implausibility model obs data total_variance) as [I|e]; [|discriminate].
    cbn [bind] in *. unfold concat0 in H.
    destruct (Nat.eqb_spec (ncols A) (ncols I)) as [E|NE]; [|discriminate].
    cbn [bind] in H. apply IH in H. rewrite <- H. f_equal.
    rewrite constrain_app, matrix_eta, E, matrix_eta. reflexivity.
Qed.

(** X5. For any emulator: whenever [_tf_implausibility] returns a tensor
    for the sample points, [_tf_constrain] on the same arguments returns
    exactly [constrain] of that tensor.  The decisions of [batch_constrain]
    are those one gets by constraining the implausibilities of
    [get_implausibility]. *)
Theorem tf_constrain_of_implausibility (model : Model) (obs : vec)
    (sample_points total_variance : matrix) (tolerance threshold : float)
    (batch_size : nat) (R : matrix) :
  _tf_implausibility model obs sample_points total_variance batch_size = Ok R ->
  _tf_constrain model obs sample_points total_variance tolerance threshold batch_size
  = Ok (constrain R tolerance threshold).
Proof.
  intros H. unfold _tf_implausibility, _tf_constrain in *.
  destruct (batch batch_size sample_points) as [dataset|e]; [|discriminate].
  cbn [bind] in *.
  exact (loops_agree model obs total_variance tolerance threshold (pbar dataset) _ R H).
Qed.

Lemma tf_constrain_of_implausibility_witness :
  exists R,
    _tf_implausibility identity_model [0.5; 0.5]%float example_points
                       (Mat 2 [[1; 1]%float]) 2 = Ok R /\
    _tf_constrain identity_model [0.5; 0.5]%float example_points (Mat 2 [[1; 1]%float]) 0 2 2
    = Ok (constrain R 0 2).
Proof.
  eexists. split.
  - vm_compute. reflexivity.
  - apply (tf_constrain_of_implausibility identity_model [0.5; 0.5]%float example_points
             (Mat 2 [[1; 1]%float]) 0 2 2).
    vm_compute. reflexivity.
Defined.

Lemma batch_one_row (x : vec) (b : nat) : b <> 0 -> batch b (as_row x) = Ok [as_row x].
Proof.
  intros Hb. unfold batch. destruct b as [|b]; [congruence|].
  cbn [as_row ncols rows batch_from]. destruct (1 =? S b); reflexivity.
Qed.

(** X6. The single-sample check of the rejection sampler is the batch check
    on a batch of one sample: for any emulator and any batch size,
    [is_valid_sample] returns a decision exactly when [_tf_constrain] on the
    one-row tensor returns that decision first. *)
Theorem is_valid_sample_is_tf_constrain (model : Model) (obs : vec)
    (threshold tolerance : float) (total_variance : matrix) (x : vec) (batch_size : nat)
    (valid : bool) :
  batch_size <> 0 ->
  is_valid_sample model obs threshold tolerance total_variance x = Ok valid <->
  exists rest,
    _tf_constrain model obs (as_row x) total_variance tolerance threshold batch_size
    = Ok (valid :: rest).
Proof.
  intros Hb. unfold _tf_constrain, is_valid_sample. rewrite (batch_one_row x batch_size Hb).
  cbn [bind pbar foldM].
  destruct (batch_implausibility model obs (as_row x) total_variance) as [I|e]; cbn [bind app].
  - destruct (constrain I tolerance threshold) as [|v rest].
    + split; [discriminate | intros [rest H]; discriminate].
    + split.
      * intros H. injection H as <-. now exists rest.
      * intros [rest' H]. now injection H as <- _.
  - split; [discriminate | intros [rest H]; discriminate].
Qed.

Lemma is_valid_sample_is_tf_constrain_witness :
  is_valid_sample identity_model [0.5; 0.5]%float 2 0 (Mat 2 [[1; 1]%float]) [4; 0.5]%float
  = Ok false.
Proof.
  apply (is_valid_sample_is_tf_constrain identity_model [0.5; 0.5]%float 2 0
           (Mat 2 [[1; 1]%float]) [4; 0.5]%float 3 false).
  - discriminate.
  - exists []. vm_compute. reflexivity.
Defined.

(** * The draws behind the samples *)

Section DrawFacts.

Variable model : Model.
Variable obs : vec.
Variable draws : nat -> vec.
Variables threshold tolerance : float.
Variable total_variance : matrix.

Lemma get_valid_sample_bound (fuel next : nat) (v : matrix) (next' : nat) :
  get_valid_sample model obs draws threshold tolerance total_variance fuel next
  = Return v next' ->
  next' <= S (next + fuel).
Proof.
  revert next. induction fuel as [|fuel IH]; intros next; cbn [get_valid_sample];
    destruct (is_valid_sample model obs threshold tolerance total_variance (draws next))
      as [[|]|e]; try discriminate; intros H;
    try (injection H as <- <-; lia).
  apply IH in H. lia.
Qed.


Lemma consumed_app (a b c : nat) :
  a <= b -> b <= c -> consumed draws a c = consumed draws a b ++ consumed draws b c.
Proof.
  intros Hab Hbc. unfold consumed. rewrite <- map_app. f_equal.
  replace (c - a) with ((b - a) + (c - b)) by lia.
  rewrite seq_app. f_equal. f_equal. lia.
Qed.

Lemma consumed_one (k : nat) : consumed draws k (S k) = [draws k].
Proof. unfold consumed. replace (S k - k) with 1 by lia. reflexivity. Qed.

Lemma consumed_In (a b : nat) (x : vec) :
  In x (consumed draws a b) <-> exists j, a <= j < b /\ x = draws j.
Proof.
  unfold consumed. rewrite in_map_iff. split.
  - intros (j & <- & Hj). apply in_seq in Hj. exists j. split; [lia | reflexivity].
  - intros (j & Hj & ->). exists j. split; [reflexivity|]. apply in_seq. lia.
Qed.

Lemma filter_none {A} (f : A -> bool) (l : list A) :
  (forall x, In x l -> f x = false) -> filter f l = [].
Proof.
  induction l as [|a l IH]; intros H; [reflexivity|]. cbn [filter].
  rewrite (H a (or_introl eq_refl)). apply IH. intros x Hx. apply H. now right.
Qed.

Lemma get_valid_sample_consumed (fuel next : nat) (v : matrix) (next' : nat) :
  get_valid_sample model obs draws threshold tolerance total_variance fuel next
  = Return v next' ->
  next < next' /\
  rows v = filter (accepted model obs threshold tolerance total_variance)
                  (consumed draws next next').
Proof.
  intros H.
  apply get_valid_sample_spec in H. destruct H as (k & Hk & -> & -> & Hv & Hrej).
  split; [lia|].
  rewrite (consumed_app next k (S k)) by lia. rewrite filter_app, consumed_one.
  rewrite filter_none.
  - cbn [filter app]. unfold accepted. rewrite Hv. reflexivity.
  - intros x Hx. apply consumed_In in Hx. destruct Hx as (j & Hj & ->).
    unfold accepted. now rewrite (Hrej j Hj).
Qed.

Lemma sample_loop_consumed (fuel n : nat) (m : matrix) (next : nat) (M : matrix)
    (next' : nat) :
  sample_loop model obs draws threshold tolerance total_variance fuel n m next
  = Return M next' ->
  next <= next' /\
  rows M = rows m ++ filter (accepted model obs threshold tolerance total_variance)
                            (consumed draws next next').
Proof.
  revert m next. induction n as [|n IH]; intros m next; cbn [sample_loop].
  - intros H. injection H as <- <-. split; [lia|].
    unfold consumed. rewrite Nat.sub_diag. cbn. now rewrite app_nil_r.
  - destruct (get_valid_sample model obs draws threshold tolerance total_variance fuel next)
      as [v next1| |] eqn:G; try discriminate.
    apply get_valid_sample_consumed in G. destruct G as [Hlt Hv].
    unfold concat0. destruct (ncols m =? ncols v); [|discriminate].
    intros H. apply IH in H. cbn [rows] in H. destruct H as [Hle HM].
    split; [lia|].
    rewrite HM, Hv, <- app_assoc, <- filter_app, <- consumed_app by lia. reflexivity.
Qed.

(** X7. [get_valid_sample] returns the first draw that the single-sample
    check accepts, as a one-row tensor: it returns exactly when some draw,
    within the iterations allowed, is accepted and every draw before it was
    evaluated and rejected; one draw more than the rejected ones has then
    been consumed. *)
Theorem get_valid_sample_first_accepted (fuel next : nat) (v : matrix) (next' : nat) :
  get_valid_sample model obs draws threshold tolerance total_variance fuel next
  = Return v next' <->
  exists k,
    next <= k <= next + fuel /\ next' = S k /\ v = as_row (draws k) /\
    is_valid_sample model obs threshold tolerance total_variance (draws k) = Ok true /\
    forall j, next <= j < k ->
      is_valid_sample model obs threshold tolerance total_variance (draws j) = Ok false.
Proof.
  split.
  - intros H. pose proof (get_valid_sample_bound fuel next v next' H) as Hb.
    apply get_valid_sample_spec in H. destruct H as (k & Hk & -> & -> & Hv & Hrej).
    exists k. repeat split; auto; lia.
  - intros (k & Hk & -> & -> & Hv & Hrej).
    apply get_valid_sample_enough; auto; lia.
Qed.


(** X9. The tensor that [_tf_sample] returns holds exactly the accepted
    draws among those it consumed, in the order they were drawn: no draw is
    altered, repeated or dropped, and rejected draws never enter. *)
Theorem tf_sample_accepted_draws (fuel n next : nat) (M : matrix) (next' : nat) :
  _tf_sample model obs draws threshold tolerance total_variance fuel n next
  = Return M next' ->
  next <= next' /\
  rows M = filter (accepted model obs threshold tolerance total_variance)
                  (consumed draws next next') /\
  length (filter (accepted model obs threshold tolerance total_variance)
                 (consumed draws next next')) = n.
Proof.
  intros H. unfold _tf_sample in H.
  pose proof (sample_loop_consumed fuel n (Mat 2 []) next M next' H) as [Hle HM].
  apply sample_loop_spec in H. destruct H as (_ & new & Hrows & Hlen & _).
  cbn [rows app] in *. split; [exact Hle|]. split; [exact HM|].
  now rewrite <- HM, Hrows.
Qed.

End DrawFacts.

Lemma get_valid_sample_first_accepted_witness :
  get_valid_sample identity_model [0.5; 0.5]%float example_draws 2 0 (Mat 2 [[1; 1]%float]) 5 0
  = Return (as_row [1; 1]%float) 3.
Proof.
  apply (get_valid_sample_first_accepted identity_model [0.5; 0.5]%float example_draws 2 0
           (Mat 2 [[1; 1]%float]) 5 0 (as_row [1; 1]%float) 3).
  exists 2. split; [lia|]. split; [reflexivity|]. split; [reflexivity|].
  split; [vm_compute; reflexivity|].
  intros j Hj. destruct j as [|[|j]]; [vm_compute; reflexivity | vm_compute; reflexivity | lia].
Defined.


Lemma tf_sample_accepted_draws_witness :
  0 <= 6 /\
  rows (Mat 2 [[1; 1]; [1; 1]]%float)
  = filter (accepted identity_model [0.5; 0.5]%float 2 0 (Mat 2 [[1; 1]%float]))
           (consumed example_draws 0 6) /\
  length (filter (accepted identity_model [0.5; 0.5]%float 2 0 (Mat 2 [[1; 1]%float]))
                 (consumed example_draws 0 6)) = 2.
Proof.
  apply (tf_sample_accepted_draws identity_model [0.5; 0.5]%float example_draws 2 0
           (Mat 2 [[1; 1]%float]) 5 2 0).
  vm_compute. reflexivity.
Defined.

(** X10. With the default prior, every sample that [ABCSampler.sample]
    returns lies in the unit hypercube [[0, 1)]: the rows are draws of the
    uniform distribution, handed over as they were drawn. *)
Theorem sample_default_prior_in_unit_cube (model : Model) (obs : vec)
    (total_variance : matrix) (rng : distribution -> nat -> vec) (n_samples : nat)
    (tolerance threshold : float) (fuel : nat) (M : matrix) (next' : nat) :
  (forall k, in_support (default_prior model) (rng (default_prior model) k)) ->
  sample model obs total_variance rng None n_samples tolerance threshold fuel
  = Return M next' ->
  Forall (fun r => length r = n_params model /\
                   Forall (fun x => (0 <=? x)%float = true /\ (x <? 1)%float = true) r)
         (rows M).
Proof.
  intros Hsup H. unfold sample in H. cbn [prior_in_use] in H. unfold _tf_sample in H.
  apply sample_loop_consumed in H. destruct H as [_ HM]. cbn [rows app] in HM.
  apply Forall_forall. intros r Hr. rewrite HM in Hr.
  apply filter_In in Hr. destruct Hr as [Hr _].
  apply consumed_In in Hr. destruct Hr as (j & _ & ->).
  pose proof (Hsup j) as [Hlen Hin]. unfold default_prior in *.
  rewrite repeat_length in *. split; [exact Hlen|].
  apply Forall_forall. intros x Hx.
  apply (In_nth _ _ 0%float) in Hx. destruct Hx as (i & Hi & <-).
  rewrite Hlen in Hi. specialize (Hin i Hi).
  now rewrite !(nth_repeat_lt _ _ Hi) in Hin.
Qed.

Lemma centre_in_default_support (k : nat) :
  in_support (default_prior identity_model) (centre_rng (default_prior identity_model) k).
Proof.
  split; [reflexivity|]. intros i Hi. cbn in Hi.
  destruct i as [|[|i]]; try lia; split; reflexivity.
Defined.

Lemma sample_default_prior_in_unit_cube_witness :
  Forall (fun r => length r = n_params identity_model /\
                   Forall (fun x => (0 <=? x)%float = true /\ (x <? 1)%float = true) r)
         (rows (Mat 2 [[0.5; 0.5]; [0.5; 0.5]]%float)).
Proof.
  apply (sample_default_prior_in_unit_cube identity_model [0.5; 0.5]%float
           (Mat 2 [[1; 1]%float]) centre_rng 2 0 2 0 (Mat 2 [[0.5; 0.5]; [0.5; 0.5]]%float) 2).
  - exact centre_in_default_support.
  - vm_compute. reflexivity.
Defined.

(** * The constraint rule at the edges *)

Lemma leb_nan_tolerance (count tolerance width : float) :
  is_nan tolerance = true -> (count <=? tolerance * width)%float = false.
Proof.
  intros Hn. destruct (count <=? tolerance * width)%float eqn:E; [|reflexivity].
  apply B64_facts.leb_Ks in E. destruct E as (_ & E & _).
  rewrite is_nan_SF in Hn. unfold B64.SF in *. rewrite FloatAxioms.mul_spec in E.
  destruct (Prim2SF tolerance); discriminate.
Qed.

(** X11. A tolerance that is NaN raises nothing and accepts nothing:
    [constrain] then rejects every row of every tensor, whatever the
    threshold. *)
Theorem constrain_nan_tolerance (implausibility : matrix) (tolerance threshold : float) :
  is_nan tolerance = true ->
  constrain implausibility tolerance threshold = repeat false (nrows implausibility).
Proof.
  intros Hn. unfold constrain, nrows.
  induction (rows implausibility) as [|row l IH]; [reflexivity|].
  cbn [map length repeat]. now rewrite IH, leb_nan_tolerance.
Qed.

Lemma constrain_nan_tolerance_witness :
  constrain test_implausibility nan 2 = repeat false (nrows test_implausibility).
Proof. apply (constrain_nan_tolerance test_implausibility nan 2). reflexivity. Defined.

Lemma is_valid_sample_nan_tolerance (model : Model) (obs : vec) (threshold tolerance : float)
    (total_variance : matrix) (x : vec) :
  is_nan tolerance = true ->
  is_valid_sample model obs threshold tolerance total_variance x <> Ok true.
Proof.
  intros Hn. unfold is_valid_sample.
  destruct (batch_implausibility model obs (as_row x) total_variance) as [I|e];
    [|discriminate].
  cbn [bind]. rewrite (constrain_nan_tolerance I tolerance threshold Hn).
  destruct (nrows I); cbn [repeat]; discriminate.
Qed.

(** X12. With a tolerance that is NaN, [ABCSampler.sample] never returns a
    sample: asked for at least one, it raises or stays in the loop of
    [get_valid_sample], for every emulator, prior and stream of draws. *)
Theorem sample_nan_tolerance_never_returns (model : Model) (obs : vec)
    (total_variance : matrix) (rng : distribution -> nat -> vec)
    (prior_x : option distribution) (n_samples : nat) (tolerance threshold : float)
    (fuel : nat) (M : matrix) (next' : nat) :
  is_nan tolerance = true -> n_samples <> 0 ->
  sample model obs total_variance rng prior_x n_samples tolerance threshold fuel
  <> Return M next'.
Proof.
  intros Hn Hs H. unfold sample, _tf_sample in H.
  destruct n_samples as [|n]; [congruence|]. cbn [sample_loop] in H.
  destruct (get_valid_sample model obs (rng (prior_in_use model prior_x)) threshold tolerance
              total_variance fuel 0) as [v next1| |] eqn:G; try discriminate.
  apply get_valid_sample_spec in G. destruct G as (k & _ & _ & _ & Hv & _).
  exact (is_valid_sample_nan_tolerance model obs threshold tolerance total_variance _ Hn Hv).
Qed.

Lemma sample_nan_tolerance_never_returns_witness :
  sample identity_model [0.5; 0.5]%float (Mat 2 [[1; 1]%float]) centre_rng None 1 nan 2 3
  <> Return (Mat 2 [[0.5; 0.5]%float]) 1.
Proof.
  apply (sample_nan_tolerance_never_returns identity_model [0.5; 0.5]%float
           (Mat 2 [[1; 1]%float]) centre_rng None 1 nan 2 3).
  - reflexivity.
  - discriminate.
Defined.

Lemma filter_length_Permutation {A} (f : A -> bool) (l1 l2 : list A) :
  Permutation l1 l2 -> length (filter f l1) = length (filter f l2).
Proof.
  induction 1 as [|x l1 l2 _ IH|x y l|l1 l2 l3 _ IH1 _ IH2]; cbn [filter].
  - reflexivity.
  - destruct (f x); cbn [length]; now rewrite IH.
  - destruct (f x), (f y); reflexivity.
  - now rewrite IH1.
Qed.

(** X13. The decision for a sample does not depend on the order of its
    entries: permuting the entries within the rows (the order of the
    observations) leaves the result of [constrain] unchanged.  The count is
    a floating-point sum, but one of zeros and ones, exact up to [2^53]
    terms. *)
Theorem constrain_permutation (M1 M2 : matrix) (tolerance threshold : float) :
  ncols M1 = ncols M2 ->
  Forall (fun row => (Z.of_nat (length row) <= 2 ^ 53)%Z) (rows M1) ->
  Forall2 (@Permutation float) (rows M1) (rows M2) ->
  constrain M1 tolerance threshold = constrain M2 tolerance threshold.
Proof.
  intros Hc Hlen Hperm. unfold constrain. rewrite Hc. clear Hc.
  induction Hperm as [|row1 row2 l1 l2 Hp _ IH]; [reflexivity|].
  inversion Hlen as [|? ? Hrow Hl]; subst. cbn [map].
  rewrite (IH Hl). f_equal.
  rewrite !reduce_sum_count; [| rewrite <- (Permutation_length Hp) | ]; try exact Hrow.
  unfold count_over. now rewrite (filter_length_Permutation _ row1 row2 Hp).
Qed.

Lemma constrain_permutation_witness :
  constrain (Mat 3 [[5; 0; 1]; [0; 7; 9]]%float) 0.5 2
  = constrain (Mat 3 [[0; 1; 5]; [9; 0; 7]]%float) 0.5 2.
Proof.
  apply (constrain_permutation (Mat 3 [[5; 0; 1]; [0; 7; 9]]%float)
           (Mat 3 [[0; 1; 5]; [9; 0; 7]]%float) 0.5 2).
  - reflexivity.
  - repeat constructor; cbn; lia.
  - constructor; [|constructor; [|constructor]].
    + apply perm_trans with [0; 5; 1]%float; [apply perm_swap | apply perm_skip, perm_swap].
    + apply perm_trans with [0; 9; 7]%float; [apply perm_skip, perm_swap | apply perm_swap].
Defined.

Lemma leb_zero_tolerance (c O : nat) (tolerance : float) :
  (Z.of_nat c <= 2 ^ 53)%Z -> (Z.of_nat O <= 2 ^ 53)%Z ->
  (tolerance =? 0)%float = true ->
  (of_nat c <=? tolerance * of_nat O)%float = (c =? 0).
Proof.
  intros Hc HO Ht. apply eqb_zero_SF in Ht. destruct Ht as [sg Ht].
  destruct (B64_facts.of_nat_SF O HO) as [SO _].
  pose proof (of_nat_finite O HO) as KO.
  destruct (B64_facts.SFmul_zero_of_nat sg (B64.SF (of_nat O)) (Prim2SF_valid _) SO KO) as [Hn HK].
  destruct (of_nat_Ks c Hc) as [Hnc HKc].
  assert (Hp : B64.SF (tolerance * of_nat O) = SF64mul (S754_zero sg) (B64.SF (of_nat O))).
  { unfold B64.SF in *. now rewrite FloatAxioms.mul_spec, Ht. }
  destruct (of_nat c <=? tolerance * of_nat O)%float eqn:E.
  - apply B64_facts.leb_Ks in E. destruct E as (_ & _ & E).
    rewrite Hp, HK, HKc in E. symmetry. apply Nat.eqb_eq.
    assert (0 < 2 ^ 1074)%Z by (apply Z.pow_pos_nonneg; lia). nia.
  - symmetry. apply Nat.eqb_neq. intros ->.
    assert (E' : (of_nat 0 <=? tolerance * of_nat O)%float = true).
    { apply B64_facts.leb_Ks. rewrite Hp, HK, HKc. repeat split; auto. lia. }
    congruence.
Qed.

Lemma filter_length_0 {A} (f : A -> bool) (l : list A) :
  (length (filter f l) =? 0) = forallb (fun x => negb (f x)) l.
Proof.
  induction l as [|a l IH]; [reflexivity|]. cbn [filter forallb].
  destruct (f a); cbn [negb andb length]; [reflexivity | exact IH].
Qed.

(** X14. With the default tolerance 0, a sample is accepted exactly when
    none of its implausibilities is greater than the threshold; entries
    equal to the threshold and NaN entries do not count against it. *)
Theorem constrain_zero_tolerance (implausibility : matrix) (tolerance threshold : float) :
  countable implausibility ->
  (tolerance =? 0)%float = true ->
  constrain implausibility tolerance threshold
  = map (forallb (fun x => negb (greater x threshold))) (rows implausibility).
Proof.
  intros [Hw Hc] Ht. unfold constrain. apply map_ext_in. intros row Hrow.
  unfold well_shaped in Hw. rewrite Forall_forall in Hw. specialize (Hw row Hrow).
  rewrite reduce_sum_count by (rewrite Hw; exact Hc).
  rewrite leb_zero_tolerance; auto.
  - apply filter_length_0.
  - pose proof (count_over_le threshold row). lia.
Qed.

Lemma constrain_zero_tolerance_witness :
  constrain test_implausibility 0 0.5
  = map (forallb (fun x => negb (greater x 0.5))) (rows test_implausibility).
Proof.
  apply (constrain_zero_tolerance test_implausibility 0 0.5).
  - split; [repeat constructor | cbn; lia].
  - reflexivity.
Defined.

(** * The sampler object *)

Lemma init_total_var (model : Model) (obs : vec) (uo ui ur us : uncertainty)
    (self : Sampler.t) :
  __init__ model obs uo ui ur us = Ok self ->
  Sampler.model self = model /\ Sampler.obs self = obs /\
  total_var obs uo ui ur us = Ok (Sampler.total_var self).
Proof.
  unfold __init__. destruct (total_var obs uo ui ur us) as [T|e]; [|discriminate].
  cbn [bind]. intros H. injection H as <-. repeat split.
Qed.

(** X15. For a sampler built by [Sampler.__init__], whatever the
    uncertainties and the emulator, no entry of the implausibility that
    [get_implausibility] returns is negative: every entry is NaN or has its
    sign bit clear. *)
Theorem get_implausibility_not_negative (model : Model) (obs : vec)
    (uo ui ur us : uncertainty) (self : Sampler.t) (sample_points : matrix)
    (batch_size : nat) (R : matrix) :
  __init__ model obs uo ui ur us = Ok self ->
  ABCSampler.get_implausibility self sample_points batch_size = Ok R ->
  all_entries not_negative R.
Proof.
  intros Hinit H. apply init_total_var in Hinit. destruct Hinit as (_ & _ & HT).
  apply total_var_row in HT. destruct HT as [HT _].
  unfold ABCSampler.get_implausibility, _tf_implausibility in H.
  destruct (batch batch_size sample_points) as [dataset|e]; [|discriminate].
  cbn [bind] in H.
  destruct (foldM _ (pbar dataset) _) as [I|e] eqn:EI; [|discriminate].
  cbn [bind] in H. injection H as <-. unfold _post_process.
  apply (implausibility_loop_not_negative _ _ _ _ _ I) in EI; [exact EI | | constructor].
  rewrite HT. apply total_var_row_not_negative.
Qed.

Lemma get_implausibility_not_negative_witness :
  exists R,
    ABCSampler.get_implausibility example_sampler example_points 2 = Ok R /\
    all_entries not_negative R.
Proof.
  eexists. split.
  - vm_compute. reflexivity.
  - apply (get_implausibility_not_negative identity_model [0.5; 0.5]%float
             (Scalar 2) (Scalar 0) (Scalar 0) (Scalar 0) example_sampler example_points 2).
    + vm_compute. reflexivity.
    + vm_compute. reflexivity.
Defined.

(** X16. For a sampler built by [Sampler.__init__] around an emulator that
    predicts row by row, [batch_constrain] does not depend on the batch
    size: two batch sizes give the same decisions or both raise, and a
    result has one decision per sample point. *)
Theorem batch_constrain_any_batch_size (model : Model) (O' : nat) (mean var : vec -> vec)
    (obs : vec) (uo ui ur us : uncertainty) (self : Sampler.t) (sample_points : matrix)
    (tolerance threshold : float) (b1 b2 : nat) :
  rowwise model O' mean var ->
  __init__ model obs uo ui ur us = Ok self ->
  b1 <> 0 -> b2 <> 0 ->
  same_outcome (ABCSampler.batch_constrain self sample_points tolerance threshold b1)
               (ABCSampler.batch_constrain self sample_points tolerance threshold b2) /\
  forall V,
    ABCSampler.batch_constrain self sample_points tolerance threshold b1 = Ok V ->
    length V = nrows sample_points.
Proof.
  intros Hrow Hinit Hb1 Hb2. apply init_total_var in Hinit.
  destruct Hinit as (Hm & Ho & HT). apply total_var_row in HT. destruct HT as [HT _].
  unfold ABCSampler.batch_constrain. rewrite Hm, Ho.
  remember (Sampler.total_var self) as T eqn:ET. clear ET.
  match type of HT with _ = Mat _ [?row] => set (w := row) in HT end.
  assert (Hw : rows T = [w]) by now rewrite HT.
  pose proof (tf_constrain_outcome model O' mean var Hrow obs T w Hw tolerance threshold
                sample_points b1 Hb1) as H1.
  pose proof (tf_constrain_outcome model O' mean var Hrow obs T w Hw tolerance threshold
                sample_points b2 Hb2) as H2.
  destruct (widths O' (ncols T) (length obs)) as [[[c1 c2] c3]|].
  - rewrite H1, H2. split; [reflexivity|].
    intros V HV. injection HV as <-. rewrite constrain_length. unfold nrows. cbn [rows].
    apply length_map.
  - unfold nrows. destruct (rows sample_points).
    + rewrite H1, H2. split; [reflexivity|]. intros V HV. now injection HV as <-.
    + destruct H1 as [e1 H1], H2 as [e2 H2]. rewrite H1, H2. split; [exact I|].
      intros V HV. discriminate.
Qed.

Lemma batch_constrain_any_batch_size_witness :
  same_outcome (ABCSampler.batch_constrain example_sampler example_points 0 2 5)
               (ABCSampler.batch_constrain example_sampler example_points 0 2 2) /\
  forall V,
    ABCSampler.batch_constrain example_sampler example_points 0 2 5 = Ok V ->
    length V = nrows example_points.
Proof.
  apply (batch_constrain_any_batch_size identity_model 2 (fun x => x) (fun _ => [0; 0]%float)
           [0.5; 0.5]%float (Scalar 2) (Scalar 0) (Scalar 0) (Scalar 0) example_sampler
           example_points 0 2 5 2 identity_model_rowwise).
  - vm_compute. reflexivity.
  - discriminate.
  - discriminate.
Defined.

Lemma leb_one_of_nat (c O : nat) :
  c <= O -> (Z.of_nat O <= 2 ^ 53)%Z -> (of_nat c <=? 1 * of_nat O)%float = true.
Proof.
  intros Hc HO.
  destruct (B64_facts.of_nat_SF O HO) as [SO KO]. fold (of_nat O) in SO, KO.
  destruct (B64_facts.SFmul_one_int (B64.SF (of_nat O)) (Z.of_nat O) (Prim2SF_valid _) SO
              ltac:(lia) KO) as [Hn HK].
  destruct (of_nat_Ks c ltac:(lia)) as [Hnc HKc].
  apply B64_facts.leb_Ks. split; [exact Hnc|].
  unfold B64.SF in *. rewrite FloatAxioms.mul_spec. split; [exact Hn|].
  change (Prim2SF 1) with (S754_finite false 4503599627370496 (-52)).
  rewrite HK, HKc. apply Z.mul_le_mono_nonneg_r; [apply Z.pow_nonneg|]; lia.
Qed.

(** X17. A tolerance of 1 or more (and below +infinity) lets every sample
    through: [constrain] then accepts every row, whatever the threshold and
    the implausibilities, NaN or infinite ones included. *)
Theorem constrain_tolerance_one (implausibility : matrix) (tolerance threshold : float) :
  countable implausibility ->
  (1 <=? tolerance)%float = true -> (tolerance <? infinity)%float = true ->
  constrain implausibility tolerance threshold = repeat true (nrows implausibility).
Proof.
  intros [Hw Hc] H1 Hfin. unfold constrain, nrows.
  unfold well_shaped in Hw. induction Hw as [|row l Hrow Hw IH]; [reflexivity|].
  cbn [map length repeat]. rewrite IH. f_equal.
  rewrite reduce_sum_count by (rewrite Hrow; exact Hc).
  apply (leb_mul_of_nat_mono _ 1 tolerance (ncols implausibility) Hc H1 Hfin).
  apply leb_one_of_nat; [|exact Hc].
  rewrite <- Hrow. apply count_over_le.
Qed.

Lemma constrain_tolerance_one_witness :
  constrain test_implausibility 1.5 0.5 = repeat true (nrows test_implausibility).
Proof.
  apply (constrain_tolerance_one test_implausibility 1.5 0.5).
  - split; [repeat constructor | cbn; lia].
  - reflexivity.
  - reflexivity.
Defined.

(** * One source of uncertainty at a time *)

Lemma add_zero_l (x : float) : not_negative x -> (0 + x)%float = x.
Proof.
  rewrite not_negative_SF. intros H. apply Prim2SF_inj.
  rewrite FloatAxioms.add_spec. change (Prim2SF 0) with (S754_zero false).
  now apply B64_facts.SFadd_zero_l.
Qed.

Lemma add_zero_r (x : float) : not_negative x -> (x + 0)%float = x.
Proof.
  rewrite not_negative_SF. intros H. apply Prim2SF_inj.
  rewrite FloatAxioms.add_spec. change (Prim2SF 0) with (S754_zero false).
  now apply B64_facts.SFadd_zero_r.
Qed.

Lemma map_zero_plus (v : vec) : Forall not_negative v -> map (fun x => 0 + x)%float v = v.
Proof.
  induction 1 as [|x v Hx _ IH]; cbn [map]; [reflexivity|]. now rewrite IH, add_zero_l.
Qed.

Lemma zip_add_zeros_r (v : vec) (n : nat) :
  length v = n -> Forall not_negative v -> zip_with PrimFloat.add v (repeat 0%float n) = v.
Proof.
  intros Hl Hv. rewrite zip_with_repeat_r by exact Hl. clear Hl.
  induction Hv as [|x v Hx _ IH]; cbn [map]; [reflexivity|]. now rewrite IH, add_zero_r.
Qed.

Lemma zip_add_zeros_l (v : vec) (n : nat) :
  length v = n -> Forall not_negative v -> zip_with PrimFloat.add (repeat 0%float n) v = v.
Proof.
  intros <- Hv. induction Hv as [|x v Hx _ IH]; cbn [length repeat zip_with]; [reflexivity|].
  now rewrite IH, add_zero_l.
Qed.

Lemma zeros_not_negative (n : nat) : Forall not_negative (repeat 0%float n).
Proof. apply Forall_forall. intros x Hx. apply repeat_spec in Hx. subst. exact I. Qed.

(** X18. One source of uncertainty alone gives exactly its own variance
    [(obs * unc)^2], whichever of the four it is: for finite observations,
    sources whose uncertainty is zero leave the sum as it is, bit for bit. *)
Theorem total_var_single_source (obs : vec) (u z1 z2 z3 : uncertainty) :
  Forall (fun o => is_finite o = true) obs ->
  per_observation (length obs) u ->
  per_observation (length obs) z1 -> zero_uncertainty z1 ->
  per_observation (length obs) z2 -> zero_uncertainty z2 ->
  per_observation (length obs) z3 -> zero_uncertainty z3 ->
  total_var obs u z1 z2 z3 = Ok (Mat (length obs) [variance obs u]) /\
  total_var obs z1 u z2 z3 = Ok (Mat (length obs) [variance obs u]) /\
  total_var obs z1 z2 u z3 = Ok (Mat (length obs) [variance obs u]) /\
  total_var obs z1 z2 z3 u = Ok (Mat (length obs) [variance obs u]).
Proof.
  intros Hf Hu P1 Z1 P2 Z2 P3 Z3.
  pose proof (variance_not_negative obs u) as Hv.
  pose proof (variance_length obs u Hu) as Hl.
  pose proof (zeros_not_negative (length obs)) as H0.
  pose proof (repeat_length 0%float (length obs)) as L0.
  repeat split; rewrite total_var_value by assumption;
    rewrite (variance_zero obs z1 P1 Z1 Hf), (variance_zero obs z2 P2 Z2 Hf),
      (variance_zero obs z3 P3 Z3 Hf);
    repeat first [ rewrite (map_zero_plus (variance obs u)) by assumption
                 | rewrite (map_zero_plus (repeat 0%float (length obs))) by assumption
                 | rewrite (zip_add_zeros_r (repeat 0%float (length obs))) by assumption
                 | rewrite (zip_add_zeros_r (variance obs u)) by assumption
                 | rewrite (zip_add_zeros_l (variance obs u)) by assumption ];
    reflexivity.
Qed.

Lemma total_var_single_source_witness :
  total_var [2; 3]%float (Scalar 0.5) (Scalar 0) (Vector [0; 0]%float) (Scalar (-0))
  = Ok (Mat (length [2; 3]%float) [variance [2; 3]%float (Scalar 0.5)]) /\
  total_var [2; 3]%float (Scalar 0) (Scalar 0.5) (Vector [0; 0]%float) (Scalar (-0))
  = Ok (Mat (length [2; 3]%float) [variance [2; 3]%float (Scalar 0.5)]) /\
  total_var [2; 3]%float (Scalar 0) (Vector [0; 0]%float) (Scalar 0.5) (Scalar (-0))
  = Ok (Mat (length [2; 3]%float) [variance [2; 3]%float (Scalar 0.5)]) /\
  total_var [2; 3]%float (Scalar 0) (Vector [0; 0]%float) (Scalar (-0)) (Scalar 0.5)
  = Ok (Mat (length [2; 3]%float) [variance [2; 3]%float (Scalar 0.5)]).
Proof.
  apply (total_var_single_source [2; 3]%float (Scalar 0.5) (Scalar 0) (Vector [0; 0]%float)
           (Scalar (-0))).
  - repeat constructor.
  - exact I.
  - exact I.
  - reflexivity.
  - reflexivity.
  - repeat constructor.
  - exact I.
  - reflexivity.
Defined.

(** * Batch decisions and single-sample decisions *)

Lemma constrain_map {A} (c : nat) (f : A -> vec) (l : list A) (tolerance threshold : float) :
  constrain (Mat c (map f l)) tolerance threshold
  = map (fun x => hd false (constrain (Mat c [f x]) tolerance threshold)) l.
Proof. unfold constrain. cbn [rows ncols map hd]. now rewrite map_map. Qed.

Lemma is_valid_sample_value (model : Model) (O' : nat) (mean var : vec -> vec)
    (obs : vec) (total_variance : matrix) (w : vec) (threshold tolerance : float)
    (c1 c2 c3 : nat) (x : vec) :
  rowwise model O' mean var -> rows total_variance = [w] ->
  widths O' (ncols total_variance) (length obs) = Some (c1, c2, c3) ->
  is_valid_sample model obs threshold tolerance total_variance x
  = Ok (hd false (constrain (Mat c3 [row_implausibility mean var obs w c1 c2 c3 x])
                            tolerance threshold)).
Proof.
  intros Hrow Hw E. unfold is_valid_sample.
  rewrite (batch_implausibility_ok model O' mean var Hrow obs total_variance w Hw
             (as_row x) c1 c2 c3 E).
  reflexivity.
Qed.

(** X19. With an emulator that predicts row by row, the decisions of
    [_tf_constrain] are those of the single-sample check of the rejection
    sampler, sample point by sample point: the result is the list of the
    outcomes of [is_valid_sample], none of which raises. *)
Theorem tf_constrain_is_valid_sample (model : Model) (O' : nat) (mean var : vec -> vec)
    (obs : vec) (total_variance : matrix) (w : vec) (tolerance threshold : float)
    (sample_points : matrix) (batch_size : nat) (V : list bool) :
  rowwise model O' mean var -> rows total_variance = [w] -> batch_size <> 0 ->
  _tf_constrain model obs sample_points total_variance tolerance threshold batch_size = Ok V ->
  V = map (accepted model obs threshold tolerance total_variance) (rows sample_points) /\
  Forall (fun x => exists valid,
            is_valid_sample model obs threshold tolerance total_variance x = Ok valid)
         (rows sample_points).
Proof.
  intros Hrow Hw Hb HV.
  pose proof (tf_constrain_outcome model O' mean var Hrow obs total_variance w Hw
                tolerance threshold sample_points batch_size Hb) as Hout.
  destruct (widths O' (ncols total_variance) (length obs)) as [[[c1 c2] c3]|] eqn:E.
  - rewrite Hout in HV. injection HV as <-. split.
    + rewrite constrain_map. apply map_ext. intros x. unfold accepted.
      rewrite (is_valid_sample_value model O' mean var obs total_variance w threshold
                 tolerance c1 c2 c3 x Hrow Hw E).
      now destruct (hd false _).
    + apply Forall_forall. intros x _. eexists.
      apply (is_valid_sample_value model O' mean var obs total_variance w threshold
               tolerance c1 c2 c3 x Hrow Hw E).
  - destruct (rows sample_points) as [|x l].
    + rewrite Hout in HV. injection HV as <-. split; [reflexivity | constructor].
    + destruct Hout as [e He]. congruence.
Qed.

Lemma tf_constrain_is_valid_sample_witness :
  [true; false; true; true; false]
  = map (accepted identity_model [0.5; 0.5]%float 2 0 (Mat 2 [[1; 1]%float]))
        (rows example_points) /\
  Forall (fun x => exists valid,
            is_valid_sample identity_model [0.5; 0.5]%float 2 0 (Mat 2 [[1; 1]%float]) x
            = Ok valid)
         (rows example_points).
Proof.
  apply (tf_constrain_is_valid_sample identity_model 2 (fun x => x) (fun _ => [0; 0]%float)
           [0.5; 0.5]%float (Mat 2 [[1; 1]%float]) [1; 1]%float 0 2 example_points 2
           [true; false; true; true; false] identity_model_rowwise).
  - reflexivity.
  - discriminate.
  - vm_compute. reflexivity.
Defined.

(** * The errors of the sampling loops *)

Section SamplingErrors.

Variable model : Model.
Variable obs : vec.
Variable draws : nat -> vec.
Variables threshold tolerance : float.
Variable total_variance : matrix.




End SamplingErrors.

